(** * usvfs: the shared directory tree and the hook manager singleton

    A shallow embedding of [src/shared/directory_tree.h] (the classes
    [DirectoryTree] and [TreeContainer]) and of the singleton part of
    [src/usvfs/hookmanager.cpp], with the properties of the specification
    stated and settled against it. *)

From Stdlib Require Import ZArith String Ascii List Bool Lia.
From stdpp Require Import base list.

Local Open Scope string_scope.
Local Open Scope list_scope.
Local Open Scope Z_scope.

(** ** C strings and the case-insensitive key order *)

Module CStr.

(** [s.c_str()] read back as a string: the bytes before the first NUL. *)
Fixpoint c_str (s : string) : string :=
  match s with
  | EmptyString => EmptyString
  | String c s' => if Ascii.eqb c zero then EmptyString else String c (c_str s')
  end.

Definition code (c : ascii) : Z := Z.of_N (N_of_ascii c).

(** [tolower] of the "C" locale: only 'A'..'Z' (65..90) are folded. *)
Definition tolower (c : ascii) : ascii :=
  let n := N_of_ascii c in
  if ((65 <=? n) && (n <=? 90))%N then ascii_of_N (n + 32) else c.

(** The CRT's [_stricmp]: the first difference of the lower-cased bytes,
    compared as unsigned values; 0 when the strings agree up to case. *)
Fixpoint _stricmp (a b : string) : Z :=
  match a, b with
  | EmptyString, EmptyString => 0
  | EmptyString, String d _ => 0 - code (tolower d)
  | String c _, EmptyString => code (tolower c)
  | String c a', String d b' =>
      let x := code (tolower c) in
      let y := code (tolower d) in
      if x =? y then _stricmp a' b' else x - y
  end.

(** [DirectoryTree::CILess::operator()]. *)
Definition CILess (lhs rhs : string) : bool :=
  _stricmp (c_str lhs) (c_str rhs) <? 0.

(** Two keys are the same key of a [NodeMapT] when neither is less. *)
Definition ci_equiv (a b : string) : bool :=
  negb (CILess a b) && negb (CILess b a).

Definition fold (s : string) : list ascii :=
  map tolower (list_ascii_of_string (c_str s)).

End CStr.
Export CStr.


(** ** std::string helpers used by [find] *)

Module Str.

Fixpoint find_first_of (chars : ascii -> bool) (s : string) : option nat :=
  match s with
  | EmptyString => None
  | String c s' =>
      if chars c then Some 0%nat
      else match find_first_of chars s' with
           | Some i => Some (S i)
           | None => None
           end
  end.

(** [s.find_last_of(chars, pos)]: the last index [<= pos] holding one of
    [chars]; [None] is [npos]. *)
Fixpoint find_last_of (chars : ascii -> bool) (s : string) (pos : nat)
  : option nat :=
  match s with
  | EmptyString => None
  | String c s' =>
      let later :=
        match pos with
        | O => None
        | S pos' =>
            match find_last_of chars s' pos' with
            | Some i => Some (S i)
            | None => None
            end
        end in
      match later with
      | Some i => Some i
      | None => if chars c then Some 0%nat else None
      end
  end.

(** [s.substr(0, n)] and [s.substr(n)]. *)
Fixpoint take (n : nat) (s : string) : string :=
  match n, s with
  | S n', String c s' => String c (take n' s')
  | _, _ => EmptyString
  end.

Fixpoint drop (n : nat) (s : string) : string :=
  match n, s with
  | S n', String _ s' => drop n' s'
  | _, _ => s
  end.

Definition is_wildcard (c : ascii) : bool :=
  Ascii.eqb c "*" || Ascii.eqb c "?".

Definition is_separator (c : ascii) : bool :=
  Ascii.eqb c "/" || Ascii.eqb c "\".

End Str.

(** ** Paths

    A [boost::filesystem::path] is used by the tree only through its
    iteration, so a path is the sequence of its elements.  A separator can
    be an element of its own (the root directory that [path()] appends to a
    top-level name). *)

Module Path.

Definition path := list string.

Definition is_separator_element (e : string) : bool :=
  String.eqb e "/" || String.eqb e "\".

(** Modelled from the spec: the conversion of a string to a path, which is
    boost's and not in the sources.  Section 6.4: both [/] and [\] separate
    components, and empty components are elided. *)
Fixpoint components (cur : string) (s : string) : path :=
  match s with
  | EmptyString => if String.eqb cur "" then [] else [cur]
  | String c s' =>
      if Str.is_separator c
      then (if String.eqb cur "" then components "" s'
            else cur :: components "" s')
      else components (cur ++ String c EmptyString)%string s'
  end.

Definition of_string (s : string) : path := components "" s.

(** [p / e]. *)
Definition div (p : path) (e : string) : path := p ++ [e].

(** An iterator is the run of elements from its position on; [end()] is
    the empty run and [begin()] the whole path. *)
Definition iterator := list string.

Definition path_begin (p : path) : iterator := p.

Definition at_end (i : iterator) : bool :=
  match i with [] => true | _ => false end.

Fixpoint skip_separators (i : iterator) : iterator :=
  match i with
  | e :: i' => if is_separator_element e then skip_separators i' else i
  | [] => []
  end.

(** Modelled from the spec: [nextIter] is declared in directory_tree.h as
    the workaround for path iteration stopping at separators and defined in
    a file that is not in the sources; it advances to the next element that
    is not a separator. *)
Definition nextIter (i : iterator) : iterator :=
  match i with
  | [] => []
  | _ :: i' => skip_separators i'
  end.

End Path.

(** ** The wildcard matcher

    Modelled from the spec: [wildcard::PartialMatch] is declared in
    wildcard.h, which is not in the sources.  Section 4.1: the name has to
    satisfy the first fragment of the pattern, case-insensitively, with [*]
    for any run of characters and [?] for one; the result is the residual
    pattern after that fragment and its separator, or null.  The tree code
    below takes the matcher as a parameter; this one is an instance. *)

Module Wildcard.

Fixpoint glob (fuel : nat) (name pat : list ascii) : bool :=
  match fuel with
  | O => false
  | S fuel' =>
      match pat, name with
      | [], [] => true
      | [], _ :: _ => false
      | p :: pat', _ =>
          if Ascii.eqb p "*" then
            glob fuel' name pat'
            || match name with
               | [] => false
               | _ :: name' => glob fuel' name' pat
               end
          else match name with
               | [] => false
               | c :: name' =>
                   (Ascii.eqb p "?" || Ascii.eqb (tolower p) (tolower c))
                   && glob fuel' name' pat'
               end
      end
  end.

Fixpoint fragment (pat : string) : string * option string :=
  match pat with
  | EmptyString => (EmptyString, None)
  | String c pat' =>
      if Str.is_separator c then (EmptyString, Some pat')
      else let '(f, r) := fragment pat' in (String c f, r)
  end.

Definition PartialMatch (name pattern : string) : option string :=
  let '(f, r) := fragment pattern in
  let n := list_ascii_of_string name in
  let p := list_ascii_of_string f in
  if glob (S (length n + length p)) n p
  then Some (match r with Some rest => rest | None => EmptyString end)
  else None.

End Wildcard.

(** ** Exceptions and outcomes of stateful code *)

Inductive exception : Set :=
| bad_alloc
| usage_error
| node_missing_error
| bad_lexical_cast
| runtime_error.

(** What a call leaves behind: a value and the state, an exception and the
    state at the throw, no answer within the given recursion depth, or a
    point where the source's behaviour is undefined. *)
Inductive outcome (St A : Type) : Type :=
| Returns (a : A) (s : St)
| Throws (e : exception) (s : St)
| OutOfFuel
| Undefined.

Arguments Returns {St A} a s.
Arguments Throws {St A} e s.
Arguments OutOfFuel {St A}.
Arguments Undefined {St A}.

(** ** The children map: [bi::map<StringT, NodePtrT, CILess>]

    Kept as the list of its entries in iteration order, which is the order
    of the keys under [CILess]. *)

Abbreviation ptr := nat (only parsing).

Definition NodeMapT := list (string * ptr).

Module NodeMap.

(** [m.find(k)]: the lower bound of [k], if [k] is not less than it. *)
Fixpoint find (k : string) (m : NodeMapT) : option ptr :=
  match m with
  | [] => None
  | (k', v) :: m' =>
      if CILess k' k then find k m'
      else if CILess k k' then None
      else Some v
  end.

(** [m[k] = v]: an equivalent key keeps its spelling and gets the value. *)
Fixpoint assign (k : string) (v : ptr) (m : NodeMapT) : NodeMapT :=
  match m with
  | [] => [(k, v)]
  | (k', v') :: m' =>
      if CILess k' k then (k', v') :: assign k v m'
      else if CILess k k' then (k, v) :: m
      else (k', v) :: m'
  end.

(** [m.insert(make_pair(k, v))]: the map, the entry's value (through
    [.first]) and whether the pair went in ([.second]). *)
Fixpoint insert (k : string) (v : ptr) (m : NodeMapT)
  : NodeMapT * ptr * bool :=
  match m with
  | [] => ([(k, v)], v, true)
  | (k', v') :: m' =>
      if CILess k' k then
        let '(m'', w, b) := insert k v m' in ((k', v') :: m'', w, b)
      else if CILess k k' then ((k, v) :: m, v, true)
      else (m, v', false)
  end.

(** [m.erase(iter)], the iterator given by its position. *)
Fixpoint erase (i : nat) (m : NodeMapT) : NodeMapT :=
  match i, m with
  | _, [] => []
  | O, _ :: m' => m'
  | S i', e :: m' => e :: erase i' m'
  end.

End NodeMap.

(** ** Tree flags *)

Definition FLAG_DIRECTORY : Z := 1.
Definition FLAG_DUMMY : Z := 2.
Definition FLAG_FIRSTUSERFLAG : Z := 16.

(** Conversion to [TreeFlags], a [uint8_t]. *)
Definition to_TreeFlags (f : Z) : Z := f mod 256.

(** ** Nodes and the segment that holds them

    Nodes live in a segment and refer to each other by their position in
    it.  An owning [NodePtrT] and a [WeakPtrT] are both such a position, or
    nothing for the null pointer.  Ownership counts are not tracked: a node
    that lost its last owner, which the source destroys together with what
    only it owns, stays in the segment here, out of reach of the root, and
    its room is not given back.  What is stated of the nodes of a segment
    is therefore stated of nodes that the maps still lead to. *)

Section Node.

Variable NodeDataT : Type.

Record NodeT : Type := mkNode {
  m_Flags : Z;
  m_Parent : option ptr;
  m_Self : option ptr;
  m_Name : string;
  m_Data : NodeDataT;
  m_Nodes : NodeMapT
}.

Definition set_Flags (f : Z) (n : NodeT) : NodeT :=
  mkNode f (m_Parent n) (m_Self n) (m_Name n) (m_Data n) (m_Nodes n).
Definition set_Parent (p : option ptr) (n : NodeT) : NodeT :=
  mkNode (m_Flags n) p (m_Self n) (m_Name n) (m_Data n) (m_Nodes n).
Definition set_Self (p : option ptr) (n : NodeT) : NodeT :=
  mkNode (m_Flags n) (m_Parent n) p (m_Name n) (m_Data n) (m_Nodes n).
Definition set_Name (s : string) (n : NodeT) : NodeT :=
  mkNode (m_Flags n) (m_Parent n) (m_Self n) s (m_Data n) (m_Nodes n).
Definition set_Data (d : NodeDataT) (n : NodeT) : NodeT :=
  mkNode (m_Flags n) (m_Parent n) (m_Self n) (m_Name n) d (m_Nodes n).
Definition set_Nodes (m : NodeMapT) (n : NodeT) : NodeT :=
  mkNode (m_Flags n) (m_Parent n) (m_Self n) (m_Name n) (m_Data n) m.

#[local] Abbreviation store := (list NodeT).

(** [p->field = ...]: nothing happens through a pointer into nowhere. *)
Definition update (p : ptr) (f : NodeT -> NodeT) (h : store) : store :=
  match h !! p with
  | Some n => <[p := f n]> h
  | None => h
  end.

(** [w.lock()]. *)
Definition lock (h : store) (w : option ptr) : option ptr :=
  match w with
  | Some p => match h !! p with Some _ => Some p | None => None end
  | None => None
  end.

Definition self_of (h : store) (p : ptr) : option ptr :=
  match h !! p with Some n => m_Self n | None => None end.

Definition nodes_of (h : store) (p : ptr) : NodeMapT :=
  match h !! p with Some n => m_Nodes n | None => [] end.

End Node.

Abbreviation store NodeDataT := (list (NodeT NodeDataT)).

Arguments mkNode {NodeDataT}.
Arguments m_Flags {NodeDataT}.
Arguments m_Parent {NodeDataT}.
Arguments m_Self {NodeDataT}.
Arguments m_Name {NodeDataT}.
Arguments m_Data {NodeDataT}.
Arguments m_Nodes {NodeDataT}.
Arguments set_Flags {NodeDataT}.
Arguments set_Parent {NodeDataT}.
Arguments set_Self {NodeDataT}.
Arguments set_Name {NodeDataT}.
Arguments set_Data {NodeDataT}.
Arguments set_Nodes {NodeDataT}.
Arguments update {NodeDataT}.
Arguments lock {NodeDataT}.
Arguments self_of {NodeDataT}.
Arguments nodes_of {NodeDataT}.

(** ** [DirectoryTree]: the operations of a node *)

Module DirectoryTree.

Section Ops.

Context {NodeDataT : Type}.

(** The matcher of wildcard.h. *)
Variable PartialMatch : string -> string -> option string.

#[local] Abbreviation store := (store NodeDataT).

(** [parent()]. *)
Definition parent (h : store) (p : ptr) : option ptr :=
  match h !! p with
  | Some n => lock h (m_Parent n)
  | None => None
  end.

(** [path()]: the recursion climbs the parent pointers, [fuel] bounds its
    depth. *)
Fixpoint path (h : store) (fuel : nat) (p : ptr) : option Path.path :=
  match fuel with
  | O => None
  | S fuel' =>
      match h !! p with
      | None => None
      | Some n =>
          match lock h (m_Parent n) with
          | None =>
              if (String.length (m_Name n) =? 0)%nat then Some []
              else Some (Path.div [c_str (m_Name n)] "\")
          | Some q =>
              match path h fuel' q with
              | Some pp => Some (Path.div pp (c_str (m_Name n)))
              | None => None
              end
          end
      end
  end.

Definition data (h : store) (p : ptr) : option NodeDataT :=
  match h !! p with Some n => Some (m_Data n) | None => None end.

Definition name (h : store) (p : ptr) : option string :=
  match h !! p with Some n => Some (c_str (m_Name n)) | None => None end.

(** [setFlag(flag, enabled)] on a node. *)
Definition setFlag (flag : Z) (enabled : bool) (n : NodeT NodeDataT)
  : NodeT NodeDataT :=
  set_Flags (to_TreeFlags (if enabled then Z.lor (m_Flags n) flag
                           else Z.land (m_Flags n) (Z.lnot flag))) n.

Definition hasFlag (flag : Z) (n : NodeT NodeDataT) : bool :=
  negb (Z.land (m_Flags n) flag =? 0).

Definition isDirectory (n : NodeT NodeDataT) : bool :=
  hasFlag FLAG_DIRECTORY n.

Definition numNodes (n : NodeT NodeDataT) : nat := length (m_Nodes n).

(** [numNodesRecursive()]; counts are taken in [nat], a [size_t] count of
    objects in memory does not wrap. *)
Fixpoint numNodesRecursive (h : store) (fuel : nat) (p : ptr) : option nat :=
  match fuel with
  | O => None
  | S fuel' =>
      match h !! p with
      | None => None
      | Some n =>
          fold_left
            (fun result node =>
               match result, numNodesRecursive h fuel' (snd node) with
               | Some r, Some k => Some (r + k)%nat
               | _, _ => None
               end)
            (m_Nodes n) (Some (numNodes n + 1)%nat)
      end
  end.

(** [node(name)]: the child or the null pointer. *)
Definition node (h : store) (p : ptr) (name : string) : option ptr :=
  NodeMap.find (c_str name) (nodes_of h p).

(** [node(name, MissingThrow)]. *)
Definition node_throw (h : store) (p : ptr) (name : string)
  : outcome store ptr :=
  match NodeMap.find (c_str name) (nodes_of h p) with
  | Some c => Returns c h
  | None => Throws node_missing_error h
  end.

Definition exists_ (h : store) (p : ptr) (name : string) : bool :=
  match NodeMap.find (c_str name) (nodes_of h p) with
  | Some _ => true
  | None => false
  end.

(** [findNode(name, iter)]: each call moves the iterator on, [fuel] is the
    number of elements left. *)
Fixpoint findNode_at (h : store) (fuel : nat) (p : ptr) (iter : Path.iterator)
  : option ptr :=
  match fuel, iter with
  | S fuel', e :: _ =>
      let subNode := NodeMap.find (c_str e) (nodes_of h p) in
      let next := Path.nextIter iter in
      if Path.at_end next then subNode
      else match subNode with
           | Some s => findNode_at h fuel' s next
           | None => None
           end
  | _, _ => None
  end.

(** [findNode(path)].  On the empty path the source reads through the end
    iterator; no node comes out of that here. *)
Definition findNode (h : store) (p : ptr) (path : Path.path) : option ptr :=
  findNode_at h (length path) p (Path.path_begin path).

(** [visitPath(path, iter, visitor)]: the nodes handed to the visitor, in
    order. *)
Fixpoint visitPath_at (h : store) (fuel : nat) (p : ptr) (iter : Path.iterator)
  : list ptr :=
  match fuel, iter with
  | S fuel', e :: _ =>
      match NodeMap.find (c_str e) (nodes_of h p) with
      | Some s =>
          let next := Path.nextIter iter in
          if Path.at_end next then [s]
          else s :: visitPath_at h fuel' s next
      | None => []
      end
  | _, _ => []
  end.

Definition visitPath (h : store) (p : ptr) (path : Path.path) : list ptr :=
  visitPath_at h (length path) p (Path.path_begin path).

Definition starts_with_star_separator (pattern : string) : bool :=
  match pattern with
  | String c0 (String c1 _) => Ascii.eqb c0 "*" && Str.is_separator c1
  | _ => false
  end.

(** [findLocal(output, pattern)]: the nodes appended to [output]. *)
Fixpoint findLocal (h : store) (fuel : nat) (p : ptr) (pattern : string)
  : option (list ptr) :=
  match fuel with
  | O => None
  | S fuel' =>
      fold_left
        (fun output entry =>
           match output, h !! (snd entry) with
           | Some out, Some child =>
               if starts_with_star_separator pattern && isDirectory child then
                 match findLocal h fuel' (snd entry) (Str.drop 1 pattern) with
                 | Some more => Some (out ++ more)
                 | None => None
                 end
               else
                 match PartialMatch (c_str (m_Name child)) (c_str pattern) with
                 | Some remainder =>
                     let out' :=
                       if String.eqb remainder "" || String.eqb remainder "*"
                       then out ++ [snd entry] else out in
                     if isDirectory child then
                       match findLocal h fuel' (snd entry) remainder with
                       | Some more => Some (out' ++ more)
                       | None => None
                       end
                     else Some out'
                 | None => Some out
                 end
           | _, _ => None
           end)
        (nodes_of h p) (Some [])
  end.

(** [find(pattern)]. *)
Definition find (h : store) (fuel : nat) (p : ptr) (pattern : string)
  : option (list ptr) :=
  let fixedPart :=
    match Str.find_first_of Str.is_wildcard pattern with
    | Some O => None
    | Some i => Str.find_last_of Str.is_separator pattern i
    | None => None
    end in
  match fixedPart with
  | Some i =>
      match findNode h p (Path.of_string (Str.take i pattern)) with
      | Some n => findLocal h fuel n (Str.drop (i + 1) pattern)
      | None => Some []
      end
  | None => findLocal h fuel p pattern
  end.

(** [findRoot()]: the [m_Self] of the node that the parent pointers end
    at, a weak pointer that may be empty; [fuel] bounds the depth of the
    recursion. *)
Fixpoint findRoot (h : store) (fuel : nat) (p : ptr) : option (option ptr) :=
  match fuel with
  | O => None
  | S fuel' =>
      match h !! p with
      | None => None
      | Some n =>
          match lock h (m_Parent n) with
          | None => Some (m_Self n)
          | Some q => findRoot h fuel' q
          end
      end
  end.

(** [erase(iter)] and [clear()] on the node at [p]: the entries leave the
    map.  The nodes they owned are left where they are (see above). *)
Definition erase (i : nat) (p : ptr) (h : store) : store :=
  update p (fun n => set_Nodes (NodeMap.erase i (m_Nodes n)) n) h.

Definition clear (p : ptr) (h : store) : store :=
  update p (set_Nodes []) h.

End Ops.

End DirectoryTree.

(** ** Arena names *)

Module Name.

Definition is_digit (c : ascii) : bool :=
  let n := N_of_ascii c in ((48 <=? n) && (n <=? 57))%N.

(** What [.] of the ECMAScript grammar matches: anything but a line
    terminator. *)
Definition dot (c : ascii) : bool :=
  negb (Ascii.eqb c "010" || Ascii.eqb c "013").

Fixpoint span_digits (l : list ascii) : list ascii * list ascii :=
  match l with
  | c :: l' =>
      if is_digit c then let '(ds, r) := span_digits l' in (c :: ds, r)
      else ([], l)
  | [] => ([], [])
  end.

(** [regex_match(s, match, (.*_)(\d+))]: the two groups of a match of the
    whole string.  The digits of the second group reach the end and the
    first group ends in the underscore before them. *)
Definition regex_match (s : string) : option (string * string) :=
  let '(ds, r) := span_digits (rev (list_ascii_of_string s)) in
  match ds, r with
  | _ :: _, c :: pre =>
      if Ascii.eqb c "_" && forallb dot pre
      then Some (string_of_list_ascii (rev r), string_of_list_ascii (rev ds))
      else None
  | _, _ => None
  end.

Definition INT_MAX : Z := 2147483647.

Definition digit_value (c : ascii) : Z := Z.of_N (N_of_ascii c) - 48.

(** [boost::lexical_cast<int>] of a run of digits. *)
Definition lexical_cast_int (digits : string) : option Z :=
  let v := fold_left (fun acc c => 10 * acc + digit_value c)
                     (list_ascii_of_string digits) 0 in
  if v <=? INT_MAX then Some v else None.

Fixpoint digits_of (fuel : nat) (n : Z) (acc : string) : string :=
  match fuel with
  | O => acc
  | S fuel' =>
      let acc' := String (ascii_of_N (Z.to_N (48 + n mod 10))) acc in
      if n / 10 =? 0 then acc' else digits_of fuel' (n / 10) acc'
  end.

(** [std::to_string] of an [int]. *)
Definition to_string (n : Z) : string :=
  if n <? 0 then String "-" (digits_of 10 (- n) "")
  else digits_of 10 n "".

(** [count + 1] in [int]; past [INT_MAX] the source overflows, the usual
    wrap-around is written out. *)
Definition int_succ (count : Z) : Z :=
  if count + 1 <=? INT_MAX then count + 1 else count + 1 - 4294967296.

(** The name the constructor keeps in [m_SHMName]. *)
Definition attach_name (SHMName : string) : string :=
  match regex_match (c_str SHMName) with
  | Some _ => SHMName
  | None => (SHMName ++ "_1")%string
  end.

(** [followupName()] on the current [m_SHMName]. *)
Definition followupName (m_SHMName : string) : exception + string :=
  match regex_match (c_str m_SHMName) with
  | None => inl usage_error
  | Some (g1, g2) =>
      match lexical_cast_int g2 with
      | None => inl bad_lexical_cast
      | Some count => inr (g1 ++ to_string (int_succ count))%string
      end
  end.

End Name.

(** ** [TreeContainer]

    One attached process is modelled: the shared memory object a container
    asks for never exists before, so [createOrOpen] creates it, and the
    container is its only user.  The byte size of a segment is counted in
    node objects: [construct] throws [bad_alloc] once [get_size] nodes are
    in the segment. *)

Module TreeContainer.

Section Container.

Context {NodeDataT : Type}.

(** [createDataEmpty<DataT>]; the payload's [createData] and [dataAssign]
    copy the value. *)
Variable createDataEmpty : NodeDataT.

(** The segment with the fields of its [TreeMeta] object. *)
Record SharedMemoryT : Type := mkSHM {
  get_size : nat;
  segment : store NodeDataT;
  tree : ptr;
  referenceCount : Z;
  outdated : bool
}.

Record TreeContainer : Type := mkContainer {
  m_SHMName : string;
  m_SHM : SharedMemoryT
}.

Definition with_segment (h : store NodeDataT) (shm : SharedMemoryT)
  : SharedMemoryT :=
  mkSHM (get_size shm) h (tree shm) (referenceCount shm) (outdated shm).

Definition with_SHM (shm : SharedMemoryT) (c : TreeContainer)
  : TreeContainer :=
  mkContainer (m_SHMName c) shm.

(** [manager->construct<TreeT>(anonymous_instance)(...)]. *)
Definition construct (n : NodeT NodeDataT) (shm : SharedMemoryT)
  : outcome SharedMemoryT ptr :=
  if (length (segment shm) <? get_size shm)%nat
  then Returns (length (segment shm)) (with_segment (segment shm ++ [n]) shm)
  else Throws bad_alloc shm.

(** [createSubNode(allocator, name, flags, data)]; the constructor of the
    node takes the name through [c_str()], the flags as [TreeFlags] and a
    null parent. *)
Definition createSubNode (name : string) (flags : Z) (data : NodeDataT)
    (shm : SharedMemoryT) : outcome SharedMemoryT ptr :=
  construct (mkNode (to_TreeFlags flags) None None (c_str name) data []) shm.

Definition modify (p : ptr) (f : NodeT NodeDataT -> NodeT NodeDataT)
    (shm : SharedMemoryT) : SharedMemoryT :=
  with_segment (update p f (segment shm)) shm.

Definition valid (p : ptr) (shm : SharedMemoryT) : bool :=
  match segment shm !! p with Some _ => true | None => false end.

(** [get()] on a segment that is not marked outdated: the root node.  On
    an outdated segment, which a [reassign()] that threw leaves behind, the
    source calls [reassign()] again before it answers; that call is not
    part of [addNode] here, and what is stated of a single [addNode] that
    depends on [get()] is stated for segments that are not outdated. *)
Definition get (shm : SharedMemoryT) : ptr := tree shm.

(** [addNode(base, name, iter, data, overwrite, flags, allocator)].  A
    pointer that is followed has to point to a node of the segment. *)
Fixpoint addNode (fuel : nat) (base : ptr) (iter : Path.iterator)
    (data : NodeDataT) (overwrite : bool) (flags : Z) (shm : SharedMemoryT)
  : outcome SharedMemoryT (option ptr) :=
  match fuel, iter with
  | O, _ => OutOfFuel
  | _, [] => Undefined
  | S fuel', e :: _ =>
      let next := Path.nextIter iter in
      let iterString := c_str e in
      if negb (valid (get shm) shm && valid base shm) then Undefined
      else if Path.at_end next then
        let created :=
          match DirectoryTree.node (segment shm) (get shm) e with
          | Some existing =>
              if valid existing shm then Returns existing shm else Undefined
          | None => createSubNode e flags data shm
          end in
        match created with
        | Returns newNode shm1 =>
            let shm2 := modify newNode (set_Self (Some newNode)) shm1 in
            let shm3 :=
              modify newNode (set_Parent (self_of (segment shm2) base)) shm2 in
            if overwrite then
              Returns (Some newNode)
                (modify base
                   (fun b => set_Nodes
                               (NodeMap.assign iterString newNode (m_Nodes b)) b)
                   shm3)
            else
              let '(m, _, inserted) :=
                NodeMap.insert iterString newNode
                               (nodes_of (segment shm3) base) in
              Returns (if inserted then Some newNode else None)
                      (modify base (set_Nodes m) shm3)
        | Throws x s => Throws x s
        | OutOfFuel => OutOfFuel
        | Undefined => Undefined
        end
      else
        match NodeMap.find iterString (nodes_of (segment shm) base) with
        | Some subNode =>
            addNode fuel' subNode next data overwrite flags shm
        | None =>
            match createSubNode e (Z.lor FLAG_DIRECTORY FLAG_DUMMY)
                                createDataEmpty shm with
            | Returns newNode shm1 =>
                let '(m, subNode, _) :=
                  NodeMap.insert iterString newNode
                                 (nodes_of (segment shm1) base) in
                let shm2 := modify base (set_Nodes m) shm1 in
                let shm3 := modify subNode (set_Self (Some subNode)) shm2 in
                let shm4 :=
                  modify subNode (set_Parent (self_of (segment shm3) base))
                         shm3 in
                addNode fuel' subNode next data overwrite flags shm4
            | Throws x s => Throws x s
            | OutOfFuel => OutOfFuel
            | Undefined => Undefined
            end
        end
  end.

(** The children loop of [copyTree], given the copy of one subtree. *)
Fixpoint copyChildren
    (copy : ptr -> ptr -> SharedMemoryT -> outcome SharedMemoryT unit)
    (destination : ptr) (kvs : NodeMapT) (shm : SharedMemoryT)
  : outcome SharedMemoryT unit :=
  match kvs with
  | [] => Returns tt shm
  | kv :: kvs' =>
      match createSubNode "" 1 createDataEmpty shm with
      | Returns newNode shm1 =>
          let shm2 := modify newNode (set_Self (Some newNode)) shm1 in
          match copy newNode (snd kv) shm2 with
          | Returns _ shm3 =>
              let key :=
                match segment shm3 !! newNode with
                | Some n => m_Name n
                | None => ""
                end in
              let shm4 :=
                modify destination
                  (fun d => set_Nodes (NodeMap.assign key newNode (m_Nodes d)) d)
                  shm3 in
              let shm5 :=
                modify newNode
                  (set_Parent (self_of (segment shm4) destination)) shm4 in
              copyChildren copy destination kvs' shm5
          | Throws x s => Throws x s
          | OutOfFuel => OutOfFuel
          | Undefined => Undefined
          end
      | Throws x s => Throws x s
      | OutOfFuel => OutOfFuel
      | Undefined => Undefined
      end
  end.

(** [copyTree(destination, reference)]: [reference] is a node of the old
    segment [old], [destination] a node of the segment being filled. *)
Fixpoint copyTree (fuel : nat) (old : store NodeDataT)
    (destination reference : ptr) (shm : SharedMemoryT)
  : outcome SharedMemoryT unit :=
  match fuel with
  | O => OutOfFuel
  | S fuel' =>
      match old !! reference with
      | None => Undefined
      | Some r =>
          let shm1 := modify destination (set_Flags (m_Flags r)) shm in
          let shm2 := modify destination (set_Data (m_Data r)) shm1 in
          let shm3 := modify destination (set_Name (c_str (m_Name r))) shm2 in
          copyChildren (copyTree fuel' old) destination (m_Nodes r) shm3
      end
  end.

(** [createOrOpen] followed by [activateSHM] for an object that does not
    exist yet: the [TreeMeta] with its root node is constructed and, when a
    tree was attached before, copied into.  The state at a throw is the new
    segment as far as it was filled; the callers keep of it what the source
    keeps, the constructor no object and [reassign] the old name and
    tree. *)
Definition activateSHM (fuel : nat) (old : option SharedMemoryT)
    (SHMName : string) (size : nat) : outcome TreeContainer unit :=
  let fresh := mkSHM size [] 0%nat 0 false in
  match construct (mkNode (to_TreeFlags 1) None None "" createDataEmpty [])
                  fresh with
  | Returns root shm0 =>
      let shm1 := mkSHM size (segment shm0) root 0 false in
      let copied :=
        match old with
        | Some o => copyTree fuel (segment o) root (tree o) shm1
        | None => Returns tt shm1
        end in
      match copied with
      | Returns _ shm2 =>
          Returns tt
            (mkContainer SHMName
               (mkSHM size (segment shm2) root (referenceCount shm2 + 1)
                      false))
      | Throws x s => Throws x (mkContainer SHMName s)
      | OutOfFuel => OutOfFuel
      | Undefined => Undefined
      end
  | Throws x s => Throws x (mkContainer SHMName s)
  | OutOfFuel => OutOfFuel
  | Undefined => Undefined
  end.

(** The constructor [TreeContainer(SHMName, size)]. *)
Definition attach (SHMName : string) (size : nat)
  : outcome TreeContainer unit :=
  activateSHM 0 None (Name.attach_name SHMName) size.

(** [reassign()]: the attached segment is marked outdated and the tree moves
    to the segment of the follow-up name, twice as large; that one is new
    and not outdated, so the loop runs once.  Every level of [copyTree]
    below the first constructs a node, so the recursion is no deeper than
    the new segment is large.  [m_TreeMeta] and [m_SHMName] are assigned
    when [createOrOpen] has returned: when it throws, as when
    [followupName] throws, the container keeps its name and its tree,
    marked outdated. *)
Definition reassign (c : TreeContainer) : outcome TreeContainer unit :=
  let old := mkSHM (get_size (m_SHM c)) (segment (m_SHM c)) (tree (m_SHM c))
                   (referenceCount (m_SHM c)) true in
  match Name.followupName (m_SHMName c) with
  | inl x => Throws x (with_SHM old c)
  | inr nextName =>
      match activateSHM (S (get_size old * 2)) (Some old) nextName
                        (get_size old * 2) with
      | Returns u c' => Returns u c'
      | Throws x _ => Throws x (with_SHM old c)
      | OutOfFuel => OutOfFuel
      | Undefined => Undefined
      end
  end.

(** [addFile(name, data, flags, overwrite)]; [retries] bounds the number of
    times the [catch] block runs. *)
Fixpoint addFile (retries : nat) (name : Path.path) (data : NodeDataT)
    (flags : Z) (overwrite : bool) (c : TreeContainer)
  : outcome TreeContainer (option ptr) :=
  match addNode (length name) (tree (m_SHM c)) (Path.path_begin name) data
                overwrite (to_TreeFlags flags) (m_SHM c) with
  | Returns r shm => Returns r (with_SHM shm c)
  | Throws bad_alloc shm =>
      match retries with
      | O => OutOfFuel
      | S retries' =>
          match reassign (with_SHM shm c) with
          | Returns _ c' => addFile retries' name data flags overwrite c'
          | Throws x c' => Throws x c'
          | OutOfFuel => OutOfFuel
          | Undefined => Undefined
          end
      end
  | Throws x shm => Throws x (with_SHM shm c)
  | OutOfFuel => OutOfFuel
  | Undefined => Undefined
  end.

(** [addDirectory(name, data, flags, overwrite)]. *)
Fixpoint addDirectory (retries : nat) (name : Path.path) (data : NodeDataT)
    (flags : Z) (overwrite : bool) (c : TreeContainer)
  : outcome TreeContainer (option ptr) :=
  match addNode (length name) (tree (m_SHM c)) (Path.path_begin name) data
                overwrite (Z.lor (to_TreeFlags flags) FLAG_DIRECTORY)
                (m_SHM c) with
  | Returns r shm => Returns r (with_SHM shm c)
  | Throws bad_alloc shm =>
      match retries with
      | O => OutOfFuel
      | S retries' =>
          match reassign (with_SHM shm c) with
          | Returns _ c' => addDirectory retries' name data flags overwrite c'
          | Throws x c' => Throws x c'
          | OutOfFuel => OutOfFuel
          | Undefined => Undefined
          end
      end
  | Throws x shm => Throws x (with_SHM shm c)
  | OutOfFuel => OutOfFuel
  | Undefined => Undefined
  end.

(** [clear()]. *)
Definition clear (c : TreeContainer) : TreeContainer :=
  with_SHM (with_segment (DirectoryTree.clear (tree (m_SHM c))
                                              (segment (m_SHM c)))
                         (m_SHM c)) c.

End Container.

End TreeContainer.

(** ** The [HookManager] singleton *)

Module HookManager.

(** The static [s_Instance] and the objects whose lifetime has begun and
    not ended, by address. *)
Record state : Type := mkState {
  s_Instance : option ptr;
  live : list ptr
}.

Definition initial : state := mkState None [].

(** The constructor run for the object at [this]; [completes] tells whether
    the rest of its body (registering the process, installing the hooks)
    returns. *)
Definition construct (this : ptr) (completes : bool) (s : state)
  : outcome state unit :=
  match s_Instance s with
  | Some _ => Throws runtime_error s
  | None =>
      if completes then Returns tt (mkState (Some this) (this :: live s))
      else Throws runtime_error (mkState (Some this) (live s))
  end.

(** The destructor. *)
Definition destroy (this : ptr) (s : state) : state :=
  mkState (s_Instance s) (List.filter (fun p => negb (Nat.eqb p this)) (live s)).

(** [HookManager::instance()]. *)
Definition instance (s : state) : outcome state ptr :=
  match s_Instance s with
  | None => Throws runtime_error s
  | Some p => Returns p s
  end.

Inductive call : Set :=
| Construct (this : ptr) (completes : bool)
| Destroy (this : ptr).

(** A call the program can make: an object is constructed where no live
    object is, and a live object is destroyed. *)
Definition possible (c : call) (s : state) : Prop :=
  match c with
  | Construct this _ => ~ In this (live s)
  | Destroy this => In this (live s)
  end.

Definition step (c : call) (s : state) : state :=
  match c with
  | Construct this completes =>
      match construct this completes s with
      | Returns _ s' => s'
      | Throws _ s' => s'
      | _ => s
      end
  | Destroy this => destroy this s
  end.

(** The states the program gets to, with the calls that led there, the
    latest first. *)
Inductive reachable : list call -> state -> Prop :=
| reach_initial : reachable [] initial
| reach_step c cs s :
    reachable cs s -> possible c s -> reachable (c :: cs) (step c s).

Definition is_construct (c : call) : bool :=
  match c with Construct _ _ => true | Destroy _ => false end.

End HookManager.


(** * Scenarios and the notions the properties are stated with *)

(** Sequencing of calls on a container. *)
Definition and_then {St A B : Type} (o : outcome St A)
    (k : St -> outcome St B) : outcome St B :=
  match o with
  | Returns _ s => k s
  | Throws x s => Throws x s
  | OutOfFuel => OutOfFuel
  | Undefined => Undefined
  end.

Definition state_of {St A : Type} (o : outcome St A) : option St :=
  match o with
  | Returns _ s => Some s
  | Throws _ s => Some s
  | _ => None
  end.

Module Scenario.

Import TreeContainer.

(** Trees with strings as payload and the empty string as empty payload. *)
Definition container := @TreeContainer.TreeContainer string.

Definition attached (size : nat) : outcome container unit :=
  attach "" "svc" size.

Definition add (p : string) (d : string) (c : container)
  : outcome container (option ptr) :=
  addFile "" 4 (Path.of_string p) d 0 true c.

Definition root (c : container) : ptr := tree (m_SHM c).
Definition nodes (c : container) : store string := segment (m_SHM c).

(** [findByPath] of the root, and the payload found. *)
Definition findByPath (c : container) (p : string) : option ptr :=
  DirectoryTree.findNode (nodes c) (root c) (Path.of_string p).

Definition payload_at (c : container) (p : string) : option string :=
  match findByPath c p with
  | Some n => DirectoryTree.data (nodes c) n
  | None => None
  end.

(** [f] inserted twice, with payloads X and Y. *)
Definition twice : outcome container (option ptr) :=
  and_then (and_then (attached 16) (add "f" "X")) (add "f" "Y").

(** [c] inserted at the top, then [a/c]. *)
Definition shadowed : outcome container (option ptr) :=
  and_then (and_then (attached 16) (add "c" "X")) (add "a/c" "Y").

(** [a/c] inserted twice: no top-level node is called [c]. *)
Definition nested_twice : outcome container (option ptr) :=
  and_then (and_then (attached 16) (add "a/c" "X")) (add "a/c" "Y").

(** One file below the root. *)
Definition one_file : outcome container (option ptr) :=
  and_then (attached 16) (add "f" "X").

(** The three files of the glob scenario. *)
Definition three_files : outcome container (option ptr) :=
  and_then
    (and_then (and_then (attached 16) (add "a/b/c1.txt" "X1"))
              (add "a/b/c2.txt" "X2"))
    (add "a/d/e.txt" "X3").

(** The same files, [c2.txt] first. *)
Definition three_files_swapped : outcome container (option ptr) :=
  and_then
    (and_then (and_then (attached 16) (add "a/d/e.txt" "X3"))
              (add "a/b/c2.txt" "X2"))
    (add "a/b/c1.txt" "X1").

(** [a] inserted, then [a/a]. *)
Definition looped : outcome container (option ptr) :=
  and_then (and_then (attached 16) (add "a" "X")) (add "a/a" "Y").

(** A file three levels down, for a segment of three nodes: the insertion
    moves the tree to a larger segment. *)
Definition migrated : outcome container (option ptr) :=
  and_then (attached 3) (add "a/b/c1.txt" "X1").

End Scenario.

(** The number of nodes of the subtree at [p], in the words of the
    specification: the node itself and the nodes of the subtrees of its
    children. *)
Fixpoint subtree_size {NodeDataT : Type} (h : store NodeDataT) (fuel : nat)
    (p : ptr) : option nat :=
  match fuel with
  | O => None
  | S fuel' =>
      match h !! p with
      | None => None
      | Some n =>
          fold_left
            (fun total node =>
               match total, subtree_size h fuel' (snd node) with
               | Some t, Some k => Some (t + k)%nat
               | _, _ => None
               end)
            (m_Nodes n) (Some 1%nat)
      end
  end.

(** Strings without a NUL byte, as [c_str()] yields them. *)
Fixpoint nul_free (s : string) : bool :=
  match s with
  | EmptyString => true
  | String c s' => negb (Ascii.eqb c zero) && nul_free s'
  end.

(** [a <= b] in the order of the keys. *)
Definition cle (a b : string) : Prop := _stricmp (c_str a) (c_str b) <= 0.

(** The elements that [begin()] and the calls of [nextIter] stop at: the
    first one and every later one that is not a separator. *)
Definition visited (p : Path.path) : list string :=
  match p with
  | [] => []
  | e :: r => e :: List.filter (fun x => negb (Path.is_separator_element x)) r
  end.

(** Going down from the node [p] by the names [es], one child at a time. *)
Fixpoint descend {NodeDataT : Type} (h : store NodeDataT) (p : ptr)
    (es : list string) : option ptr :=
  match es with
  | [] => Some p
  | e :: es' =>
      match NodeMap.find (c_str e) (nodes_of h p) with
      | Some s => descend h s es'
      | None => None
      end
  end.

(** What is the same before and after a step of an insertion: the root, the
    size, and the nodes that were there. *)
Definition extends {NodeDataT : Type}
    (shm shm' : @TreeContainer.SharedMemoryT NodeDataT) : Prop :=
  TreeContainer.tree shm' = TreeContainer.tree shm
  /\ TreeContainer.get_size shm' = TreeContainer.get_size shm
  /\ (length (TreeContainer.segment shm)
      <= length (TreeContainer.segment shm'))%nat
  /\ forall q, TreeContainer.valid q shm = true ->
               TreeContainer.valid q shm' = true.

(** The part of [addNode] that hangs the new dummy directory [newNode]
    below [base]: the child to go on with and the segment then. *)
Definition attach_dummy {NodeDataT : Type} (base : ptr) (e : string)
    (newNode : ptr) (shm1 : @TreeContainer.SharedMemoryT NodeDataT)
  : ptr * @TreeContainer.SharedMemoryT NodeDataT :=
  let '(m, subNode, _) :=
    NodeMap.insert (c_str e) newNode
                   (nodes_of (TreeContainer.segment shm1) base) in
  let shm2 := TreeContainer.modify base (set_Nodes m) shm1 in
  let shm3 := TreeContainer.modify subNode (set_Self (Some subNode)) shm2 in
  (subNode,
   TreeContainer.modify subNode
     (set_Parent (self_of (TreeContainer.segment shm3) base)) shm3).

(** The order of byte strings by value: the first differing byte decides,
    and a proper prefix comes first. *)
Fixpoint bytes_less (a b : list ascii) : bool :=
  match a, b with
  | _, [] => false
  | [], _ :: _ => true
  | x :: a', y :: b' =>
      (N_of_ascii x <? N_of_ascii y)%N
      || ((N_of_ascii x =? N_of_ascii y)%N && bytes_less a' b')
  end.

(** What an insertion that failed has done to the segment: the nodes that
    were there keep their flags, name and payload and the children they
    had; the nodes added are empty dummy directories, and a child found
    now was found before or is one of them. *)
Definition only_dummies_added {NodeDataT : Type} (createDataEmpty : NodeDataT)
    (shm shm' : @TreeContainer.SharedMemoryT NodeDataT) : Prop :=
  extends shm shm'
  /\ (forall q nd, TreeContainer.segment shm !! q = Some nd ->
        exists nd', TreeContainer.segment shm' !! q = Some nd'
                    /\ m_Flags nd' = m_Flags nd
                    /\ m_Name nd' = m_Name nd
                    /\ m_Data nd' = m_Data nd)
  /\ (forall q nd', (length (TreeContainer.segment shm) <= q)%nat ->
        TreeContainer.segment shm' !! q = Some nd' ->
        m_Flags nd' = Z.lor FLAG_DIRECTORY FLAG_DUMMY
        /\ m_Data nd' = createDataEmpty)
  /\ (forall q k v,
        NodeMap.find k (nodes_of (TreeContainer.segment shm) q) = Some v ->
        NodeMap.find k (nodes_of (TreeContainer.segment shm') q) = Some v)
  /\ (forall q k v,
        NodeMap.find k (nodes_of (TreeContainer.segment shm') q) = Some v ->
        NodeMap.find k (nodes_of (TreeContainer.segment shm) q) = Some v
        \/ (length (TreeContainer.segment shm) <= v)%nat).

Module Tight.

Import TreeContainer.

(** A segment with room for the root and one more node, and the insertion
    of [a/b] into it as [addFile] starts it. *)
Definition before : Scenario.container :=
  mkContainer "svc_1" (mkSHM 2 [mkNode 1 None None "" "" []] 0 1 false).

Definition attempt : outcome (@SharedMemoryT string) (option ptr) :=
  addNode "" 2 (tree (m_SHM before)) (Path.of_string "a/b") "X" true 0
          (m_SHM before).

(** The same insertion through [addFile], for a container whose name has
    no successor. *)
Definition stuck : outcome Scenario.container (option ptr) :=
  and_then (attach "" "svc_2147483648" 2) (Scenario.add "a/b" "X").

End Tight.

(** ** Sequences of operations on a container *)

Module Ops.

Import TreeContainer.

Section Ops.

Context {NodeDataT : Type} (createDataEmpty : NodeDataT).

Inductive operation : Type :=
| AddFile (retries : nat) (name : Path.path) (data : NodeDataT) (flags : Z)
          (overwrite : bool)
| AddDirectory (retries : nat) (name : Path.path) (data : NodeDataT)
               (flags : Z) (overwrite : bool)
| Clear
| Erase (node : ptr) (position : nat).

Definition forget {A : Type} (o : outcome (@TreeContainer NodeDataT) A)
  : outcome (@TreeContainer NodeDataT) unit :=
  match o with
  | Returns _ s => Returns tt s
  | Throws x s => Throws x s
  | OutOfFuel => OutOfFuel
  | Undefined => Undefined
  end.

Definition perform (op : operation) (c : @TreeContainer NodeDataT)
  : outcome (@TreeContainer NodeDataT) unit :=
  match op with
  | AddFile retries name data flags overwrite =>
      forget (addFile createDataEmpty retries name data flags overwrite c)
  | AddDirectory retries name data flags overwrite =>
      forget (addDirectory createDataEmpty retries name data flags overwrite c)
  | Clear => Returns tt (clear c)
  | Erase node position =>
      Returns tt
        (with_SHM (with_segment
                     (DirectoryTree.erase position node (segment (m_SHM c)))
                     (m_SHM c)) c)
  end.

(** The containers that a sequence of operations leads to, each operation
    being one that [allowed] lets through; the state an operation leaves
    when it throws counts as well. *)
Inductive built (allowed : operation -> Prop) : @TreeContainer NodeDataT -> Prop :=
| built_attach SHMName size c :
    attach createDataEmpty SHMName size = Returns tt c -> built allowed c
| built_perform op c c' :
    built allowed c -> allowed op ->
    state_of (perform op c) = Some c' -> built allowed c'.

(** The same where what is let through depends on the container the
    operation is applied to. *)
Inductive grown (allowed : @TreeContainer NodeDataT -> operation -> Prop)
  : @TreeContainer NodeDataT -> Prop :=
| grown_attach SHMName size c :
    attach createDataEmpty SHMName size = Returns tt c -> grown allowed c
| grown_perform op c c' :
    grown allowed c -> allowed c op ->
    state_of (perform op c) = Some c' -> grown allowed c'.

(** The flags a caller passes do not have DUMMY without DIRECTORY. *)
Definition plain_flags (op : operation) : Prop :=
  match op with
  | AddFile _ _ _ flags _ =>
      Z.land (to_TreeFlags flags) FLAG_DUMMY <> 0 ->
      Z.land (to_TreeFlags flags) FLAG_DIRECTORY <> 0
  | _ => True
  end.

End Ops.

End Ops.

(** A node that has DUMMY has DIRECTORY. *)
Definition dummy_is_directory (flags : Z) : Prop :=
  Z.land flags FLAG_DUMMY <> 0 -> Z.land flags FLAG_DIRECTORY <> 0.

(** A property of the flags of every node of a segment. *)
Definition all_flags {NodeDataT : Type} (P : Z -> Prop)
    (h : store NodeDataT) : Prop :=
  forall q nd, h !! q = Some nd -> P (m_Flags nd).

Module Flagged.

Import TreeContainer.

(** A file inserted with the DUMMY flag. *)
Definition dummy_file : outcome Scenario.container (option ptr) :=
  and_then (Scenario.attached 16)
           (addFile "" 4 (Path.of_string "f") "X" FLAG_DUMMY true).

End Flagged.

(** ** Arena names, in the words of the specification *)

Definition all_digits (ds : string) : bool :=
  forallb Name.is_digit (list_ascii_of_string ds).

Definition decimal_value (ds : string) : Z :=
  fold_left (fun acc c => 10 * acc + Name.digit_value c)
            (list_ascii_of_string ds) 0.

(** The name ends in an underscore followed by digits. *)
Definition ends_in_generation (s : string) : Prop :=
  exists base ds,
    s = (base ++ "_" ++ ds)%string /\ ds <> "" /\ all_digits ds = true.

(** A base without NUL and without line terminator. *)
Definition plain (base : string) : bool :=
  nul_free base && forallb Name.dot (list_ascii_of_string base).

(** ** Trees in a segment and their copies *)

(** The entries of a map, in the strict order of their keys. *)
Fixpoint strictly_sorted (m : NodeMapT) : Prop :=
  match m with
  | [] => True
  | kv :: m' =>
      Forall (fun kv' => CILess (fst kv) (fst kv') = true) m'
      /\ strictly_sorted m'
  end.

(** The node [p] is the root of a tree of less than [depth] levels: its
    children map is a map, every entry leads to such a tree one level
    lower, and its key is the name of the child up to case. *)
Fixpoint is_tree {NodeDataT : Type} (h : store NodeDataT) (depth : nat)
    (p : ptr) : Prop :=
  match depth with
  | O => False
  | S d =>
      exists n,
        h !! p = Some n
        /\ strictly_sorted (m_Nodes n)
        /\ Forall (fun kv =>
                     is_tree h d (snd kv)
                     /\ exists nc, h !! (snd kv) = Some nc
                                   /\ ci_equiv (fst kv) (m_Name nc) = true)
                  (m_Nodes n)
  end.

(** The node [dst] of [h] is a copy of the node [src] of [old]: flags,
    name and payload agree, and each name leads to a child on one side
    when it does on the other, the child in [h] being a copy again and
    lying in the range from [lo] to [hi]. *)
Fixpoint copy_of {NodeDataT : Type} (old : store NodeDataT) (depth : nat)
    (src dst : ptr) (lo hi : nat) (h : store NodeDataT) : Prop :=
  match depth with
  | O => False
  | S d =>
      exists ns nd,
        old !! src = Some ns
        /\ h !! dst = Some nd
        /\ m_Flags nd = m_Flags ns
        /\ m_Data nd = m_Data ns
        /\ m_Name nd = c_str (m_Name ns)
        /\ forall k,
             match NodeMap.find k (m_Nodes ns), NodeMap.find k (m_Nodes nd) with
             | Some c, Some c' =>
                 (lo <= c' < hi)%nat /\ copy_of old d c c' lo hi h
             | None, None => True
             | _, _ => False
             end
  end.

(** Structural equality of the tree at [src] in [old] and the tree at [dst]
    in [h]: the same paths lead to a node, and where they do the two nodes
    have the same flags, name and payload. *)
Definition structurally_equal {NodeDataT : Type} (old : store NodeDataT)
    (src : ptr) (h : store NodeDataT) (dst : ptr) : Prop :=
  forall es,
    match descend old src es, descend h dst es with
    | Some a, Some b =>
        exists na nb,
          old !! a = Some na /\ h !! b = Some nb
          /\ m_Flags nb = m_Flags na
          /\ m_Data nb = m_Data na
          /\ m_Name nb = c_str (m_Name na)
    | None, None => True
    | _, _ => False
    end.

(** What a copy into [shm] leaves alone, and where it puts its nodes: [s]
    is the number of nodes of the tree copied. *)
Definition copied_into {NodeDataT : Type} (old : store NodeDataT)
    (depth : nat) (dst src : ptr) (s : nat)
    (shm shm' : @TreeContainer.SharedMemoryT NodeDataT) : Prop :=
  TreeContainer.tree shm' = TreeContainer.tree shm
  /\ TreeContainer.get_size shm' = TreeContainer.get_size shm
  /\ (length (TreeContainer.segment shm') + 1
      = length (TreeContainer.segment shm) + s)%nat
  /\ (forall q, (q < length (TreeContainer.segment shm))%nat -> q <> dst ->
        TreeContainer.segment shm' !! q = TreeContainer.segment shm !! q)
  /\ (exists nd nd',
        TreeContainer.segment shm !! dst = Some nd
        /\ TreeContainer.segment shm' !! dst = Some nd'
        /\ m_Self nd' = m_Self nd /\ m_Parent nd' = m_Parent nd)
  /\ copy_of old depth src dst (length (TreeContainer.segment shm))
             (length (TreeContainer.segment shm'))
             (TreeContainer.segment shm').

(** The end of one round of the loop of [copyTree]: the copy [newNode] goes
    into the map of [destination] under its name and gets its parent. *)
Definition link_child {NodeDataT : Type} (destination newNode : ptr)
    (shm3 : @TreeContainer.SharedMemoryT NodeDataT)
  : @TreeContainer.SharedMemoryT NodeDataT :=
  let key :=
    match TreeContainer.segment shm3 !! newNode with
    | Some n => m_Name n
    | None => ""
    end in
  let shm4 :=
    TreeContainer.modify destination
      (fun d => set_Nodes (NodeMap.assign key newNode (m_Nodes d)) d) shm3 in
  TreeContainer.modify newNode
    (set_Parent (self_of (TreeContainer.segment shm4) destination)) shm4.

(** [is_tree], decided. *)
Fixpoint sorted_check (m : NodeMapT) : bool :=
  match m with
  | [] => true
  | kv :: m' =>
      forallb (fun kv' => CILess (fst kv) (fst kv')) m' && sorted_check m'
  end.

Fixpoint tree_check {NodeDataT : Type} (h : store NodeDataT) (depth : nat)
    (p : ptr) : bool :=
  match depth with
  | O => false
  | S d =>
      match h !! p with
      | None => false
      | Some n =>
          sorted_check (m_Nodes n)
          && forallb (fun kv =>
                        tree_check h d (snd kv)
                        && match h !! (snd kv) with
                           | Some nc => ci_equiv (fst kv) (m_Name nc)
                           | None => false
                           end)
                     (m_Nodes n)
      end
  end.

Module Migration.

Import TreeContainer.

(** The tree of the three files, and an empty segment of 16 nodes with its
    root to copy it into. *)
Definition source : store string :=
  match state_of Scenario.three_files with
  | Some c => segment (m_SHM c)
  | None => []
  end.

Definition target : @SharedMemoryT string :=
  mkSHM 16 [mkNode 1 None None "" "" []] 0 0 false.

End Migration.

(** ** Nodes linked to the root

    Invariant 1 along the parent pointers of [c]: the node is the child
    under its own name in the map of its parent, the parent is linked in
    the same way, and the chain ends, after less than [n] steps, at a node
    without parent that the root has under its name. *)
Fixpoint linked {NodeDataT : Type} (h : store NodeDataT) (root : ptr)
    (n : nat) (c : ptr) : Prop :=
  match n with
  | O => False
  | S n' =>
      exists nd,
        h !! c = Some nd
        /\ match lock h (m_Parent nd) with
           | None =>
               m_Name nd <> ""
               /\ NodeMap.find (c_str (m_Name nd)) (nodes_of h root) = Some c
           | Some q =>
               linked h root n' q
               /\ Path.is_separator_element (c_str (m_Name nd)) = false
               /\ NodeMap.find (c_str (m_Name nd)) (nodes_of h q) = Some c
           end
  end.

Fixpoint linked_check {NodeDataT : Type} (h : store NodeDataT) (root : ptr)
    (n : nat) (c : ptr) : bool :=
  match n with
  | O => false
  | S n' =>
      match h !! c with
      | None => false
      | Some nd =>
          match lock h (m_Parent nd) with
          | None =>
              negb (String.eqb (m_Name nd) "")
              && match NodeMap.find (c_str (m_Name nd)) (nodes_of h root) with
                 | Some x => Nat.eqb x c
                 | None => false
                 end
          | Some q =>
              linked_check h root n' q
              && negb (Path.is_separator_element (c_str (m_Name nd)))
              && match NodeMap.find (c_str (m_Name nd)) (nodes_of h q) with
                 | Some x => Nat.eqb x c
                 | None => false
                 end
          end
      end
  end.

(** ** Trees whose nodes are linked to the root *)

(** The entry of the key [k] in the map of [q] leads to a proper child [c]:
    a node with its [m_Self], with [q] as parent (none below the root,
    whose own [m_Self] is null), and with a name that is the key up to
    case, not empty and not a separator. *)
Definition child_ok {NodeDataT : Type} (h : store NodeDataT) (root q : nat)
    (k : string) (c : nat) : Prop :=
  exists nd,
    h !! c = Some nd
    /\ c <> root
    /\ m_Self nd = Some c
    /\ m_Parent nd = (if Nat.eqb q root then None else Some q)
    /\ ci_equiv k (m_Name nd) = true
    /\ c_str (m_Name nd) <> ""
    /\ Path.is_separator_element (c_str (m_Name nd)) = false.

(** The root has no [m_Self], every children map is in the strict order of
    its keys, and every child that a map leads to is a proper child. *)
Definition tree_linked {NodeDataT : Type} (h : store NodeDataT) (root : nat)
  : Prop :=
  (exists nr, h !! root = Some nr /\ m_Self nr = None)
  /\ (forall q nd, h !! q = Some nd -> strictly_sorted (m_Nodes nd))
  /\ forall q k c, NodeMap.find k (nodes_of h q) = Some c ->
                   child_ok h root q k c.

(** The elements a path is walked by are names: not empty, no separator. *)
Definition names_only (p : Path.path) : Prop :=
  Forall (fun e => c_str e <> ""
                   /\ Path.is_separator_element (c_str e) = false)
         (visited p).

(** A path of several components does not end in the name of a top-level
    node nor in its own first name. *)
Definition no_shadow {NodeDataT : Type} (h : store NodeDataT) (root : nat)
    (p : Path.path) : Prop :=
  forall e1 es el,
    visited p = e1 :: es ++ [el] ->
    NodeMap.find (c_str el) (nodes_of h root) = None
    /\ ci_equiv (c_str el) (c_str e1) = false.

(** One change of the segment by an insertion: the nodes that were there
    keep [m_Self], [m_Parent] and name, and their maps change by an
    assignment at most; a node that comes new is [n], has no children and
    is made to be a child of [base] under the key [k]; and a child found
    afterwards was found before or is [n] below [base]. *)
Definition heap_step {NodeDataT : Type} (h h' : store NodeDataT)
    (root base : nat) (k : string) (n : nat) : Prop :=
  (forall q nd, h !! q = Some nd ->
     exists nd', h' !! q = Some nd'
                 /\ m_Self nd' = m_Self nd
                 /\ m_Parent nd' = m_Parent nd
                 /\ m_Name nd' = m_Name nd
                 /\ (m_Nodes nd' = m_Nodes nd
                     \/ exists k' p,
                          m_Nodes nd' = NodeMap.assign k' p (m_Nodes nd)))
  /\ (forall q nd', h !! q = None -> h' !! q = Some nd' ->
        q = n /\ q <> root
        /\ m_Nodes nd' = []
        /\ m_Self nd' = Some n
        /\ m_Parent nd' = (if Nat.eqb base root then None else Some base)
        /\ ci_equiv k (m_Name nd') = true
        /\ c_str (m_Name nd') <> ""
        /\ Path.is_separator_element (c_str (m_Name nd')) = false)
  /\ (forall q x c,
        NodeMap.find x (nodes_of h' q) = Some c ->
        NodeMap.find x (nodes_of h q) = Some c
        \/ (q = base /\ c = n /\ h !! n = None /\ h' !! n <> None
            /\ ci_equiv k x = true)).

(** What a copy into the node [dest] keeps of the segment it fills: the
    root, [m_Self] and [m_Parent] of the nodes that were there and, but for
    [dest], their names; a child found afterwards was found before, or it
    is a new node, found in [dest] or in a new node. *)
Definition kept {NodeDataT : Type} (dest : nat)
    (shm shm' : @TreeContainer.SharedMemoryT NodeDataT) : Prop :=
  TreeContainer.tree shm' = TreeContainer.tree shm
  /\ (length (TreeContainer.segment shm)
      <= length (TreeContainer.segment shm'))%nat
  /\ (forall q nd, TreeContainer.segment shm !! q = Some nd ->
        exists nd', TreeContainer.segment shm' !! q = Some nd'
                    /\ m_Self nd' = m_Self nd
                    /\ m_Parent nd' = m_Parent nd
                    /\ (q <> dest -> m_Name nd' = m_Name nd))
  /\ (forall q x c,
        NodeMap.find x (nodes_of (TreeContainer.segment shm') q) = Some c ->
        NodeMap.find x (nodes_of (TreeContainer.segment shm) q) = Some c
        \/ ((length (TreeContainer.segment shm) <= c)%nat
            /\ (q = dest \/ (length (TreeContainer.segment shm) <= q)%nat))).

(** No map leads to the node [dest]. *)
Definition no_target {NodeDataT : Type} (dest : nat)
    (shm : @TreeContainer.SharedMemoryT NodeDataT) : Prop :=
  forall q x,
    NodeMap.find x (nodes_of (TreeContainer.segment shm) q) <> Some dest.

(** The node [dest] is there and has its [m_Self], the root none. *)
Definition owns_self {NodeDataT : Type} (dest : nat)
    (shm : @TreeContainer.SharedMemoryT NodeDataT) : Prop :=
  exists nd,
    TreeContainer.segment shm !! dest = Some nd
    /\ m_Self nd = (if Nat.eqb dest (TreeContainer.tree shm) then None
                    else Some dest).

(** The entry [kv] of a map of [old] leads to a node with a name, which is
    the key up to case. *)
Definition named {NodeDataT : Type} (old : store NodeDataT)
    (kv : string * nat) : Prop :=
  exists nc,
    old !! snd kv = Some nc
    /\ c_str (m_Name nc) <> ""
    /\ Path.is_separator_element (c_str (m_Name nc)) = false
    /\ ci_equiv (fst kv) (m_Name nc) = true.

(** The tree of a container is linked, or the container has no segment
    (the construction of its root threw). *)
Definition well_linked {NodeDataT : Type}
    (c : @TreeContainer.TreeContainer NodeDataT) : Prop :=
  TreeContainer.segment (TreeContainer.m_SHM c) = []
  \/ tree_linked (TreeContainer.segment (TreeContainer.m_SHM c))
                 (TreeContainer.tree (TreeContainer.m_SHM c)).

(** The insertions that cannot slip: [addFile] and [addDirectory] of a path
    of names that, when it has several components, does not end in the
    name of a top-level node of the tree it goes into nor in its own first
    name. *)
Definition slip_free {NodeDataT : Type}
    (c : @TreeContainer.TreeContainer NodeDataT)
    (op : @Ops.operation NodeDataT) : Prop :=
  match op with
  | Ops.AddFile _ name _ _ _ | Ops.AddDirectory _ name _ _ _ =>
      names_only name
      /\ no_shadow (TreeContainer.segment (TreeContainer.m_SHM c))
                   (TreeContainer.tree (TreeContainer.m_SHM c)) name
  | _ => False
  end.

(** ** Walks and subtrees *)

(** The nodes met while going down from [p] by the names [es], as far as
    there are children of these names. *)
Fixpoint trail {NodeDataT : Type} (h : store NodeDataT) (p : nat)
    (es : list string) : list nat :=
  match es with
  | [] => []
  | e :: es' =>
      match NodeMap.find (c_str e) (nodes_of h p) with
      | Some s => s :: trail h s es'
      | None => []
      end
  end.

(** The nodes below [p]: those that the entries of the children maps lead
    to, in one step or more. *)
Inductive descendant {NodeDataT : Type} (h : store NodeDataT)
  : nat -> nat -> Prop :=
| descendant_child p c :
    In c (map snd (nodes_of h p)) -> descendant h p c
| descendant_step p q c :
    In q (map snd (nodes_of h p)) -> descendant h q c -> descendant h p c.

(** ** What insertions keep *)

(** The nodes of [h] are nodes of [h'] with the flags, the name and the
    payload they had. *)
Definition fields_kept {NodeDataT : Type} (h h' : store NodeDataT) : Prop :=
  forall q nd,
    h !! q = Some nd ->
    exists nd', h' !! q = Some nd'
                /\ m_Flags nd' = m_Flags nd
                /\ m_Name nd' = m_Name nd
                /\ m_Data nd' = m_Data nd.

(** Every child that a map leads to is a node of the segment. *)
Definition no_dangling {NodeDataT : Type} (h : store NodeDataT) : Prop :=
  forall q k c, NodeMap.find k (nodes_of h q) = Some c -> h !! c <> None.

Definition no_dangling_check {NodeDataT : Type} (h : store NodeDataT) : bool :=
  forallb (fun n => forallb (fun kv : string * nat =>
                               match h !! snd kv with
                               | Some _ => true
                               | None => false
                               end) (m_Nodes n)) h.

(** The container that holds the one file [f] with payload X, written
    out. *)
Definition one_file_container : Scenario.container :=
  TreeContainer.mkContainer "svc_1"
    (TreeContainer.mkSHM 16
       [mkNode 1 None None "" "" [("f", 1%nat)];
        mkNode 0 None (Some 1%nat) "f" "X" []]
       0%nat 1 false).

(** The container of the three files. *)
Definition three_files_container : Scenario.container :=
  match state_of Scenario.three_files with
  | Some c => c
  | None => Tight.before
  end.

(** The conditions of [tree_linked], decided on a given segment. *)
Definition child_check {NodeDataT : Type} (h : store NodeDataT) (root q : nat)
    (kv : string * nat) : bool :=
  match h !! snd kv with
  | Some nd =>
      negb (Nat.eqb (snd kv) root)
      && match m_Self nd with
         | Some s => Nat.eqb s (snd kv)
         | None => false
         end
      && match m_Parent nd, Nat.eqb q root with
         | None, true => true
         | Some w, false => Nat.eqb w q
         | _, _ => false
         end
      && ci_equiv (fst kv) (m_Name nd)
      && negb (String.eqb (c_str (m_Name nd)) "")
      && negb (Path.is_separator_element (c_str (m_Name nd)))
  | None => false
  end.

Definition tree_linked_check {NodeDataT : Type} (h : store NodeDataT)
    (root : nat) : bool :=
  match h !! root with
  | Some nr => match m_Self nr with None => true | Some _ => false end
  | None => false
  end
  && forallb (fun q =>
                match h !! q with
                | Some nq =>
                    sorted_check (m_Nodes nq)
                    && forallb (child_check h root q) (m_Nodes nq)
                | None => true
                end) (seq 0 (length h)).

(** * Properties *)

(** ** The key order *)

Module CIOrder.

Lemma c_str_nul_free s : nul_free (c_str s) = true.
Proof.
  induction s as [|c s IH]; simpl; [reflexivity|].
  destruct (Ascii.eqb c zero) eqn:Hc; simpl; [reflexivity|].
  rewrite Hc. exact IH.
Qed.

Lemma c_str_fixed s : nul_free s = true -> c_str s = s.
Proof.
  induction s as [|c s IH]; simpl; [reflexivity|].
  destruct (Ascii.eqb c zero); simpl; [discriminate|].
  intros H. rewrite IH; auto.
Qed.

Lemma c_str_idem s : c_str (c_str s) = c_str s.
Proof. apply c_str_fixed, c_str_nul_free. Qed.

Lemma code_nonneg c : 0 <= code c.
Proof. unfold code. lia. Qed.

Lemma code_inj c d : code c = code d -> c = d.
Proof.
  unfold code. intros H. apply N2Z.inj in H.
  rewrite <- (ascii_N_embedding c), <- (ascii_N_embedding d). congruence.
Qed.

Lemma tolower_zero c : tolower c = zero -> c = zero.
Proof.
  unfold tolower.
  destruct ((65 <=? N_of_ascii c)%N && (N_of_ascii c <=? 90)%N) eqn:H;
    [|auto].
  intros Hz. exfalso.
  apply andb_prop in H as [H1 H2].
  apply N.leb_le in H1. apply N.leb_le in H2.
  assert (Hn : N_of_ascii (ascii_of_N (N_of_ascii c + 32)) = 0%N)
    by (rewrite Hz; reflexivity).
  rewrite N_ascii_embedding in Hn by lia. lia.
Qed.

Lemma code_lower_pos c : Ascii.eqb c zero = false -> 0 < code (tolower c).
Proof.
  intros Hc. pose proof (code_nonneg (tolower c)) as Hn.
  destruct (Z.eq_dec (code (tolower c)) 0) as [Hz|]; [|lia].
  exfalso. assert (tolower c = zero) as Ht.
  { apply code_inj. rewrite Hz. reflexivity. }
  apply tolower_zero in Ht. subst c. discriminate.
Qed.

(** The sign of [_stricmp] turns around with its arguments. *)
Lemma stricmp_opp a b : _stricmp b a = - _stricmp a b.
Proof.
  revert b. induction a as [|c a IH]; intros [|d b]; simpl; try lia.
  rewrite (Z.eqb_sym (code (tolower d))).
  destruct (code (tolower c) =? code (tolower d)); [apply IH | lia].
Qed.

Lemma stricmp_refl a : _stricmp a a = 0.
Proof.
  induction a as [|c a IH]; simpl; [reflexivity|].
  rewrite Z.eqb_refl. exact IH.
Qed.

(** On strings without NUL, "not greater" is transitive. *)
Lemma stricmp_le_trans a b c :
  nul_free a = true -> nul_free b = true -> nul_free c = true ->
  _stricmp a b <= 0 -> _stricmp b c <= 0 -> _stricmp a c <= 0.
Proof.
  revert b c. induction a as [|x a IH]; intros b c Ha Hb Hc Hab Hbc.
  - destruct c as [|z c]; simpl; [lia|].
    pose proof (code_nonneg (tolower z)). lia.
  - simpl in Ha. apply andb_prop in Ha as [Hx Ha].
    apply negb_true_iff in Hx. pose proof (code_lower_pos _ Hx) as Hxp.
    destruct b as [|y b]; simpl in Hab; [lia|].
    simpl in Hb. apply andb_prop in Hb as [Hy Hb].
    apply negb_true_iff in Hy. pose proof (code_lower_pos _ Hy) as Hyp.
    destruct c as [|z c]; simpl in Hbc; [lia|].
    simpl in Hc. apply andb_prop in Hc as [Hz Hc].
    simpl.
    destruct (Z.eqb_spec (code (tolower x)) (code (tolower y))) as [Exy|Exy];
      destruct (Z.eqb_spec (code (tolower y)) (code (tolower z))) as [Eyz|Eyz];
      destruct (Z.eqb_spec (code (tolower x)) (code (tolower z))) as [Exz|Exz];
      try lia.
    apply (IH b c); assumption.
Qed.

Lemma cle_trans a b c : cle a b -> cle b c -> cle a c.
Proof.
  unfold cle. apply stricmp_le_trans; apply c_str_nul_free.
Qed.

Lemma cle_refl a : cle a a.
Proof. unfold cle. rewrite stricmp_refl. lia. Qed.

Lemma CILess_true a b : CILess a b = true <-> ~ cle b a.
Proof.
  unfold CILess, cle. rewrite Z.ltb_lt.
  rewrite (stricmp_opp (c_str a) (c_str b)). lia.
Qed.

Lemma CILess_false a b : CILess a b = false <-> cle b a.
Proof.
  unfold CILess, cle. rewrite Z.ltb_ge.
  rewrite (stricmp_opp (c_str a) (c_str b)). lia.
Qed.

Lemma cle_total a b : cle a b \/ cle b a.
Proof.
  unfold cle. rewrite (stricmp_opp (c_str a) (c_str b)). lia.
Qed.

Lemma CILess_irrefl a : CILess a a = false.
Proof. apply CILess_false, cle_refl. Qed.

Lemma CILess_trans a b c :
  CILess a b = true -> CILess b c = true -> CILess a c = true.
Proof.
  rewrite !CILess_true. intros Hab Hbc Hca.
  destruct (cle_total b a) as [H|H]; [tauto|].
  apply Hbc. eapply cle_trans; eauto.
Qed.

Lemma ci_equiv_spec a b : ci_equiv a b = true <-> cle a b /\ cle b a.
Proof.
  unfold ci_equiv. rewrite andb_true_iff, !negb_true_iff, !CILess_false.
  tauto.
Qed.

Lemma ci_equiv_comm a b : ci_equiv a b = ci_equiv b a.
Proof. unfold ci_equiv. apply andb_comm. Qed.

Lemma ci_equiv_refl a : ci_equiv a a = true.
Proof. apply ci_equiv_spec. split; apply cle_refl. Qed.

Lemma ci_equiv_sym a b : ci_equiv a b = true -> ci_equiv b a = true.
Proof. rewrite !ci_equiv_spec. tauto. Qed.

Lemma ci_equiv_trans a b c :
  ci_equiv a b = true -> ci_equiv b c = true -> ci_equiv a c = true.
Proof.
  rewrite !ci_equiv_spec. intros [? ?] [? ?].
  split; eapply cle_trans; eauto.
Qed.

(** Equivalent keys compare alike with every key. *)
Lemma CILess_equiv_l a b x :
  ci_equiv a b = true -> CILess a x = CILess b x.
Proof.
  rewrite ci_equiv_spec. intros [Hab Hba].
  destruct (CILess a x) eqn:Ha; destruct (CILess b x) eqn:Hb; auto.
  - apply CILess_true in Ha. apply CILess_false in Hb.
    exfalso. apply Ha. eapply cle_trans; eauto.
  - apply CILess_false in Ha. apply CILess_true in Hb.
    exfalso. apply Hb. eapply cle_trans; eauto.
Qed.

Lemma CILess_equiv_r a b x :
  ci_equiv a b = true -> CILess x a = CILess x b.
Proof.
  rewrite ci_equiv_spec. intros [Hab Hba].
  destruct (CILess x a) eqn:Ha; destruct (CILess x b) eqn:Hb; auto.
  - apply CILess_true in Ha. apply CILess_false in Hb.
    exfalso. apply Ha. eapply cle_trans; eauto.
  - apply CILess_false in Ha. apply CILess_true in Hb.
    exfalso. apply Hb. eapply cle_trans; eauto.
Qed.

Lemma CILess_c_str_l a x : CILess (c_str a) x = CILess a x.
Proof. unfold CILess. rewrite c_str_idem. reflexivity. Qed.

Lemma CILess_c_str_r a x : CILess x (c_str a) = CILess x a.
Proof. unfold CILess. rewrite c_str_idem. reflexivity. Qed.

(** Keys are equivalent exactly when they fold to the same bytes. *)
Lemma stricmp_zero_fold a b :
  nul_free a = true -> nul_free b = true ->
  (_stricmp a b = 0 <->
   map tolower (list_ascii_of_string a) = map tolower (list_ascii_of_string b)).
Proof.
  revert b. induction a as [|x a IH]; intros [|y b] Ha Hb; simpl.
  - tauto.
  - simpl in Hb. apply andb_prop in Hb as [Hy _].
    apply negb_true_iff in Hy. pose proof (code_lower_pos _ Hy).
    split; [lia | discriminate].
  - simpl in Ha. apply andb_prop in Ha as [Hx _].
    apply negb_true_iff in Hx. pose proof (code_lower_pos _ Hx).
    split; [lia | discriminate].
  - simpl in Ha, Hb. apply andb_prop in Ha as [_ Ha].
    apply andb_prop in Hb as [_ Hb].
    destruct (code (tolower x) =? code (tolower y)) eqn:E.
    + apply Z.eqb_eq, code_inj in E. rewrite E, (IH b Ha Hb).
      split; [congruence | intros H; injection H; auto].
    + apply Z.eqb_neq in E. split; [lia|].
      intros H. injection H as H1 _. rewrite H1 in E. tauto.
Qed.

Lemma ci_equiv_fold a b : ci_equiv a b = true <-> fold a = fold b.
Proof.
  rewrite ci_equiv_spec. unfold cle, fold.
  rewrite <- stricmp_zero_fold by apply c_str_nul_free.
  rewrite (stricmp_opp (c_str a) (c_str b)). lia.
Qed.

End CIOrder.

(** ** The children map *)

Module NodeMapFacts.

Import CIOrder.

Lemma find_equiv k1 k2 m :
  ci_equiv k1 k2 = true -> NodeMap.find k1 m = NodeMap.find k2 m.
Proof.
  intros He. induction m as [|[k v] m IH]; simpl; [reflexivity|].
  rewrite (CILess_equiv_r k1 k2 k He), (CILess_equiv_l k1 k2 k He), IH.
  reflexivity.
Qed.

Lemma find_assign_same k v m :
  NodeMap.find k (NodeMap.assign k v m) = Some v.
Proof.
  induction m as [|[k' v'] m IH]; simpl.
  - rewrite CILess_irrefl. reflexivity.
  - destruct (CILess k' k) eqn:H1; simpl.
    + rewrite H1. exact IH.
    + destruct (CILess k k') eqn:H2; simpl.
      * rewrite CILess_irrefl. reflexivity.
      * rewrite H1, H2. reflexivity.
Qed.

Lemma find_assign_other k v k2 m :
  ci_equiv k k2 = false ->
  NodeMap.find k2 (NodeMap.assign k v m) = NodeMap.find k2 m.
Proof.
  intros Hne. induction m as [|[k' v'] m IH]; simpl.
  - destruct (CILess k k2) eqn:H1; [reflexivity|].
    destruct (CILess k2 k) eqn:H2; [reflexivity|].
    unfold ci_equiv in Hne. rewrite H1, H2 in Hne. discriminate.
  - destruct (CILess k' k) eqn:H1; simpl.
    + rewrite IH. reflexivity.
    + destruct (CILess k k') eqn:H2; simpl.
      * destruct (CILess k k2) eqn:H3; [reflexivity|].
        destruct (CILess k2 k) eqn:H4.
        -- rewrite (CILess_trans _ _ _ H4 H2).
           destruct (CILess k' k2) eqn:H5; [|reflexivity].
           exfalso. pose proof (CILess_trans _ _ _ H2 H5). congruence.
        -- unfold ci_equiv in Hne. rewrite H3, H4 in Hne. discriminate.
      * assert (He : ci_equiv k' k = true)
          by (unfold ci_equiv; rewrite H1, H2; reflexivity).
        destruct (CILess k' k2) eqn:H3; [reflexivity|].
        destruct (CILess k2 k') eqn:H4; [reflexivity|].
        exfalso.
        assert (He2 : ci_equiv k' k2 = true)
          by (unfold ci_equiv; rewrite H3, H4; reflexivity).
        pose proof (ci_equiv_trans _ _ _ (ci_equiv_sym _ _ He) He2).
        congruence.
Qed.

(** [insert] is [assign] where the key is new and nothing elsewhere. *)
Lemma insert_spec k v m :
  NodeMap.insert k v m =
  match NodeMap.find k m with
  | Some w => (m, w, false)
  | None => (NodeMap.assign k v m, v, true)
  end.
Proof.
  induction m as [|[k' v'] m IH]; simpl; [reflexivity|].
  destruct (CILess k' k) eqn:H1.
  - rewrite IH. destruct (NodeMap.find k m); reflexivity.
  - destruct (CILess k k'); reflexivity.
Qed.

Lemma find_assign k v k2 m :
  NodeMap.find k2 (NodeMap.assign k v m) =
  if ci_equiv k k2 then Some v else NodeMap.find k2 m.
Proof.
  destruct (ci_equiv k k2) eqn:He.
  - rewrite <- (find_equiv k k2 _ He). apply find_assign_same.
  - apply find_assign_other. exact He.
Qed.

(** The targets of a map. *)
Lemma assign_targets k v m x :
  In x (map snd (NodeMap.assign k v m)) -> x = v \/ In x (map snd m).
Proof.
  induction m as [|[k' v'] m IH]; simpl.
  - intuition auto.
  - destruct (CILess k' k); simpl.
    + intros [H|H]; [tauto|]. apply IH in H. tauto.
    + destruct (CILess k k'); simpl; intuition auto.
Qed.

Lemma find_target k m v : NodeMap.find k m = Some v -> In v (map snd m).
Proof.
  induction m as [|[k' v'] m IH]; simpl; [discriminate|].
  destruct (CILess k' k).
  - intros H. right. auto.
  - destruct (CILess k k'); [discriminate|].
    intros H. injection H as ->. left. reflexivity.
Qed.

Lemma erase_targets i m x :
  In x (map snd (NodeMap.erase i m)) -> In x (map snd m).
Proof.
  revert i. induction m as [|e m IH]; intros [|i]; simpl; try tauto.
  intros [H|H]; [tauto|]. right. eapply IH; eauto.
Qed.

End NodeMapFacts.

(** ** Walking down a path *)

Module PathFacts.

Lemma skip_separators_filter (r : list string) :
  List.filter (fun x => negb (Path.is_separator_element x))
              (Path.skip_separators r)
  = List.filter (fun x => negb (Path.is_separator_element x)) r.
Proof.
  induction r as [|e r IH]; simpl; [reflexivity|].
  destruct (Path.is_separator_element e) eqn:He; simpl.
  - exact IH.
  - rewrite He. reflexivity.
Qed.

Lemma skip_separators_head r e r' :
  Path.skip_separators r = e :: r' -> Path.is_separator_element e = false.
Proof.
  induction r as [|x r IH]; simpl; [discriminate|].
  destruct (Path.is_separator_element x) eqn:Hx; [exact IH|].
  intros H. injection H as <- _. exact Hx.
Qed.

Lemma skip_separators_length r :
  (length (Path.skip_separators r) <= length r)%nat.
Proof.
  induction r as [|x r IH]; simpl; [lia|].
  destruct (Path.is_separator_element x); simpl; lia.
Qed.

Lemma visited_next e r :
  visited (e :: r) = e :: visited (Path.nextIter (e :: r)).
Proof.
  simpl. f_equal. rewrite <- skip_separators_filter.
  destruct (Path.skip_separators r) as [|x r'] eqn:Hs; simpl; [reflexivity|].
  rewrite (skip_separators_head _ _ _ Hs). reflexivity.
Qed.

Lemma visited_nil_iff (i : Path.iterator) : visited i = [] <-> i = [].
Proof. destruct i; simpl; split; congruence. Qed.

Section Walk.

Context {NodeDataT : Type}.

(** [findNode] goes down by the visited elements. *)
Lemma findNode_at_descend (h : store NodeDataT) fuel p e r :
  (length (e :: r) <= fuel)%nat ->
  DirectoryTree.findNode_at h fuel p (e :: r) = descend h p (visited (e :: r)).
Proof.
  revert p e r. induction fuel as [|fuel IH]; intros p e r Hlen.
  - simpl in Hlen. lia.
  - rewrite visited_next.
    cbn [DirectoryTree.findNode_at descend].
    destruct (Path.nextIter (e :: r)) as [|e' r'] eqn:Hn.
    + simpl. destruct (NodeMap.find _ _); reflexivity.
    + cbn [Path.at_end].
      destruct (NodeMap.find (c_str e) (nodes_of h p)) as [s|]; [|reflexivity].
      apply IH. simpl in Hn. pose proof (skip_separators_length r) as Hs.
      rewrite Hn in Hs. simpl in *. lia.
Qed.

Lemma findNode_descend (h : store NodeDataT) p path :
  path <> [] ->
  DirectoryTree.findNode h p path = descend h p (visited path).
Proof.
  destruct path as [|e r]; [congruence|]. intros _.
  apply findNode_at_descend. unfold Path.path_begin. lia.
Qed.

Lemma descend_app (h : store NodeDataT) p es es' :
  descend h p (es ++ es') =
  match descend h p es with
  | Some q => descend h q es'
  | None => None
  end.
Proof.
  revert p. induction es as [|e es IH]; intros p; simpl; [reflexivity|].
  destruct (NodeMap.find (c_str e) (nodes_of h p)); auto.
Qed.

End Walk.

End PathFacts.

(** ** Nodes in a segment *)

Module StoreFacts.

Import TreeContainer.

Section Store.

Context {NodeDataT : Type}.

#[local] Abbreviation store := (store NodeDataT).
#[local] Abbreviation SharedMemoryT := (@SharedMemoryT NodeDataT).

Lemma update_length p f (h : store) : length (update p f h) = length h.
Proof.
  unfold update. destruct (h !! p); [apply length_insert | reflexivity].
Qed.

Lemma update_lookup p f (h : store) q :
  update p f h !! q =
  if Nat.eqb q p then f <$> (h !! p) else h !! q.
Proof.
  unfold update. destruct (Nat.eqb_spec q p) as [->|Hne].
  - destruct (h !! p) as [n|] eqn:Hp; simpl.
    + apply list_lookup_insert_eq. eapply lookup_lt_Some; eauto.
    + exact Hp.
  - destruct (h !! p) as [n|]; [|reflexivity].
    apply list_lookup_insert_ne. congruence.
Qed.

(** Only writing [m_Nodes] changes what a node's children are. *)
Lemma nodes_of_update_keep p f (h : store) q :
  (forall n, m_Nodes (f n) = m_Nodes n) ->
  nodes_of (update p f h) q = nodes_of h q.
Proof.
  intros Hf. unfold nodes_of. rewrite update_lookup.
  destruct (Nat.eqb_spec q p) as [->|]; [|reflexivity].
  destruct (h !! p); simpl; auto.
Qed.

Lemma nodes_of_update_set p g (h : store) q b :
  h !! p = Some b ->
  nodes_of (update p (fun n => set_Nodes (g n) n) h) q =
  if Nat.eqb q p then g b else nodes_of h q.
Proof.
  intros Hp. unfold nodes_of. rewrite update_lookup.
  destruct (Nat.eqb_spec q p) as [->|]; [|reflexivity].
  rewrite Hp. reflexivity.
Qed.

Lemma nodes_of_app_leaf (h : store) n q :
  m_Nodes n = [] -> nodes_of (h ++ [n]) q = nodes_of h q.
Proof.
  intros Hn. unfold nodes_of.
  destruct (Nat.lt_ge_cases q (length h)) as [Hlt|Hge].
  - rewrite lookup_app_l by exact Hlt. reflexivity.
  - rewrite (lookup_ge_None_2 h q) by lia.
    destruct (Nat.eq_dec q (length h)) as [->|Hne].
    + rewrite list_lookup_middle by reflexivity. exact Hn.
    + rewrite lookup_ge_None_2; [reflexivity|].
      rewrite length_app. simpl. lia.
Qed.

Lemma valid_spec p (shm : SharedMemoryT) :
  valid p shm = true <-> exists n, segment shm !! p = Some n.
Proof.
  unfold valid. destruct (segment shm !! p); split; eauto; try discriminate.
  intros [? ?]. discriminate.
Qed.

Lemma valid_modify p f q (shm : SharedMemoryT) :
  valid q (modify p f shm) = valid q shm.
Proof.
  unfold valid, modify. simpl. rewrite update_lookup.
  destruct (Nat.eqb_spec q p) as [->|]; [|reflexivity].
  destruct (segment shm !! p); reflexivity.
Qed.

Lemma construct_inv n (shm : SharedMemoryT) p shm1 :
  construct n shm = Returns p shm1 ->
  p = length (segment shm)
  /\ shm1 = with_segment (segment shm ++ [n]) shm
  /\ (length (segment shm) < get_size shm)%nat.
Proof.
  unfold construct.
  destruct (Nat.ltb_spec (length (segment shm)) (get_size shm)) as [Hlt|Hge];
    [|discriminate].
  intros Heq. injection Heq as <- <-. auto.
Qed.

Lemma construct_throws n (shm : SharedMemoryT) x s :
  construct n shm = Throws x s ->
  x = bad_alloc /\ s = shm /\ (get_size shm <= length (segment shm))%nat.
Proof.
  unfold construct.
  destruct (Nat.ltb_spec (length (segment shm)) (get_size shm)) as [Hlt|Hge];
    [discriminate|].
  intros Heq. injection Heq as <- <-. auto.
Qed.

Lemma construct_total n (shm : SharedMemoryT) :
  (exists p shm1, construct n shm = Returns p shm1)
  \/ construct n shm = Throws bad_alloc shm.
Proof.
  unfold construct. destruct (_ <? _)%nat; eauto.
Qed.

Lemma valid_app (shm : SharedMemoryT) n q :
  valid q (with_segment (segment shm ++ [n]) shm) =
  valid q shm || Nat.eqb q (length (segment shm)).
Proof.
  unfold valid. simpl.
  destruct (Nat.lt_ge_cases q (length (segment shm))) as [Hlt|Hge].
  - rewrite lookup_app_l by exact Hlt.
    destruct (lookup_lt_is_Some_2 _ _ Hlt) as [x ->]. reflexivity.
  - rewrite (lookup_ge_None_2 (segment shm) q) by lia. simpl.
    destruct (Nat.eqb_spec q (length (segment shm))) as [->|Hne].
    + rewrite list_lookup_middle by reflexivity. reflexivity.
    + rewrite lookup_ge_None_2; [reflexivity|].
      rewrite length_app. simpl. lia.
Qed.

End Store.

End StoreFacts.

(** ** One level of [addNode] *)

Module AddNodeFacts.

Import TreeContainer CIOrder NodeMapFacts StoreFacts.

Section AddNode.

Context {NodeDataT : Type} (createDataEmpty : NodeDataT).

#[local] Abbreviation SharedMemoryT := (@SharedMemoryT NodeDataT).
#[local] Abbreviation kids shm q := (nodes_of (segment shm) q).
#[local] Abbreviation addNode := (addNode createDataEmpty).

Lemma extends_refl (shm : SharedMemoryT) : extends shm shm.
Proof. unfold extends. repeat split; auto. Qed.

Lemma extends_trans (a b c : SharedMemoryT) : extends a b -> extends b c -> extends a c.
Proof.
  unfold extends. intros (H1 & H2 & H3 & H4) (H5 & H6 & H7 & H8).
  repeat split; try congruence; [lia | auto].
Qed.

Lemma extends_modify p f (shm : SharedMemoryT) : extends shm (modify p f shm).
Proof.
  unfold extends. simpl. rewrite update_length.
  repeat split; auto. intros q. rewrite valid_modify. auto.
Qed.

Lemma extends_app n (shm : SharedMemoryT) : extends shm (with_segment (segment shm ++ [n]) shm).
Proof.
  unfold extends. simpl. rewrite length_app. simpl.
  repeat split; auto; [lia|]. intros q Hq. rewrite valid_app, Hq. reflexivity.
Qed.

Lemma kids_modify_keep p f (shm : SharedMemoryT) q :
  (forall n, m_Nodes (f n) = m_Nodes n) ->
  kids (modify p f shm) q = kids shm q.
Proof. intros Hf. simpl. apply nodes_of_update_keep. exact Hf. Qed.

Lemma kids_modify_set p m (shm : SharedMemoryT) q :
  valid p shm = true ->
  kids (modify p (set_Nodes m) shm) q = if Nat.eqb q p then m else kids shm q.
Proof.
  intros Hp. apply valid_spec in Hp as [b Hb]. simpl.
  unfold nodes_of. rewrite update_lookup.
  destruct (Nat.eqb_spec q p) as [->|]; [|reflexivity].
  rewrite Hb. reflexivity.
Qed.

Lemma kids_modify_assign p k v (shm : SharedMemoryT) q :
  valid p shm = true ->
  kids (modify p (fun b => set_Nodes (NodeMap.assign k v (m_Nodes b)) b) shm) q
  = if Nat.eqb q p then NodeMap.assign k v (kids shm p) else kids shm q.
Proof.
  intros Hp. apply valid_spec in Hp as [b Hb]. simpl.
  rewrite (nodes_of_update_set p (fun b => NodeMap.assign k v (m_Nodes b))
             _ q b Hb).
  unfold nodes_of at 2. rewrite Hb. reflexivity.
Qed.

Lemma modify_lookup p f (shm : SharedMemoryT) q :
  segment (modify p f shm) !! q =
  if Nat.eqb q p then f <$> (segment shm !! p) else segment shm !! q.
Proof. simpl. apply update_lookup. Qed.

Lemma createSubNode_inv name flags data (shm : SharedMemoryT) p shm1 :
  createSubNode name flags data shm = Returns p shm1 ->
  p = length (segment shm)
  /\ extends shm shm1
  /\ valid p shm1 = true
  /\ valid p shm = false
  /\ (forall q, kids shm1 q = kids shm q)
  /\ segment shm1 !! p
     = Some (mkNode (to_TreeFlags flags) None None (c_str name) data [])
  /\ (forall q, q <> p -> segment shm1 !! q = segment shm !! q).
Proof.
  unfold createSubNode. intros H. apply construct_inv in H as (-> & -> & Hlt).
  split; [reflexivity|]. split; [apply extends_app|].
  split; [rewrite valid_app, Nat.eqb_refl; apply orb_true_r|].
  split.
  { unfold valid. rewrite lookup_ge_None_2; [reflexivity | lia]. }
  split; [intros q; simpl; apply nodes_of_app_leaf; reflexivity|].
  split; [simpl; apply list_lookup_middle; reflexivity|].
  intros q Hq. simpl.
  destruct (Nat.lt_ge_cases q (length (segment shm))) as [Hl|Hl].
  - apply lookup_app_l. exact Hl.
  - rewrite (lookup_ge_None_2 (segment shm)) by lia.
    apply lookup_ge_None_2. rewrite length_app. simpl. lia.
Qed.

Lemma createSubNode_throws name flags data (shm : SharedMemoryT) x s :
  createSubNode name flags data shm = Throws x s ->
  x = bad_alloc /\ s = shm /\ (get_size shm <= length (segment shm))%nat.
Proof. apply construct_throws. Qed.

Lemma createSubNode_defined name flags data (shm : SharedMemoryT) :
  createSubNode name flags data shm <> Undefined
  /\ createSubNode name flags data shm <> OutOfFuel.
Proof.
  unfold createSubNode, construct. destruct (_ <? _)%nat; split; discriminate.
Qed.

(** The last component: the entry of the name in [base] holds the node
    afterwards, and no entry of another name has changed anywhere. *)
Lemma addNode_last fuel base e r data ov flags (shm : SharedMemoryT) res shm' :
  Path.nextIter (e :: r) = [] ->
  addNode (S fuel) base (e :: r) data ov flags shm = Returns res shm' ->
  extends shm shm'
  /\ valid base shm = true
  /\ valid (tree shm) shm = true
  /\ (exists n, NodeMap.find (c_str e) (kids shm' base) = Some n
                /\ (res = Some n /\ valid n shm' = true
                    \/ res = None /\ ov = false)
                /\ (NodeMap.find (c_str e) (kids shm (tree shm)) = None ->
                    ov = true ->
                    exists nd, segment shm' !! n = Some nd
                               /\ m_Data nd = data
                               /\ m_Flags nd = to_TreeFlags flags))
  /\ (forall q k2, ci_equiv (c_str e) k2 = false ->
        NodeMap.find k2 (kids shm' q) = NodeMap.find k2 (kids shm q)).
Proof.
  intros Hnext. cbn [TreeContainer.addNode]. rewrite Hnext. cbn [Path.at_end].
  destruct (valid (get shm) shm && valid base shm) eqn:Hv; [|discriminate].
  apply andb_prop in Hv as [Hroot Hbase]. cbn [negb].
  unfold DirectoryTree.node.
  set (created :=
         match NodeMap.find (c_str e) (nodes_of (segment shm) (get shm)) with
         | Some existing =>
             if valid existing shm then Returns existing shm else Undefined
         | None => createSubNode e flags data shm
         end).
  assert (Hc : forall n shm1, created = Returns n shm1 ->
             extends shm shm1 /\ valid n shm1 = true
             /\ (forall q, kids shm1 q = kids shm q)
             /\ (NodeMap.find (c_str e) (kids shm (tree shm)) = None ->
                 segment shm1 !! n
                 = Some (mkNode (to_TreeFlags flags) None None (c_str e)
                                data []))).
  { intros n shm1. unfold created, get.
    destruct (NodeMap.find (c_str e) (nodes_of (segment shm) (tree shm)))
      as [existing|] eqn:Hex.
    - destruct (valid existing shm) eqn:Hve; [|discriminate].
      intros H. injection H as <- <-.
      split; [apply extends_refl|]. split; [exact Hve|].
      split; [reflexivity | discriminate].
    - intros H. apply createSubNode_inv in H as (-> & He & Hv1 & _ & Hk & Hn & _).
      split; [exact He|]. split; [exact Hv1|]. split; [exact Hk|].
      intros _. exact Hn. }
  destruct created as [n shm1| | |] eqn:Hcr; try discriminate.
  destruct (Hc n shm1 eq_refl) as (Hext & Hn & Hkids & Hfresh).
  set (shm2 := modify n (set_Self (Some n)) shm1).
  set (shm3 := modify n (set_Parent (self_of (segment shm2) base)) shm2).
  assert (Hext3 : extends shm shm3).
  { eapply extends_trans; [exact Hext|].
    eapply extends_trans; apply extends_modify. }
  assert (Hk3 : forall q, kids shm3 q = kids shm q).
  { intros q. unfold shm3, shm2.
    rewrite !kids_modify_keep by reflexivity. apply Hkids. }
  assert (Hb3 : valid base shm3 = true) by (apply Hext3; exact Hbase).
  assert (Hn3 : valid n shm3 = true).
  { unfold shm3, shm2. rewrite !valid_modify. exact Hn. }
  assert (Hdata : NodeMap.find (c_str e) (kids shm (tree shm)) = None ->
                  exists nd, segment shm3 !! n = Some nd
                             /\ m_Data nd = data
                             /\ m_Flags nd = to_TreeFlags flags).
  { intros Hnone. specialize (Hfresh Hnone).
    unfold shm3, shm2. rewrite !modify_lookup, !Nat.eqb_refl.
    rewrite Hfresh. simpl. eexists. split; [reflexivity|]. split; reflexivity. }
  destruct ov.
  - intros H. injection H as <- <-.
    split; [eapply extends_trans; [exact Hext3 | apply extends_modify]|].
    split; [exact Hbase|]. split; [exact Hroot|].
    split.
    + exists n. rewrite kids_modify_assign by exact Hb3.
      rewrite Nat.eqb_refl, find_assign_same.
      split; [reflexivity|].
      split; [left; split; [reflexivity | rewrite valid_modify; exact Hn3]|].
      intros Hnone _. destruct (Hdata Hnone) as (nd & Hnd & Hd & Hf).
      rewrite modify_lookup.
      destruct (Nat.eqb_spec n base) as [->|Hne].
      * rewrite Hnd. simpl. eexists. split; [reflexivity|]. auto.
      * eauto.
    + intros q k2 Hne. rewrite kids_modify_assign by exact Hb3.
      destruct (Nat.eqb_spec q base) as [->|]; [|apply f_equal, Hk3].
      rewrite find_assign_other by exact Hne. rewrite Hk3. reflexivity.
  - rewrite insert_spec.
    destruct (NodeMap.find (c_str e) (nodes_of (segment shm3) base))
      as [w|] eqn:Hfind.
    + intros H. injection H as <- <-.
      split; [eapply extends_trans; [exact Hext3 | apply extends_modify]|].
      split; [exact Hbase|]. split; [exact Hroot|].
      assert (Hsame : forall q, kids (modify base
                  (set_Nodes (nodes_of (segment shm3) base)) shm3) q
                = kids shm3 q).
      { intros q. rewrite kids_modify_set by exact Hb3.
        destruct (Nat.eqb_spec q base) as [->|]; reflexivity. }
      split.
      * exists w. rewrite Hsame, Hfind.
        split; [reflexivity|]. split; [right; auto | discriminate].
      * intros q k2 Hne. rewrite Hsame, Hk3. reflexivity.
    + intros H. injection H as <- <-.
      split; [eapply extends_trans; [exact Hext3 | apply extends_modify]|].
      split; [exact Hbase|]. split; [exact Hroot|].
      split.
      * exists n. rewrite kids_modify_set by exact Hb3.
        rewrite Nat.eqb_refl, find_assign_same.
        split; [reflexivity|].
        split; [left; split; [reflexivity | rewrite valid_modify; exact Hn3]
               | discriminate].
      * intros q k2 Hne. rewrite kids_modify_set by exact Hb3.
        destruct (Nat.eqb_spec q base) as [->|]; [|apply f_equal, Hk3].
        rewrite find_assign_other by exact Hne. rewrite Hk3. reflexivity.
Qed.

(** A component before the last. *)
Lemma addNode_step fuel base e r e' r' data ov flags (shm : SharedMemoryT) :
  Path.nextIter (e :: r) = e' :: r' ->
  addNode (S fuel) base (e :: r) data ov flags shm =
  if negb (valid (tree shm) shm && valid base shm) then Undefined
  else match NodeMap.find (c_str e) (kids shm base) with
       | Some subNode => addNode fuel subNode (e' :: r') data ov flags shm
       | None =>
           match createSubNode e (Z.lor FLAG_DIRECTORY FLAG_DUMMY)
                               createDataEmpty shm with
           | Returns newNode shm1 =>
               addNode fuel (fst (attach_dummy base e newNode shm1))
                       (e' :: r') data ov flags
                       (snd (attach_dummy base e newNode shm1))
           | Throws x s => Throws x s
           | OutOfFuel => OutOfFuel
           | Undefined => Undefined
           end
       end.
Proof.
  intros Hnext. cbn [TreeContainer.addNode]. rewrite Hnext. cbn [Path.at_end].
  unfold get.
  destruct (negb (valid (tree shm) shm && valid base shm)); [reflexivity|].
  destruct (NodeMap.find (c_str e) (kids shm base)); [reflexivity|].
  destruct (createSubNode e (Z.lor FLAG_DIRECTORY FLAG_DUMMY) createDataEmpty
              shm) as [newNode shm1| | |]; try reflexivity.
  unfold attach_dummy.
  destruct (NodeMap.insert (c_str e) newNode (nodes_of (segment shm1) base))
    as [[m subNode] b].
  reflexivity.
Qed.

(** The new dummy directory is the child of that name, and every child
    that was found before is found as before. *)
Lemma attach_dummy_spec base e (shm shm1 : SharedMemoryT) p :
  valid base shm = true ->
  NodeMap.find (c_str e) (kids shm base) = None ->
  createSubNode e (Z.lor FLAG_DIRECTORY FLAG_DUMMY) createDataEmpty shm
    = Returns p shm1 ->
  let shm4 := snd (attach_dummy base e p shm1) in
  fst (attach_dummy base e p shm1) = p
  /\ p = length (segment shm)
  /\ extends shm shm4
  /\ valid p shm4 = true
  /\ NodeMap.find (c_str e) (kids shm4 base) = Some p
  /\ (forall q k2, ci_equiv (c_str e) k2 = false ->
        NodeMap.find k2 (kids shm4 q) = NodeMap.find k2 (kids shm q))
  /\ (forall q, kids shm4 q =
                if Nat.eqb q base
                then NodeMap.assign (c_str e) p (kids shm base)
                else kids shm q)
  /\ (exists nd, segment shm4 !! p = Some nd
                 /\ m_Flags nd = 3 /\ m_Data nd = createDataEmpty
                 /\ m_Name nd = c_str e /\ m_Self nd = Some p
                 /\ m_Parent nd = self_of (segment shm) base
                 /\ m_Nodes nd = [])
  /\ (forall q, q <> p -> q <> base ->
        segment shm4 !! q = segment shm !! q)
  /\ (forall b, segment shm !! base = Some b ->
        segment shm4 !! base
        = Some (set_Nodes (NodeMap.assign (c_str e) p (m_Nodes b)) b)).
Proof.
  intros Hbase Hnone Hcr.
  apply createSubNode_inv in Hcr as (Hp & Hext & Hv1 & Hv0 & Hk & Hn & Hold).
  assert (Hpb : p <> base) by (intros ->; congruence).
  unfold attach_dummy. rewrite insert_spec, Hk, Hnone. cbn [fst snd].
  set (shm2 := modify base _ shm1).
  set (shm3 := modify p (set_Self (Some p)) shm2).
  set (shm4 := modify p _ shm3).
  assert (Hb1 : valid base shm1 = true) by (apply Hext; exact Hbase).
  assert (Hk4 : forall q, kids shm4 q =
                if Nat.eqb q base
                then NodeMap.assign (c_str e) p (kids shm base)
                else kids shm q).
  { intros q. unfold shm4, shm3, shm2.
    rewrite !kids_modify_keep by reflexivity.
    rewrite kids_modify_set by exact Hb1.
    destruct (Nat.eqb q base); [reflexivity | apply Hk]. }
  split; [reflexivity|]. split; [exact Hp|].
  split.
  { eapply extends_trans; [exact Hext|]. unfold shm4, shm3, shm2.
    eapply extends_trans; [apply extends_modify|].
    eapply extends_trans; apply extends_modify. }
  split; [unfold shm4, shm3, shm2; rewrite !valid_modify; exact Hv1|].
  split; [rewrite Hk4, Nat.eqb_refl; apply find_assign_same|].
  split.
  { intros q k2 Hne. rewrite Hk4. destruct (Nat.eqb_spec q base) as [->|];
      [apply find_assign_other; exact Hne | reflexivity]. }
  split; [exact Hk4|].
  assert (Hself : self_of (segment shm3) base = self_of (segment shm) base).
  { unfold self_of, shm3, shm2. rewrite !modify_lookup.
    destruct (Nat.eqb_spec base p) as [Heq|_]; [congruence|].
    rewrite Nat.eqb_refl. apply valid_spec in Hbase as [b Hb].
    rewrite Hold by exact (not_eq_sym Hpb).
    rewrite Hb. reflexivity. }
  split.
  { unfold shm4. rewrite modify_lookup, Nat.eqb_refl, Hself.
    unfold shm3. rewrite modify_lookup, Nat.eqb_refl.
    unfold shm2. rewrite modify_lookup.
    destruct (Nat.eqb_spec p base) as [Heq|_]; [congruence|].
    rewrite Hn. simpl. eexists. split; [reflexivity|]. repeat split. }
  split.
  { intros q Hqp Hqb. unfold shm4, shm3, shm2. rewrite !modify_lookup.
    destruct (Nat.eqb_spec q p) as [|_]; [congruence|].
    destruct (Nat.eqb_spec q base) as [|_]; [congruence|].
    apply Hold. exact Hqp. }
  intros b Hb. unfold shm4, shm3, shm2. rewrite !modify_lookup.
  destruct (Nat.eqb_spec base p) as [Heq|_]; [congruence|].
  rewrite Nat.eqb_refl.
  rewrite Hold by exact (not_eq_sym Hpb).
  rewrite Hb. unfold nodes_of. rewrite Hb. reflexivity.
Qed.

Lemma attach_dummy_keeps base e (shm shm1 : SharedMemoryT) p :
  valid base shm = true ->
  NodeMap.find (c_str e) (kids shm base) = None ->
  createSubNode e (Z.lor FLAG_DIRECTORY FLAG_DUMMY) createDataEmpty shm
    = Returns p shm1 ->
  forall q k v,
    NodeMap.find k (kids shm q) = Some v ->
    NodeMap.find k (kids (snd (attach_dummy base e p shm1)) q) = Some v.
Proof.
  intros Hbase Hnone Hcr q k v Hfind.
  destruct (attach_dummy_spec _ _ _ _ _ Hbase Hnone Hcr)
    as (_ & _ & _ & _ & _ & _ & Hk4 & _).
  rewrite Hk4. destruct (Nat.eqb_spec q base) as [->|]; [|exact Hfind].
  rewrite find_assign. destruct (ci_equiv (c_str e) k) eqn:He; [|exact Hfind].
  rewrite (find_equiv _ _ _ He) in Hnone. congruence.
Qed.

Lemma visited_cons_inv e r (es : list string) el :
  visited (e :: r) = es ++ [el] ->
  (Path.nextIter (e :: r) = [] /\ es = [] /\ el = e)
  \/ (exists e' r' es', Path.nextIter (e :: r) = e' :: r'
                        /\ es = e :: es'
                        /\ visited (e' :: r') = es' ++ [el]).
Proof.
  rewrite PathFacts.visited_next.
  destruct (Path.nextIter (e :: r)) as [|e' r'] eqn:Hn.
  - simpl. destruct es as [|x es]; simpl.
    + intros H. injection H as <-. left. auto.
    + intros H. injection H as _ H. destruct es; discriminate.
  - intros H. right. destruct es as [|x es].
    + simpl in H. injection H as _ H. discriminate.
    + simpl in H. injection H as <- H. exists e', r', es. auto.
Qed.

(** An insertion that stops with an exception stopped at an allocation;
    it has added dummy directories and taken nothing away. *)
Lemma addNode_throws fuel base iter data ov flags (shm : SharedMemoryT) x shm' :
  addNode fuel base iter data ov flags shm = Throws x shm' ->
  x = bad_alloc
  /\ extends shm shm'
  /\ (get_size shm' <= length (segment shm'))%nat
  /\ forall q k v, NodeMap.find k (kids shm q) = Some v ->
                   NodeMap.find k (kids shm' q) = Some v.
Proof.
  revert base iter shm. induction fuel as [|fuel IH]; intros base iter shm.
  - simpl. discriminate.
  - destruct iter as [|e r]; [simpl; discriminate|].
    destruct (Path.nextIter (e :: r)) as [|e' r'] eqn:Hnext.
    + cbn [TreeContainer.addNode]. rewrite Hnext. cbn [Path.at_end].
      destruct (negb _); [discriminate|].
      unfold DirectoryTree.node.
      destruct (NodeMap.find (c_str e) (nodes_of (segment shm) (get shm)))
        as [existing|].
      * destruct (valid existing shm); [|discriminate].
        destruct ov; [discriminate|].
        destruct (NodeMap.insert _ _ _) as [[m w] b]. discriminate.
      * destruct (createSubNode e flags data shm) as [n shm1| y s| |] eqn:Hc;
          try discriminate.
        -- destruct ov; [discriminate|].
           destruct (NodeMap.insert _ _ _) as [[m w] b]. discriminate.
        -- intros H. injection H as <- <-.
           apply createSubNode_throws in Hc as (-> & -> & Hfull).
           split; [reflexivity|]. split; [apply extends_refl|].
           split; [exact Hfull | auto].
    + rewrite (addNode_step _ _ _ _ _ _ _ _ _ _ Hnext).
      destruct (valid (tree shm) shm && valid base shm) eqn:Hv;
        [|discriminate].
      apply andb_prop in Hv as [_ Hbase]. cbn [negb].
      destruct (NodeMap.find (c_str e) (kids shm base)) as [sub|] eqn:Hfind.
      * apply IH.
      * destruct (createSubNode e (Z.lor FLAG_DIRECTORY FLAG_DUMMY)
                    createDataEmpty shm) as [n shm1| y s| |] eqn:Hc;
          try discriminate.
        -- intros H. apply IH in H as (-> & Hext & Hfull & Hkeep).
           destruct (attach_dummy_spec _ _ _ _ _ Hbase Hfind Hc)
             as (_ & _ & Hext4 & _).
           split; [reflexivity|].
           split; [eapply extends_trans; eauto|].
           split; [exact Hfull|].
           intros q k v Hq. apply Hkeep.
           eapply attach_dummy_keeps; eauto.
        -- intros H. injection H as <- <-.
           apply createSubNode_throws in Hc as (-> & -> & Hfull).
           split; [reflexivity|]. split; [apply extends_refl|].
           split; [exact Hfull | auto].
Qed.

(** An insertion that returns has kept every child found before under a
    name other than the last of the path. *)
Lemma addNode_keeps fuel base iter data ov flags (shm : SharedMemoryT) res shm'
    es el :
  addNode fuel base iter data ov flags shm = Returns res shm' ->
  visited iter = es ++ [el] ->
  extends shm shm'
  /\ forall q k v, ci_equiv (c_str el) k = false ->
                   NodeMap.find k (kids shm q) = Some v ->
                   NodeMap.find k (kids shm' q) = Some v.
Proof.
  revert base iter shm es. induction fuel as [|fuel IH];
    intros base iter shm es Hadd Hvis.
  - simpl in Hadd. discriminate.
  - destruct iter as [|e r]; [simpl in Hadd; discriminate|].
    destruct (visited_cons_inv _ _ _ _ Hvis)
      as [(Hnext & -> & ->) | (e' & r' & es' & Hnext & -> & Hvis')].
    + destruct (addNode_last _ _ _ _ _ _ _ _ _ _ Hnext Hadd)
        as (Hext & _ & _ & _ & Hother).
      split; [exact Hext|]. intros q k v Hne Hq. rewrite Hother; auto.
    + rewrite (addNode_step _ _ _ _ _ _ _ _ _ _ Hnext) in Hadd.
      destruct (valid (tree shm) shm && valid base shm) eqn:Hv;
        [|discriminate].
      apply andb_prop in Hv as [_ Hbase]. cbn [negb] in Hadd.
      destruct (NodeMap.find (c_str e) (kids shm base)) as [sub|] eqn:Hfind.
      * eapply IH; eauto.
      * destruct (createSubNode e (Z.lor FLAG_DIRECTORY FLAG_DUMMY)
                    createDataEmpty shm) as [n shm1| y s| |] eqn:Hc;
          try discriminate.
        destruct (IH _ _ _ _ Hadd Hvis') as (Hext & Hkeep).
        destruct (attach_dummy_spec _ _ _ _ _ Hbase Hfind Hc)
          as (_ & _ & Hext4 & _).
        split; [eapply extends_trans; eauto|].
        intros q k v Hne Hq. apply Hkeep; [exact Hne|].
        eapply attach_dummy_keeps; eauto.
Qed.

(** After an insertion that returns, the path leads from [base] to a node:
    the one returned, unless [overwrite] was off and a node was there.  The
    last name is taken to differ from the names before it. *)
Lemma addNode_found fuel base iter data ov flags (shm : SharedMemoryT) res shm'
    es el :
  addNode fuel base iter data ov flags shm = Returns res shm' ->
  visited iter = es ++ [el] ->
  Forall (fun e => ci_equiv (c_str el) (c_str e) = false) es ->
  exists n,
    descend (segment shm') base (visited iter) = Some n
    /\ (res = Some n /\ valid n shm' = true \/ res = None /\ ov = false)
    /\ (NodeMap.find (c_str el) (kids shm (tree shm)) = None ->
        ov = true ->
        exists nd, segment shm' !! n = Some nd
                   /\ m_Data nd = data /\ m_Flags nd = to_TreeFlags flags).
Proof.
  revert base iter shm es. induction fuel as [|fuel IH];
    intros base iter shm es Hadd Hvis Hdiff.
  - simpl in Hadd. discriminate.
  - destruct iter as [|e r]; [simpl in Hadd; discriminate|].
    destruct (visited_cons_inv _ _ _ _ Hvis)
      as [(Hnext & -> & ->) | (e' & r' & es' & Hnext & -> & Hvis')].
    + destruct (addNode_last _ _ _ _ _ _ _ _ _ _ Hnext Hadd)
        as (_ & _ & _ & (n & Hfind & Hres & Hdata) & _).
      exists n. rewrite Hvis. simpl. rewrite Hfind. auto.
    + rewrite Hvis. apply Forall_cons in Hdiff as [Hde Hdiff].
      pose proof Hadd as Hadd0.
      rewrite (addNode_step _ _ _ _ _ _ _ _ _ _ Hnext) in Hadd.
      destruct (valid (tree shm) shm && valid base shm) eqn:Hv;
        [|discriminate].
      apply andb_prop in Hv as [_ Hbase]. cbn [negb] in Hadd.
      destruct (NodeMap.find (c_str e) (kids shm base)) as [sub|] eqn:Hfind.
      * destruct (IH _ _ _ _ Hadd Hvis' Hdiff) as (n & Hdesc & Hres & Hdata).
        destruct (addNode_keeps _ _ _ _ _ _ _ _ _ _ _ Hadd Hvis')
          as (_ & Hkeep).
        exists n. simpl. rewrite (Hkeep _ _ _ Hde Hfind).
        rewrite Hvis' in Hdesc. auto.
      * destruct (createSubNode e (Z.lor FLAG_DIRECTORY FLAG_DUMMY)
                    createDataEmpty shm) as [p shm1| y s| |] eqn:Hc;
          try discriminate.
        destruct (attach_dummy_spec _ _ _ _ _ Hbase Hfind Hc)
          as (Hfst & _ & Hext4 & _ & Hfp & Hother & _).
        rewrite Hfst in Hadd.
        destruct (IH _ _ _ _ Hadd Hvis' Hdiff) as (n & Hdesc & Hres & Hdata).
        destruct (addNode_keeps _ _ _ _ _ _ _ _ _ _ _ Hadd Hvis')
          as (_ & Hkeep).
        exists n. simpl. rewrite (Hkeep _ _ _ Hde Hfp).
        rewrite Hvis' in Hdesc. split; [exact Hdesc|]. split; [exact Hres|].
        intros Hnone Hov. apply Hdata; [|exact Hov].
        destruct Hext4 as (Htree & _). rewrite Htree.
        rewrite Hother; [exact Hnone|].
        rewrite ci_equiv_comm. exact Hde.
Qed.

End AddNode.

End AddNodeFacts.

(** ** Case-insensitive lookup *)

Module CaseFacts.

Import TreeContainer CIOrder NodeMapFacts PathFacts AddNodeFacts.

Lemma stricmp_bytes_less a b :
  nul_free a = true -> nul_free b = true ->
  (_stricmp a b <? 0) =
  bytes_less (map tolower (list_ascii_of_string a))
             (map tolower (list_ascii_of_string b)).
Proof.
  revert b. induction a as [|x a IH]; intros [|y b] Ha Hb; simpl.
  - reflexivity.
  - simpl in Hb. apply andb_prop in Hb as [Hy _].
    apply negb_true_iff in Hy. pose proof (code_lower_pos _ Hy).
    apply Z.ltb_lt. lia.
  - pose proof (code_nonneg (tolower x)). apply Z.ltb_ge. lia.
  - simpl in Ha, Hb. apply andb_prop in Ha as [_ Ha].
    apply andb_prop in Hb as [_ Hb].
    unfold code.
    destruct (Z.eqb_spec (Z.of_N (N_of_ascii (tolower x)))
                         (Z.of_N (N_of_ascii (tolower y)))) as [E|E].
    + apply N2Z.inj in E. rewrite E, N.ltb_irrefl, N.eqb_refl. simpl.
      apply IH; assumption.
    + assert (N_of_ascii (tolower x) <> N_of_ascii (tolower y)) as E'
        by congruence.
      apply N.eqb_neq in E'. rewrite E', andb_false_l, orb_false_r.
      destruct (N.ltb_spec (N_of_ascii (tolower x)) (N_of_ascii (tolower y)));
        [apply Z.ltb_lt | apply Z.ltb_ge]; lia.
Qed.

Lemma CILess_bytes_less a b : CILess a b = bytes_less (fold a) (fold b).
Proof.
  unfold CILess, fold. apply stricmp_bytes_less; apply c_str_nul_free.
Qed.

Lemma tolower_upper c :
  (65 <= N_of_ascii c <= 90)%N ->
  N_of_ascii (tolower c) = (N_of_ascii c + 32)%N.
Proof.
  intros [H1 H2]. unfold tolower.
  apply N.leb_le in H1 as H1'. apply N.leb_le in H2 as H2'.
  rewrite H1', H2'. simpl. apply N_ascii_embedding. lia.
Qed.

Lemma tolower_other c :
  (N_of_ascii c < 65 \/ 90 < N_of_ascii c)%N -> tolower c = c.
Proof.
  intros H. unfold tolower.
  destruct (N.leb_spec 65 (N_of_ascii c));
    destruct (N.leb_spec (N_of_ascii c) 90); simpl; try reflexivity.
  lia.
Qed.

Section Lookup.

Context {NodeDataT : Type}.

Lemma descend_equiv (h : store NodeDataT) p es1 es2 :
  Forall2 (fun a b => ci_equiv a b = true) es1 es2 ->
  descend h p es1 = descend h p es2.
Proof.
  intros H. revert p. induction H as [|a b es1 es2 Hab _ IH]; intros p; simpl.
  - reflexivity.
  - assert (He : ci_equiv (c_str a) (c_str b) = true).
    { unfold ci_equiv in *. rewrite !CILess_c_str_l, !CILess_c_str_r. exact Hab. }
    rewrite (find_equiv _ _ _ He).
    destruct (NodeMap.find (c_str b) (nodes_of h p)); auto.
Qed.

(** Paths whose visited names agree up to case find the same node. *)
Lemma findNode_equiv (h : store NodeDataT) p p1 p2 :
  Forall2 (fun a b => ci_equiv a b = true) (visited p1) (visited p2) ->
  DirectoryTree.findNode h p p1 = DirectoryTree.findNode h p p2.
Proof.
  intros H. destruct p1 as [|e1 r1]; destruct p2 as [|e2 r2].
  - reflexivity.
  - inversion H.
  - inversion H.
  - rewrite !findNode_descend by discriminate. apply descend_equiv. exact H.
Qed.

Variable createDataEmpty : NodeDataT.

(** A call of [addFile] that returns ends with a call of [addNode] that
    returns, on the container as it is after the migrations. *)
Lemma addFile_returns retries name data flags ov c res c' :
  addFile createDataEmpty retries name data flags ov c = Returns res c' ->
  exists c0,
    addNode createDataEmpty (length name) (tree (m_SHM c0))
            (Path.path_begin name) data ov (to_TreeFlags flags) (m_SHM c0)
      = Returns res (m_SHM c')
    /\ m_SHMName c' = m_SHMName c0.
Proof.
  revert c. induction retries as [|retries IH]; intros c; simpl.
  - destruct (addNode _ _ _ _ _ _ _ _) as [r shm|x shm| |] eqn:Hadd;
      try discriminate.
    + intros H. injection H as <- <-. exists c. auto.
    + destruct x; discriminate.
  - destruct (addNode _ _ _ _ _ _ _ _) as [r shm|x shm| |] eqn:Hadd;
      try discriminate.
    + intros H. injection H as <- <-. exists c. auto.
    + destruct x; try discriminate.
      destruct (reassign _ _) as [u c1|y c1| |]; try discriminate.
      apply IH.
Qed.

Lemma addDirectory_returns retries name data flags ov c res c' :
  addDirectory createDataEmpty retries name data flags ov c = Returns res c' ->
  exists c0,
    addNode createDataEmpty (length name) (tree (m_SHM c0))
            (Path.path_begin name) data ov
            (Z.lor (to_TreeFlags flags) FLAG_DIRECTORY) (m_SHM c0)
      = Returns res (m_SHM c')
    /\ m_SHMName c' = m_SHMName c0.
Proof.
  revert c. induction retries as [|retries IH]; intros c; simpl.
  - destruct (addNode _ _ _ _ _ _ _ _) as [r shm|x shm| |] eqn:Hadd;
      try discriminate.
    + intros H. injection H as <- <-. exists c. auto.
    + destruct x; discriminate.
  - destruct (addNode _ _ _ _ _ _ _ _) as [r shm|x shm| |] eqn:Hadd;
      try discriminate.
    + intros H. injection H as <- <-. exists c. auto.
    + destruct x; try discriminate.
      destruct (reassign _ _) as [u c1|y c1| |]; try discriminate.
      apply IH.
Qed.

End Lookup.

(** C8.  After [addFile("Foo/Bar", d)] has returned, [findByPath("FOO/bar")]
    and [findByPath("Foo/Bar")] give the same node, the one inserted; on
    every tree the two calls agree; and the keys of the child maps are
    ordered by their bytes after ['A'..'Z'] went to ['a'..'z'], every other
    byte standing for itself. *)
Theorem findByPath_ignores_case {NodeDataT : Type}
    (createDataEmpty d : NodeDataT) retries flags
    (c c' : @TreeContainer NodeDataT) res
    (Hadd : addFile createDataEmpty retries (Path.of_string "Foo/Bar") d flags
                    true c = Returns res c') :
  (exists n,
      res = Some n
      /\ DirectoryTree.findNode (segment (m_SHM c')) (tree (m_SHM c'))
           (Path.of_string "Foo/Bar") = Some n
      /\ DirectoryTree.findNode (segment (m_SHM c')) (tree (m_SHM c'))
           (Path.of_string "FOO/bar") = Some n)
  /\ (forall (h : store NodeDataT) p,
        DirectoryTree.findNode h p (Path.of_string "FOO/bar")
        = DirectoryTree.findNode h p (Path.of_string "Foo/Bar"))
  /\ (forall a b, CILess a b = bytes_less (fold a) (fold b))
  /\ (forall a b, ci_equiv a b = true <-> fold a = fold b)
  /\ (forall ch, (65 <= N_of_ascii ch <= 90)%N ->
                 N_of_ascii (tolower ch) = (N_of_ascii ch + 32)%N)
  /\ (forall ch, (N_of_ascii ch < 65 \/ 90 < N_of_ascii ch)%N ->
                 tolower ch = ch).
Proof.
  assert (Hsame : forall (h : store NodeDataT) p,
             DirectoryTree.findNode h p (Path.of_string "FOO/bar")
             = DirectoryTree.findNode h p (Path.of_string "Foo/Bar")).
  { intros h p. apply findNode_equiv.
    repeat constructor. }
  split; [|split; [exact Hsame|]].
  - apply addFile_returns in Hadd as (c0 & Hadd & _).
    destruct (addNode_found createDataEmpty _ _ _ _ _ _ _ _ _
                ["Foo"] "Bar" Hadd eq_refl) as (n & Hdesc & Hres & _).
    { repeat constructor. }
    assert (Hext : extends (m_SHM c0) (m_SHM c')).
    { eapply (addNode_keeps createDataEmpty _ _ _ _ _ _ _ _ _ ["Foo"] "Bar");
        [exact Hadd | reflexivity]. }
    destruct Hext as (Htree & _). rewrite Htree in *.
    destruct Hres as [[-> _]|[_ Hov]]; [|discriminate].
    exists n. split; [reflexivity|].
    rewrite Hsame. rewrite findNode_descend by discriminate.
    split; exact Hdesc.
  - split; [exact CILess_bytes_less|]. split; [exact ci_equiv_fold|].
    split; [exact tolower_upper | exact tolower_other].
Qed.

Lemma findByPath_ignores_case_witness :
  exists c n,
    state_of (and_then (Scenario.attached 16) (Scenario.add "Foo/Bar" "X"))
      = Some c
    /\ Scenario.findByPath c "Foo/Bar" = Some n
    /\ Scenario.findByPath c "FOO/bar" = Some n.
Proof.
  destruct (findByPath_ignores_case "" "X" 4 0
              {| m_SHMName := "svc_1";
                 m_SHM := mkSHM 16 [mkNode 1 None None "" "" []] 0 1 false |}
              _ _ eq_refl) as ((n & _ & H1 & H2) & _).
  eexists. exists n. split; [reflexivity|]. split; [exact H1 | exact H2].
Defined.

End CaseFacts.

(** ** An allocation that fails in the middle of an insertion *)

Module FailureFacts.

Import TreeContainer CIOrder NodeMapFacts StoreFacts AddNodeFacts.

Section Failure.

Context {NodeDataT : Type} (createDataEmpty : NodeDataT).

#[local] Abbreviation SharedMemoryT := (@SharedMemoryT NodeDataT).
#[local] Abbreviation grown := (only_dummies_added createDataEmpty).

Lemma grown_refl (shm : SharedMemoryT) : grown shm shm.
Proof.
  split; [apply extends_refl|]. split; [eauto|].
  split.
  { intros q nd' Hq Hnd. apply lookup_lt_Some in Hnd. lia. }
  split; auto.
Qed.

Lemma grown_trans (a b c : SharedMemoryT) :
  grown a b -> grown b c -> grown a c.
Proof.
  intros (He1 & Hold1 & Hnew1 & Hk1 & Ho1) (He2 & Hold2 & Hnew2 & Hk2 & Ho2).
  split; [eapply extends_trans; eauto|].
  split.
  { intros q nd Hq. destruct (Hold1 _ _ Hq) as (nd1 & Hq1 & F1 & N1 & D1).
    destruct (Hold2 _ _ Hq1) as (nd2 & Hq2 & F2 & N2 & D2).
    exists nd2. repeat split; congruence. }
  split.
  { intros q nd' Hq Hnd.
    destruct (Nat.lt_ge_cases q (length (segment b))) as [Hlt|Hge].
    - destruct (lookup_lt_is_Some_2 _ _ Hlt) as [nd1 Hq1].
      destruct (Hnew1 _ _ Hq Hq1) as (F1 & D1).
      destruct (Hold2 _ _ Hq1) as (nd2 & Hq2 & F2 & N2 & D2).
      assert (nd2 = nd') by congruence. subst nd2. split; congruence.
    - eapply Hnew2; eauto. }
  split; [auto|].
  intros q k v Hf. destruct (Ho2 _ _ _ Hf) as [H|H].
  - apply Ho1. exact H.
  - right. destruct He1 as (_ & _ & Hlen & _). lia.
Qed.

Lemma attach_dummy_grown base e (shm shm1 : SharedMemoryT) p :
  valid base shm = true ->
  NodeMap.find (c_str e) (nodes_of (segment shm) base) = None ->
  createSubNode e (Z.lor FLAG_DIRECTORY FLAG_DUMMY) createDataEmpty shm
    = Returns p shm1 ->
  grown shm (snd (attach_dummy base e p shm1)).
Proof.
  intros Hbase Hnone Hcr.
  pose proof (attach_dummy_keeps createDataEmpty _ _ _ _ _ Hbase Hnone Hcr)
    as Hkeep.
  destruct (attach_dummy_spec createDataEmpty _ _ _ _ _ Hbase Hnone Hcr)
    as (_ & Hp & Hext & Hvp & _ & _ & Hk4 & (ndp & Hndp & Fp & Dp & _)
        & Hrest & Hb).
  set (shm4 := snd (attach_dummy base e p shm1)) in *.
  split; [exact Hext|].
  split.
  { intros q nd Hq. destruct (Nat.eq_dec q base) as [->|Hqb].
    - rewrite (Hb _ Hq). eexists. split; [reflexivity|]. repeat split.
    - assert (q <> p).
      { apply lookup_lt_Some in Hq. lia. }
      rewrite Hrest by assumption. eauto. }
  split.
  { intros q nd' Hq Hnd. destruct (Nat.eq_dec q p) as [->|Hqp].
    - assert (nd' = ndp) by congruence. subst nd'. auto.
    - exfalso. assert (Hqb : q <> base).
      { apply valid_spec in Hbase as [b Hb0]. apply lookup_lt_Some in Hb0. lia. }
      rewrite Hrest in Hnd by assumption.
      apply lookup_lt_Some in Hnd. lia. }
  split; [exact Hkeep|].
  intros q k v Hf. rewrite Hk4 in Hf.
  destruct (Nat.eqb_spec q base) as [->|]; [|left; exact Hf].
  rewrite find_assign in Hf. destruct (ci_equiv (c_str e) k).
  - injection Hf as <-. right. lia.
  - left. exact Hf.
Qed.

(** An insertion that throws has run out of room, and has only added dummy
    directories on its way. *)
Lemma addNode_throws_grown fuel base iter data ov flags (shm : SharedMemoryT)
    x shm' :
  addNode createDataEmpty fuel base iter data ov flags shm = Throws x shm' ->
  x = bad_alloc
  /\ (get_size shm' <= length (segment shm'))%nat
  /\ grown shm shm'.
Proof.
  revert base iter shm. induction fuel as [|fuel IH]; intros base iter shm.
  - simpl. discriminate.
  - destruct iter as [|e r]; [simpl; discriminate|].
    destruct (Path.nextIter (e :: r)) as [|e' r'] eqn:Hnext.
    + cbn [TreeContainer.addNode]. rewrite Hnext. cbn [Path.at_end].
      destruct (negb _); [discriminate|].
      unfold DirectoryTree.node.
      destruct (NodeMap.find (c_str e) (nodes_of (segment shm) (get shm)))
        as [existing|].
      * destruct (valid existing shm); [|discriminate].
        destruct ov; [discriminate|].
        destruct (NodeMap.insert _ _ _) as [[m w] b]. discriminate.
      * destruct (createSubNode e flags data shm) as [n shm1| y s| |] eqn:Hc;
          try discriminate.
        -- destruct ov; [discriminate|].
           destruct (NodeMap.insert _ _ _) as [[m w] b]. discriminate.
        -- intros H. injection H as <- <-.
           apply createSubNode_throws in Hc as (-> & -> & Hfull).
           split; [reflexivity|]. split; [exact Hfull | apply grown_refl].
    + rewrite (addNode_step _ _ _ _ _ _ _ _ _ _ _ Hnext).
      destruct (valid (tree shm) shm && valid base shm) eqn:Hv;
        [|discriminate].
      apply andb_prop in Hv as [_ Hbase]. cbn [negb].
      destruct (NodeMap.find (c_str e) (nodes_of (segment shm) base))
        as [sub|] eqn:Hfind.
      * apply IH.
      * destruct (createSubNode e (Z.lor FLAG_DIRECTORY FLAG_DUMMY)
                    createDataEmpty shm) as [n shm1| y s| |] eqn:Hc;
          try discriminate.
        -- intros H. apply IH in H as (-> & Hfull & Hg).
           split; [reflexivity|]. split; [exact Hfull|].
           eapply grown_trans; [|exact Hg].
           eapply attach_dummy_grown; eauto.
        -- intros H. injection H as <- <-.
           apply createSubNode_throws in Hc as (-> & -> & Hfull).
           split; [reflexivity|]. split; [exact Hfull | apply grown_refl].
Qed.

Lemma attach_dummy_length base e p (shm1 : SharedMemoryT) :
  length (segment (snd (attach_dummy base e p shm1))) = length (segment shm1).
Proof.
  unfold attach_dummy.
  destruct (NodeMap.insert _ _ _) as [[m sub] b]. cbn [snd].
  unfold modify. cbn [segment with_segment].
  rewrite !update_length. reflexivity.
Qed.

Lemma trail_leaf (h : store NodeDataT) p es :
  nodes_of h p = [] -> trail h p es = [].
Proof.
  intros H. destruct es as [|e es]; [reflexivity|].
  cbn [trail]. rewrite H. reflexivity.
Qed.

(** Where an insertion that throws has stopped: the names before the
    component whose node could not be made all lead somewhere at the
    throw, and the segment has one node more for each of them that led
    nowhere before. *)
Lemma addNode_throws_prefix fuel base iter data ov flags (shm : SharedMemoryT)
    x shm' :
  addNode createDataEmpty fuel base iter data ov flags shm = Throws x shm' ->
  exists es1 e es2 m,
    visited iter = es1 ++ e :: es2
    /\ descend (segment shm') base es1 = Some m
    /\ (es2 <> [] ->
        NodeMap.find (c_str e) (nodes_of (segment shm') m) = None)
    /\ (es2 = [] ->
        DirectoryTree.node (segment shm') (tree shm') e = None)
    /\ (length (segment shm') + length (trail (segment shm) base es1)
        = length (segment shm) + length es1)%nat.
Proof.
  revert base iter shm. induction fuel as [|fuel IH]; intros base iter shm.
  - simpl. discriminate.
  - destruct iter as [|e r]; [simpl; discriminate|].
    destruct (Path.nextIter (e :: r)) as [|e' r'] eqn:Hnext.
    + cbn [TreeContainer.addNode]. rewrite Hnext. cbn [Path.at_end].
      destruct (negb _); [discriminate|].
      unfold DirectoryTree.node.
      destruct (NodeMap.find (c_str e) (nodes_of (segment shm) (get shm)))
        as [existing|] eqn:Hroot.
      * destruct (valid existing shm); [|discriminate].
        destruct ov; [discriminate|].
        destruct (NodeMap.insert _ _ _) as [[m w] b]. discriminate.
      * destruct (createSubNode e flags data shm) as [n shm1| y s| |] eqn:Hc;
          try discriminate.
        -- destruct ov; [discriminate|].
           destruct (NodeMap.insert _ _ _) as [[m w] b]. discriminate.
        -- intros H. injection H as <- <-.
           apply createSubNode_throws in Hc as (-> & -> & Hfull).
           exists [], e, [], base.
           split; [rewrite PathFacts.visited_next, Hnext; reflexivity|].
           split; [reflexivity|].
           split; [intros Hne; contradiction|].
           split; [intros _; exact Hroot|].
           cbn [trail length]. reflexivity.
    + rewrite (addNode_step _ _ _ _ _ _ _ _ _ _ _ Hnext).
      destruct (valid (tree shm) shm && valid base shm) eqn:Hv;
        [|discriminate].
      apply andb_prop in Hv as [_ Hbase]. cbn [negb].
      destruct (NodeMap.find (c_str e) (nodes_of (segment shm) base))
        as [sub|] eqn:Hfind.
      * intros H.
        destruct (addNode_throws _ _ _ _ _ _ _ _ _ _ H)
          as (_ & _ & _ & Hkeep).
        apply IH in H as (es1 & e0 & es2 & m & Hvis & Hdesc & Hnone & Hlast
                          & Hlen).
        exists (e :: es1), e0, es2, m.
        split; [rewrite PathFacts.visited_next, Hnext, Hvis; reflexivity|].
        split; [cbn [descend]; rewrite (Hkeep _ _ _ Hfind); exact Hdesc|].
        split; [exact Hnone|]. split; [exact Hlast|].
        cbn [trail]. rewrite Hfind. cbn [length]. lia.
      * destruct (createSubNode e (Z.lor FLAG_DIRECTORY FLAG_DUMMY)
                    createDataEmpty shm) as [n shm1| y s| |] eqn:Hc;
          try discriminate.
        -- intros H.
           destruct (attach_dummy_spec createDataEmpty _ _ _ _ _ Hbase Hfind
                       Hc)
             as (Hfst & Hn & _ & _ & Hnew & _ & _
                 & (ndn & Hndn & _ & _ & _ & _ & _ & Hleaf) & _).
           destruct (addNode_throws _ _ _ _ _ _ _ _ _ _ H)
             as (_ & _ & _ & Hkeep).
           apply IH in H as (es1 & e0 & es2 & m & Hvis & Hdesc & Hnone & Hlast
                             & Hlen).
           rewrite Hfst in Hdesc, Hlen.
           rewrite trail_leaf in Hlen
             by (unfold nodes_of; rewrite Hndn; exact Hleaf).
           rewrite attach_dummy_length in Hlen.
           assert (Hl1 : length (segment shm1) = S (length (segment shm))).
           { unfold createSubNode in Hc.
             apply construct_inv in Hc as (_ & -> & _).
             cbn [segment with_segment]. rewrite length_app.
             cbn [length]. lia. }
           exists (e :: es1), e0, es2, m.
           split; [rewrite PathFacts.visited_next, Hnext, Hvis; reflexivity|].
           split; [cbn [descend]; rewrite (Hkeep _ _ _ Hnew); exact Hdesc|].
           split; [exact Hnone|]. split; [exact Hlast|].
           cbn [trail]. rewrite Hfind. cbn [length] in *. lia.
        -- intros H. injection H as <- <-.
           apply createSubNode_throws in Hc as (-> & -> & Hfull).
           exists [], e, (visited (e' :: r')), base.
           split; [rewrite PathFacts.visited_next, Hnext; reflexivity|].
           split; [reflexivity|].
           split; [intros _; exact Hfind|].
           split; [intros Hnil; discriminate Hnil|].
           cbn [trail length]. reflexivity.
Qed.

End Failure.




End FailureFacts.

(** ** Flags *)

Module FlagFacts.

Import TreeContainer StoreFacts AddNodeFacts.

Section Flags.

Context {NodeDataT : Type} (createDataEmpty : NodeDataT).

#[local] Abbreviation SharedMemoryT := (@SharedMemoryT NodeDataT).

Variable P : Z -> Prop.

Lemma all_flags_update p f (h : store NodeDataT) :
  (forall n, m_Flags (f n) = m_Flags n) ->
  all_flags P h -> all_flags P (update p f h).
Proof.
  intros Hf Hall q nd. rewrite update_lookup.
  destruct (Nat.eqb q p); [|apply Hall].
  destruct (h !! p) as [n|] eqn:Hp; [|discriminate].
  simpl. intros H. injection H as <-. rewrite Hf. eapply Hall; eauto.
Qed.

Lemma all_flags_set p fl (h : store NodeDataT) :
  P fl -> all_flags P h -> all_flags P (update p (set_Flags fl) h).
Proof.
  intros Hfl Hall q nd. rewrite update_lookup.
  destruct (Nat.eqb q p); [|apply Hall].
  destruct (h !! p) as [n|] eqn:Hp; [|discriminate].
  simpl. intros H. injection H as <-. exact Hfl.
Qed.

Lemma all_flags_modify p f (shm : SharedMemoryT) :
  (forall n, m_Flags (f n) = m_Flags n) ->
  all_flags P (segment shm) -> all_flags P (segment (modify p f shm)).
Proof. intros. simpl. apply all_flags_update; assumption. Qed.

Lemma all_flags_createSubNode name flags data (shm shm1 : SharedMemoryT) p :
  P (to_TreeFlags flags) ->
  all_flags P (segment shm) ->
  createSubNode name flags data shm = Returns p shm1 ->
  all_flags P (segment shm1).
Proof.
  intros Hfl Hall Hc.
  apply createSubNode_inv in Hc as (_ & _ & _ & _ & _ & Hn & Hold).
  intros q nd Hq. destruct (Nat.eq_dec q p) as [->|Hne].
  - rewrite Hn in Hq. injection Hq as <-. exact Hfl.
  - rewrite Hold in Hq by exact Hne. eapply Hall; eauto.
Qed.

(** [addNode] gives a new node the flags it was called with or those of a
    dummy directory, and leaves the flags of the other nodes alone. *)
Lemma addNode_flags fuel base iter data ov flags (shm : SharedMemoryT) out shm' :
  P (to_TreeFlags flags) ->
  P (to_TreeFlags (Z.lor FLAG_DIRECTORY FLAG_DUMMY)) ->
  all_flags P (segment shm) ->
  addNode createDataEmpty fuel base iter data ov flags shm = out ->
  state_of out = Some shm' ->
  all_flags P (segment shm').
Proof.
  intros Hfl Hdummy. revert base iter shm out.
  induction fuel as [|fuel IH]; intros base iter shm out Hall Hadd Hout.
  - simpl in Hadd. subst out. discriminate.
  - destruct iter as [|e r]; [simpl in Hadd; subst out; discriminate|].
    destruct (Path.nextIter (e :: r)) as [|e' r'] eqn:Hnext.
    + cbn [TreeContainer.addNode] in Hadd. rewrite Hnext in Hadd.
      cbn [Path.at_end] in Hadd.
      destruct (negb _); [subst out; discriminate|].
      unfold DirectoryTree.node in Hadd.
      set (created :=
             match NodeMap.find (c_str e) (nodes_of (segment shm) (get shm)) with
             | Some existing =>
                 if valid existing shm then Returns existing shm else Undefined
             | None => createSubNode e flags data shm
             end) in Hadd.
      assert (Hc : forall s, state_of created = Some s ->
                             all_flags P (segment s)).
      { intros s. unfold created.
        destruct (NodeMap.find _ _) as [existing|].
        - destruct (valid existing shm); [|discriminate].
          simpl. intros H. injection H as <-. exact Hall.
        - destruct (createSubNode e flags data shm) as [n s1|x s1| |] eqn:Hcr;
            simpl; try discriminate; intros H; injection H as <-.
          + eapply all_flags_createSubNode; [exact Hfl|exact Hall|exact Hcr].
          + apply createSubNode_throws in Hcr as (_ & -> & _). exact Hall. }
      destruct created as [n shm1|x s1| |]; subst out; simpl in Hout;
        try discriminate.
      * specialize (Hc shm1 eq_refl).
        destruct ov.
        -- simpl in Hout. injection Hout as <-.
           repeat apply all_flags_modify; auto.
        -- destruct (NodeMap.insert _ _ _) as [[m w] b].
           simpl in Hout. injection Hout as <-.
           repeat apply all_flags_modify; auto.
      * injection Hout as <-. apply Hc. reflexivity.
    + rewrite (addNode_step _ _ _ _ _ _ _ _ _ _ _ Hnext) in Hadd.
      destruct (negb _); [subst out; discriminate|].
      destruct (NodeMap.find (c_str e) (nodes_of (segment shm) base))
        as [sub|].
      * eapply IH; eauto.
      * destruct (createSubNode e (Z.lor FLAG_DIRECTORY FLAG_DUMMY)
                    createDataEmpty shm) as [n shm1|x s1| |] eqn:Hcr.
        -- eapply IH; [|exact Hadd|exact Hout].
           unfold attach_dummy.
           destruct (NodeMap.insert _ _ _) as [[m w] b]. cbn [snd].
           repeat apply all_flags_modify; auto.
           eapply all_flags_createSubNode; [exact Hdummy|exact Hall|exact Hcr].
        -- subst out. simpl in Hout. injection Hout as <-.
           apply createSubNode_throws in Hcr as (_ & -> & _). exact Hall.
        -- subst out. discriminate.
        -- subst out. discriminate.
Qed.

(** The copy has the flags of the nodes copied, on nodes made as
    directories. *)
Lemma copyChildren_flags copy destination kvs :
  P (to_TreeFlags 1) ->
  (forall d s (shm : SharedMemoryT) shm',
      all_flags P (segment shm) ->
      state_of (copy d s shm) = Some shm' -> all_flags P (segment shm')) ->
  forall (shm : SharedMemoryT) shm',
    all_flags P (segment shm) ->
    state_of (copyChildren createDataEmpty copy destination kvs shm) = Some shm' ->
    all_flags P (segment shm').
Proof.
  intros H1 Hcopy. induction kvs as [|kv kvs IH]; intros shm shm' Hall; simpl.
  - intros H. injection H as <-. exact Hall.
  - destruct (createSubNode "" 1 createDataEmpty shm) as [n shm1|x s1| |] eqn:Hcr;
      simpl; try discriminate.
    + destruct (copy n (snd kv) (modify n (set_Self (Some n)) shm1))
        as [u shm3|x s3| |] eqn:Hcp; simpl; try discriminate.
      * intros H. eapply IH; [|exact H].
        repeat apply all_flags_modify; auto.
        eapply Hcopy; [|rewrite Hcp; reflexivity].
        apply all_flags_modify; auto.
        eapply all_flags_createSubNode; [exact H1|exact Hall|exact Hcr].
      * intros H. injection H as <-.
        eapply Hcopy; [|rewrite Hcp; reflexivity].
        apply all_flags_modify; auto.
        eapply all_flags_createSubNode; [exact H1|exact Hall|exact Hcr].
    + intros H. injection H as <-.
      apply createSubNode_throws in Hcr as (_ & -> & _). exact Hall.
Qed.

Lemma copyTree_flags fuel (old : store NodeDataT) :
  P (to_TreeFlags 1) ->
  all_flags P old ->
  forall destination reference (shm : SharedMemoryT) shm',
    all_flags P (segment shm) ->
    state_of (copyTree createDataEmpty fuel old destination reference shm)
      = Some shm' ->
    all_flags P (segment shm').
Proof.
  intros H1 Hold. induction fuel as [|fuel IH];
    intros destination reference shm shm' Hall; simpl; [discriminate|].
  destruct (old !! reference) as [r|] eqn:Hr; [|discriminate].
  apply copyChildren_flags; [exact H1 | exact IH |].
  apply all_flags_modify; [reflexivity|].
  apply all_flags_modify; [reflexivity|].
  simpl. apply all_flags_set; [eapply Hold; eauto | exact Hall].
Qed.

Lemma activateSHM_flags fuel old SHMName size c :
  P (to_TreeFlags 1) ->
  match old with
  | Some o => all_flags P (segment o)
  | None => True
  end ->
  state_of (activateSHM createDataEmpty fuel old SHMName size) = Some c ->
  all_flags P (segment (m_SHM c)).
Proof.
  intros H1 Hold. unfold activateSHM.
  destruct (construct _ _) as [root shm0|x s0| |] eqn:Hc; simpl;
    try discriminate.
  - assert (H0 : all_flags P (segment shm0)).
    { apply construct_inv in Hc as (_ & -> & _). simpl.
      intros q nd. destruct q as [|q]; simpl; [|discriminate].
      intros H. injection H as <-. exact H1. }
    destruct old as [o|].
    + assert (Hcopy : forall s,
                 state_of (copyTree createDataEmpty fuel (segment o) root
                             (tree o) (mkSHM size (segment shm0) root 0 false))
                   = Some s -> all_flags P (segment s)).
      { intros s. apply copyTree_flags; [exact H1 | exact Hold | exact H0]. }
      destruct (copyTree _ _ _ _ _ _) as [u shm2|x s2| |]; simpl;
        try discriminate; intros H; injection H as <-; simpl;
        apply Hcopy; reflexivity.
    + simpl. intros H. injection H as <-. exact H0.
  - intros H. injection H as <-. simpl.
    apply construct_throws in Hc as (_ & -> & _). simpl.
    intros q nd. rewrite lookup_nil. discriminate.
Qed.

Lemma reassign_flags c c' :
  P (to_TreeFlags 1) ->
  all_flags P (segment (m_SHM c)) ->
  state_of (reassign createDataEmpty c) = Some c' ->
  all_flags P (segment (m_SHM c')).
Proof.
  intros H1 Hall. unfold reassign.
  destruct (Name.followupName (m_SHMName c)) as [x|nextName].
  - simpl. intros H. injection H as <-. exact Hall.
  - destruct (activateSHM _ _ _ _ _) as [u c1|x c1| |] eqn:Ha;
      simpl; try discriminate; intros H; injection H as <-.
    + eapply activateSHM_flags; [exact H1 | | rewrite Ha; reflexivity].
      exact Hall.
    + exact Hall.
Qed.

Lemma addFile_flags retries name data flags ov c c' :
  P (to_TreeFlags 1) ->
  P (to_TreeFlags flags) ->
  P (to_TreeFlags (Z.lor FLAG_DIRECTORY FLAG_DUMMY)) ->
  all_flags P (segment (m_SHM c)) ->
  state_of (addFile createDataEmpty retries name data flags ov c) = Some c' ->
  all_flags P (segment (m_SHM c')).
Proof.
  intros H1 Hfl Hd. revert c.
  assert (Hfl' : P (to_TreeFlags (to_TreeFlags flags))).
  { unfold to_TreeFlags in *. rewrite Z.mod_mod by lia. exact Hfl. }
  induction retries as [|retries IH]; intros c Hall; simpl.
  - destruct (addNode _ _ _ _ _ _ _ _) as [r shm|x shm| |] eqn:Hadd;
      simpl; try discriminate.
    + intros H. injection H as <-. simpl.
      eapply addNode_flags; [exact Hfl'|exact Hd|exact Hall|exact Hadd|reflexivity].
    + destruct x; simpl; try discriminate; intros H; injection H as <-; simpl;
        (eapply addNode_flags;
         [exact Hfl'|exact Hd|exact Hall|exact Hadd|reflexivity]).
  - destruct (addNode _ _ _ _ _ _ _ _) as [r shm|x shm| |] eqn:Hadd;
      simpl; try discriminate.
    + intros H. injection H as <-. simpl.
      eapply addNode_flags; [exact Hfl'|exact Hd|exact Hall|exact Hadd|reflexivity].
    + assert (Hs : all_flags P (segment shm)).
      { eapply addNode_flags;
          [exact Hfl'|exact Hd|exact Hall|exact Hadd|reflexivity]. }
      destruct x; simpl; try (intros H; injection H as <-; exact Hs).
      destruct (reassign _ _) as [u c1|y c1| |] eqn:Hre; simpl;
        try discriminate.
      * apply IH. eapply reassign_flags; [exact H1| |rewrite Hre; reflexivity].
        exact Hs.
      * intros H. injection H as <-.
        eapply reassign_flags; [exact H1| |rewrite Hre; reflexivity].
        exact Hs.
Qed.

Lemma addDirectory_flags retries name data flags ov c c' :
  P (to_TreeFlags 1) ->
  P (to_TreeFlags (Z.lor (to_TreeFlags flags) FLAG_DIRECTORY)) ->
  P (to_TreeFlags (Z.lor FLAG_DIRECTORY FLAG_DUMMY)) ->
  all_flags P (segment (m_SHM c)) ->
  state_of (addDirectory createDataEmpty retries name data flags ov c) = Some c' ->
  all_flags P (segment (m_SHM c')).
Proof.
  intros H1 Hfl' Hd. revert c.
  induction retries as [|retries IH]; intros c Hall; simpl.
  - destruct (addNode _ _ _ _ _ _ _ _) as [r shm|x shm| |] eqn:Hadd;
      simpl; try discriminate.
    + intros H. injection H as <-. simpl.
      eapply addNode_flags; [exact Hfl'|exact Hd|exact Hall|exact Hadd|reflexivity].
    + destruct x; simpl; try discriminate; intros H; injection H as <-; simpl;
        (eapply addNode_flags;
         [exact Hfl'|exact Hd|exact Hall|exact Hadd|reflexivity]).
  - destruct (addNode _ _ _ _ _ _ _ _) as [r shm|x shm| |] eqn:Hadd;
      simpl; try discriminate.
    + intros H. injection H as <-. simpl.
      eapply addNode_flags; [exact Hfl'|exact Hd|exact Hall|exact Hadd|reflexivity].
    + assert (Hs : all_flags P (segment shm)).
      { eapply addNode_flags;
          [exact Hfl'|exact Hd|exact Hall|exact Hadd|reflexivity]. }
      destruct x; simpl; try (intros H; injection H as <-; exact Hs).
      destruct (reassign _ _) as [u c1|y c1| |] eqn:Hre; simpl;
        try discriminate.
      * apply IH. eapply reassign_flags; [exact H1| |rewrite Hre; reflexivity].
        exact Hs.
      * intros H. injection H as <-.
        eapply reassign_flags; [exact H1| |rewrite Hre; reflexivity].
        exact Hs.
Qed.

End Flags.

Lemma state_of_forget {St A} (o : outcome St A) :
  state_of (match o with
            | Returns _ s => Returns tt s
            | Throws x s => Throws x s
            | OutOfFuel => OutOfFuel
            | Undefined => Undefined
            end) = state_of o.
Proof. destruct o; reflexivity. Qed.

Lemma dummy_is_directory_lor f :
  dummy_is_directory (to_TreeFlags (Z.lor (to_TreeFlags f) FLAG_DIRECTORY)).
Proof.
  unfold dummy_is_directory, to_TreeFlags, FLAG_DIRECTORY. intros _.
  change 256 with (2 ^ 8). rewrite <- !Z.land_ones by lia.
  rewrite <- Z.land_assoc. change (Z.land (Z.ones 8) 1) with 1.
  rewrite Z.land_lor_distr_l. change (Z.land 1 1) with 1.
  intros H. apply Z.lor_eq_0_iff in H as [_ H]. discriminate.
Qed.

(** C6, as the code has it.  After any sequence of [addFile],
    [addDirectory], [clear] and [erase] in which no [addFile] was handed
    the DUMMY flag without the DIRECTORY flag, every node that has DUMMY
    has DIRECTORY. *)
Theorem dummy_implies_directory {NodeDataT : Type}
    (createDataEmpty : NodeDataT) (c : @TreeContainer NodeDataT)
    (Hbuilt : Ops.built createDataEmpty Ops.plain_flags c) :
  forall q nd,
    segment (m_SHM c) !! q = Some nd ->
    DirectoryTree.hasFlag FLAG_DUMMY nd = true ->
    DirectoryTree.hasFlag FLAG_DIRECTORY nd = true.
Proof.
  assert (Hall : all_flags dummy_is_directory (segment (m_SHM c))).
  { induction Hbuilt as [SHMName size c Hat | op c c' Hb IH Hop Hst].
    - eapply (activateSHM_flags createDataEmpty dummy_is_directory 0%nat None);
        [| exact I | unfold attach in Hat; rewrite Hat; reflexivity].
      vm_compute. intros H. congruence.
    - destruct op as [retries name data flags ov | retries name data flags ov
                     | | node position]; simpl in Hst.
      + unfold Ops.forget in Hst. rewrite state_of_forget in Hst.
        eapply (addFile_flags createDataEmpty); [| | |exact IH|exact Hst].
        * vm_compute. intros H. congruence.
        * exact Hop.
        * vm_compute. intros H. congruence.
      + unfold Ops.forget in Hst. rewrite state_of_forget in Hst.
        eapply (addDirectory_flags createDataEmpty); [| | |exact IH|exact Hst].
        * vm_compute. intros H. congruence.
        * apply dummy_is_directory_lor.
        * vm_compute. intros H. congruence.
      + injection Hst as <-. simpl. unfold DirectoryTree.clear.
        apply all_flags_update; auto.
      + injection Hst as <-. simpl. unfold DirectoryTree.erase.
        apply all_flags_update; auto. }
  intros q nd Hq Hdummy. specialize (Hall q nd Hq).
  unfold DirectoryTree.hasFlag in *. unfold dummy_is_directory in Hall.
  apply negb_true_iff in Hdummy. apply Z.eqb_neq in Hdummy.
  apply negb_true_iff. apply Z.eqb_neq. auto.
Qed.

Lemma dummy_implies_directory_witness :
  exists c nd,
    state_of (Scenario.add "a/f" "X"
                (mkContainer "svc_1"
                   (mkSHM 16 [mkNode 1 None None "" "" []] 0 1 false)))
    = Some c
    /\ Scenario.findByPath c "a" = Some 1%nat
    /\ segment (m_SHM c) !! 1%nat = Some nd
    /\ m_Flags nd = Z.lor FLAG_DIRECTORY FLAG_DUMMY
    /\ DirectoryTree.hasFlag FLAG_DUMMY nd = true
    /\ DirectoryTree.hasFlag FLAG_DIRECTORY nd = true.
Proof.
  eexists. eexists. split; [vm_compute; reflexivity|].
  match goal with
  | |- Scenario.findByPath ?c _ = _ /\ _ => set (after := c)
  end.
  assert (Hbuilt : Ops.built "" Ops.plain_flags after).
  { apply (Ops.built_perform "" Ops.plain_flags
             (Ops.AddFile 4 (Path.of_string "a/f") "X" 0 true)
             (mkContainer "svc_1"
                (mkSHM 16 [mkNode 1 None None "" "" []] 0 1 false))).
    - apply (Ops.built_attach "" Ops.plain_flags "svc" 16%nat).
      vm_compute. reflexivity.
    - simpl. vm_compute. congruence.
    - vm_compute. reflexivity. }
  split; [vm_compute; reflexivity|].
  split; [vm_compute; reflexivity|].
  split; [reflexivity|]. split; [reflexivity|].
  apply (dummy_implies_directory "" after Hbuilt 1%nat);
    [vm_compute; reflexivity | reflexivity].
Defined.

(** A file inserted with the DUMMY flag is a node that has DUMMY and not
    DIRECTORY. *)
Lemma dummy_file_is_no_directory :
  exists c f nd,
    Flagged.dummy_file = Returns (Some f) c
    /\ segment (m_SHM c) !! f = Some nd
    /\ DirectoryTree.hasFlag FLAG_DUMMY nd = true
    /\ DirectoryTree.hasFlag FLAG_DIRECTORY nd = false.
Proof.
  eexists. eexists. eexists.
  split; [vm_compute; reflexivity|].
  split; [vm_compute; reflexivity|].
  split; reflexivity.
Qed.

End FlagFacts.

(** ** Arena names *)

Module NameFacts.

Import Name CIOrder.

Lemma list_of_append a b :
  list_ascii_of_string (a ++ b) = list_ascii_of_string a ++ list_ascii_of_string b.
Proof. induction a as [|c a IH]; simpl; [reflexivity | rewrite IH; reflexivity]. Qed.

Lemma string_of_app a b :
  string_of_list_ascii (a ++ b)
  = (string_of_list_ascii a ++ string_of_list_ascii b)%string.
Proof. induction a as [|c a IH]; simpl; [reflexivity | rewrite IH; reflexivity]. Qed.

Lemma span_digits_app ds c r :
  forallb is_digit ds = true -> is_digit c = false ->
  span_digits (ds ++ c :: r) = (ds, c :: r).
Proof.
  intros Hds Hc. induction ds as [|d ds IH]; simpl.
  - rewrite Hc. reflexivity.
  - simpl in Hds. apply andb_prop in Hds as [Hd Hds].
    rewrite Hd, IH by exact Hds. reflexivity.
Qed.

Lemma span_digits_inv l ds r :
  span_digits l = (ds, r) ->
  l = ds ++ r /\ forallb is_digit ds = true.
Proof.
  revert ds r. induction l as [|c l IH]; intros ds r; simpl.
  - intros H. injection H as <- <-. auto.
  - destruct (is_digit c) eqn:Hc.
    + destruct (span_digits l) as [ds' r'] eqn:Hs.
      intros H. injection H as <- <-.
      destruct (IH _ _ eq_refl) as [-> Hd]. simpl. rewrite Hc. auto.
    + intros H. injection H as <- <-. auto.
Qed.

Lemma forallb_rev {A} (f : A -> bool) l :
  forallb f (rev l) = forallb f l.
Proof.
  induction l as [|x l IH]; simpl; [reflexivity|].
  rewrite forallb_app, IH. simpl. rewrite andb_true_r. apply andb_comm.
Qed.

(** A match gives the groups the pattern describes. *)
Lemma regex_match_inv s g1 g2 :
  regex_match s = Some (g1, g2) ->
  exists base,
    g1 = (base ++ "_")%string
    /\ s = (base ++ "_" ++ g2)%string
    /\ g2 <> "" /\ all_digits g2 = true
    /\ forallb dot (list_ascii_of_string base) = true.
Proof.
  unfold regex_match.
  destruct (span_digits (rev (list_ascii_of_string s))) as [ds r] eqn:Hs.
  apply span_digits_inv in Hs as [Hl Hd].
  destruct ds as [|d ds]; [discriminate|].
  destruct r as [|c pre]; [discriminate|].
  destruct (Ascii.eqb_spec c "_"%char) as [->|]; [|discriminate]. simpl andb.
  destruct (forallb dot pre) eqn:Hdot; [|discriminate].
  intros H. injection H as <- <-.
  exists (string_of_list_ascii (rev pre)).
  assert (Hrev : list_ascii_of_string s
                 = rev pre ++ ["_"%char] ++ rev (d :: ds)).
  { rewrite <- (rev_involutive (list_ascii_of_string s)), Hl.
    rewrite rev_app_distr.
    change (rev ("_"%char :: pre)) with (rev pre ++ ["_"%char]).
    rewrite <- app_assoc. reflexivity. }
  split.
  { simpl rev. rewrite string_of_app. reflexivity. }
  split.
  { rewrite <- (string_of_list_ascii_of_string s), Hrev.
    rewrite (string_of_app (rev pre)), (string_of_app ["_"%char]).
    reflexivity. }
  split.
  { intros H. apply (f_equal list_ascii_of_string) in H.
    rewrite list_ascii_of_string_of_list_ascii in H. simpl in H.
    destruct (rev ds); discriminate. }
  split.
  { unfold all_digits. rewrite list_ascii_of_string_of_list_ascii.
    change (rev ds ++ [d]) with (rev (d :: ds)).
    rewrite forallb_rev. exact Hd. }
  rewrite list_ascii_of_string_of_list_ascii, forallb_rev. exact Hdot.
Qed.

Lemma regex_match_intro base ds :
  forallb dot (list_ascii_of_string base) = true ->
  ds <> "" -> all_digits ds = true ->
  regex_match (base ++ "_" ++ ds) = Some ((base ++ "_")%string, ds).
Proof.
  intros Hdot Hne Hd. unfold regex_match.
  rewrite !list_of_append, !rev_app_distr. simpl (rev (list_ascii_of_string "_")).
  rewrite <- app_assoc. simpl app at 2.
  rewrite span_digits_app;
    [| rewrite forallb_rev; exact Hd | reflexivity].
  destruct (rev (list_ascii_of_string ds)) as [|d l] eqn:Hr.
  { exfalso. apply Hne. apply (f_equal (@rev ascii)) in Hr.
    rewrite rev_involutive in Hr. simpl in Hr.
    rewrite <- (string_of_list_ascii_of_string ds), Hr. reflexivity. }
  rewrite forallb_rev, Hdot. simpl andb. cbv iota.
  rewrite <- Hr, rev_involutive, string_of_list_ascii_of_string.
  simpl rev. rewrite rev_involutive, string_of_app,
    string_of_list_ascii_of_string.
  reflexivity.
Qed.

Lemma c_str_append_plain base rest :
  nul_free base = true -> c_str (base ++ rest) = (base ++ c_str rest)%string.
Proof.
  induction base as [|c base IH]; simpl; [reflexivity|].
  destruct (Ascii.eqb c zero); simpl; [discriminate|].
  intros H. rewrite IH by exact H. reflexivity.
Qed.

Lemma digits_nul_free ds : all_digits ds = true -> nul_free ds = true.
Proof.
  unfold all_digits. induction ds as [|c ds IH]; simpl; [reflexivity|].
  intros H. apply andb_prop in H as [Hc H]. rewrite IH by exact H.
  destruct (Ascii.eqb_spec c zero) as [->|]; [discriminate | reflexivity].
Qed.

Lemma lexical_cast_int_value ds :
  decimal_value ds <= INT_MAX -> lexical_cast_int ds = Some (decimal_value ds).
Proof.
  intros H. unfold lexical_cast_int. fold (decimal_value ds).
  apply Z.leb_le in H. rewrite H. reflexivity.
Qed.

(** The digits of [to_string] read back as the number. *)
Lemma digits_of_value fuel n acc :
  0 <= n < 10 ^ Z.of_nat fuel ->
  fold_left (fun a c => 10 * a + digit_value c)
            (list_ascii_of_string (digits_of fuel n acc)) 0
  = fold_left (fun a c => 10 * a + digit_value c)
              (list_ascii_of_string acc) n.
Proof.
  revert n acc. induction fuel as [|fuel IH]; intros n acc Hn.
  - simpl in *. assert (n = 0) by lia. subst n. reflexivity.
  - cbn [digits_of].
    assert (Hd : digit_value (ascii_of_N (Z.to_N (48 + n mod 10))) = n mod 10).
    { unfold digit_value. rewrite N_ascii_embedding.
      - rewrite Z2N.id; [lia|]. pose proof (Z.mod_pos_bound n 10). lia.
      - pose proof (Z.mod_pos_bound n 10). lia. }
    destruct (Z.eqb_spec (n / 10) 0) as [Hz|Hz].
    + simpl. rewrite Hd. f_equal.
      pose proof (Z.div_mod n 10). lia.
    + rewrite IH.
      * simpl. rewrite Hd. f_equal. pose proof (Z.div_mod n 10). lia.
      * rewrite Nat2Z.inj_succ, Z.pow_succ_r in Hn by lia.
        split; [apply Z.div_pos; lia|].
        apply Z.div_lt_upper_bound; lia.
Qed.

Lemma digits_of_digits fuel n acc :
  0 <= n -> all_digits acc = true -> all_digits (digits_of fuel n acc) = true.
Proof.
  revert n acc. induction fuel as [|fuel IH]; intros n acc Hn Hacc;
    [exact Hacc|].
  cbn [digits_of].
  assert (Hd : all_digits (String (ascii_of_N (Z.to_N (48 + n mod 10))) acc)
               = true).
  { unfold all_digits in *. simpl. rewrite Hacc, andb_true_r.
    unfold is_digit. pose proof (Z.mod_pos_bound n 10).
    rewrite N_ascii_embedding by lia.
    apply andb_true_intro. split; apply N.leb_le; lia. }
  destruct (n / 10 =? 0); [exact Hd|].
  apply IH; [apply Z.div_pos; lia | exact Hd].
Qed.

Lemma digits_of_nonempty fuel n acc :
  (0 < fuel)%nat -> digits_of fuel n acc <> "".
Proof.
  revert n acc. induction fuel as [|fuel IH]; intros n acc Hf; [lia|].
  cbn [digits_of]. destruct (n / 10 =? 0); [discriminate|].
  destruct fuel as [|fuel]; [discriminate|]. apply IH. lia.
Qed.

Lemma to_string_value n :
  0 <= n <= INT_MAX ->
  decimal_value (to_string n) = n
  /\ all_digits (to_string n) = true
  /\ to_string n <> "".
Proof.
  intros Hn. unfold to_string.
  destruct (Z.ltb_spec n 0) as [|_]; [lia|].
  split; [|split].
  - unfold decimal_value. rewrite digits_of_value; [reflexivity|].
    unfold INT_MAX in Hn. simpl. lia.
  - apply digits_of_digits; [lia | reflexivity].
  - apply digits_of_nonempty. lia.
Qed.

Lemma plain_inv base :
  plain base = true ->
  nul_free base = true /\ forallb dot (list_ascii_of_string base) = true.
Proof. unfold plain. apply andb_prop. Qed.

Lemma append_assoc (a b c : string) : ((a ++ b) ++ c = a ++ b ++ c)%string.
Proof. induction a as [|x a IH]; simpl; [reflexivity | rewrite IH; reflexivity]. Qed.

Lemma followupName_digits base ds :
  plain base = true -> ds <> "" -> all_digits ds = true ->
  decimal_value ds < INT_MAX ->
  followupName (base ++ "_" ++ ds)
  = inr (base ++ "_" ++ to_string (decimal_value ds + 1))%string.
Proof.
  intros Hp Hne Hd Hv. apply plain_inv in Hp as [Hnul Hdot].
  unfold followupName.
  rewrite c_str_append_plain by exact Hnul.
  change (c_str ("_" ++ ds)) with (String "_" (c_str ds)).
  rewrite (c_str_fixed ds) by (apply digits_nul_free; exact Hd).
  change (String "_" ds) with ("_" ++ ds)%string.
  rewrite regex_match_intro by assumption.
  rewrite lexical_cast_int_value by lia.
  unfold int_succ. destruct (Z.leb_spec (decimal_value ds + 1) INT_MAX); [|lia].
  rewrite append_assoc. reflexivity.
Qed.

Lemma no_generation_no_match name :
  nul_free name = true -> ~ ends_in_generation name ->
  regex_match (c_str name) = None.
Proof.
  intros Hnul Hno. rewrite c_str_fixed by exact Hnul.
  destruct (regex_match name) as [[g1 g2]|] eqn:Hm; [|reflexivity].
  exfalso. apply Hno. apply regex_match_inv in Hm
    as (base & _ & Hs & Hne & Hd & _).
  exists base, g2. auto.
Qed.

(** C9, as the code has it.  The constructor appends [_1] to a name that
    does not end in an underscore followed by digits.  The follow-up of the
    name [<base>_<N>] is [<base>_<N+1>] when the base has no line
    terminator and [N + 1] is an [int]; leading zeros of [N] go away.
    Where the name does not end in an underscore and digits the follow-up
    is the error "shared memory name invalid".  Names are C strings. *)
Theorem arena_names :
  (forall name,
      nul_free name = true -> ~ ends_in_generation name ->
      attach_name name = (name ++ "_1")%string)
  /\ (forall base ds,
      plain base = true -> ds <> "" -> all_digits ds = true ->
      decimal_value ds < INT_MAX ->
      followupName (base ++ "_" ++ ds)
      = inr (base ++ "_" ++ to_string (decimal_value ds + 1))%string)
  /\ (forall base N,
      plain base = true -> 0 <= N < INT_MAX ->
      followupName (base ++ "_" ++ to_string N)
      = inr (base ++ "_" ++ to_string (N + 1))%string)
  /\ (forall name,
      nul_free name = true -> ~ ends_in_generation name ->
      followupName name = inl usage_error).
Proof.
  split; [|split; [|split]].
  - intros name Hnul Hno. unfold attach_name.
    rewrite no_generation_no_match by assumption. reflexivity.
  - exact followupName_digits.
  - intros base N Hp HN.
    destruct (to_string_value N) as (Hv & Hd & Hne); [lia|].
    rewrite followupName_digits by (try assumption; lia).
    rewrite Hv. reflexivity.
  - intros name Hnul Hno. unfold followupName.
    rewrite no_generation_no_match by assumption. reflexivity.
Qed.

Lemma arena_names_witness :
  attach_name "svc" = "svc_1"
  /\ followupName "svc_007" = inr "svc_8"
  /\ followupName "svc_41" = inr "svc_42"
  /\ followupName "svc" = inl usage_error.
Proof.
  destruct arena_names as (Ha & Hb & Hc & Hd).
  assert (Hno : ~ ends_in_generation "svc").
  { intros (base & ds & Hs & Hne & Hdig).
    destruct base as [|c0 [|c1 [|c2 [|c3 base]]]]; simpl in Hs;
      try discriminate;
      injection Hs; intros; subst; try discriminate. }
  split; [apply (Ha "svc"); [reflexivity | exact Hno]|].
  split; [apply (Hb "svc" "007"); [reflexivity | discriminate | reflexivity
                                  | reflexivity]|].
  split; [apply (Hc "svc" 41); [reflexivity | unfold INT_MAX; lia]|].
  apply (Hd "svc"); [reflexivity | exact Hno].
Defined.

(** The generation after [2147483647] is no [int]: the conversion of the
    digits fails and the follow-up is neither the next name nor the error
    for an invalid name; and a name [<base>_<N>] whose base has a line
    break is not matched. *)
Lemma followup_out_of_range :
  followupName "svc_2147483648" = inl bad_lexical_cast
  /\ followupName (String "a" (String "010" "b_1")) = inl usage_error
  /\ ends_in_generation (String "a" (String "010" "b_1")).
Proof.
  split; [reflexivity|]. split; [reflexivity|].
  exists (String "a" (String "010" "b")), "1". repeat split. discriminate.
Qed.

End NameFacts.

(** ** Copying a tree *)

Module CopyFacts.

Import TreeContainer CIOrder NodeMapFacts StoreFacts AddNodeFacts.

Lemma CILess_asym a b : CILess a b = true -> CILess b a = false.
Proof.
  rewrite CILess_true, CILess_false. intros H.
  destruct (cle_total a b); tauto.
Qed.

(** A key below all keys of a map is not in it. *)
Lemma find_below k m :
  Forall (fun kv => CILess k (fst kv) = true) m -> NodeMap.find k m = None.
Proof.
  destruct m as [|[k' v] m]; [reflexivity|].
  intros H. apply Forall_cons in H as [H _]. simpl in *.
  rewrite (CILess_asym _ _ H), H. reflexivity.
Qed.

Lemma Forall_less_equiv k k2 (m : NodeMapT) :
  ci_equiv k k2 = true ->
  Forall (fun kv => CILess k (fst kv) = true) m ->
  Forall (fun kv => CILess k2 (fst kv) = true) m.
Proof.
  intros He Hall. eapply List.Forall_impl; [|exact Hall].
  intros kv H. simpl in *.
  rewrite <- (CILess_equiv_l _ _ _ He). exact H.
Qed.

Lemma Forall_less_trans k k2 (m : NodeMapT) :
  CILess k2 k = true ->
  Forall (fun kv => CILess k (fst kv) = true) m ->
  Forall (fun kv => CILess k2 (fst kv) = true) m.
Proof.
  intros Hlt Hall. eapply List.Forall_impl; [|exact Hall].
  intros kv H. simpl in *.
  eapply CILess_trans; eauto.
Qed.

Section Copy.

Context {NodeDataT : Type} (createDataEmpty : NodeDataT).

#[local] Abbreviation SharedMemoryT := (@SharedMemoryT NodeDataT).

Variable old : store NodeDataT.

Lemma copy_of_wider depth src dst lo hi lo' hi' (h : store NodeDataT) :
  (lo' <= lo)%nat -> (hi <= hi')%nat ->
  copy_of old depth src dst lo hi h -> copy_of old depth src dst lo' hi' h.
Proof.
  intros Hlo Hhi. revert src dst.
  induction depth as [|d IH]; intros src dst; simpl; [tauto|].
  intros (ns & nd & Hs & Hd & F & Da & N & Hk).
  exists ns, nd. repeat (split; [assumption|]).
  intros k. specialize (Hk k).
  destruct (NodeMap.find k (m_Nodes ns)); destruct (NodeMap.find k (m_Nodes nd));
    auto.
  destruct Hk as [Hr Hc]. split; [lia | auto].
Qed.

(** A copy stays one when the nodes of its range stay as they are and its
    root keeps flags, name, payload and children. *)
Lemma copy_of_frame depth src dst lo hi (h h' : store NodeDataT) :
  (forall q, (lo <= q < hi)%nat -> h' !! q = h !! q) ->
  (forall nd, h !! dst = Some nd ->
     exists nd', h' !! dst = Some nd'
                 /\ m_Flags nd' = m_Flags nd /\ m_Data nd' = m_Data nd
                 /\ m_Name nd' = m_Name nd /\ m_Nodes nd' = m_Nodes nd) ->
  copy_of old depth src dst lo hi h -> copy_of old depth src dst lo hi h'.
Proof.
  intros Hrange. revert src dst.
  induction depth as [|d IH]; intros src dst Hroot; simpl; [tauto|].
  intros (ns & nd & Hs & Hd & F & Da & N & Hk).
  destruct (Hroot _ Hd) as (nd' & Hd' & F' & Da' & N' & M').
  exists ns, nd'. split; [exact Hs|]. split; [exact Hd'|].
  split; [congruence|]. split; [congruence|]. split; [congruence|].
  intros k. specialize (Hk k). rewrite M'.
  destruct (NodeMap.find k (m_Nodes ns)); destruct (NodeMap.find k (m_Nodes nd));
    auto.
  destruct Hk as [Hr Hc]. split; [exact Hr|].
  apply IH; [|exact Hc].
  intros ndc Hndc. rewrite (Hrange _ Hr). exists ndc. auto.
Qed.

Lemma copy_of_equal depth src dst lo hi (h : store NodeDataT) :
  copy_of old depth src dst lo hi h -> structurally_equal old src h dst.
Proof.
  intros Hc es. revert depth src dst Hc.
  induction es as [|e es IH]; intros depth src dst Hc.
  - simpl. destruct depth as [|d]; [destruct Hc|].
    destruct Hc as (ns & nd & Hs & Hd & F & Da & N & _).
    exists ns, nd. auto.
  - destruct depth as [|d]; [destruct Hc|].
    destruct Hc as (ns & nd & Hs & Hd & _ & _ & _ & Hk).
    simpl. unfold nodes_of. rewrite Hs, Hd. specialize (Hk (c_str e)).
    destruct (NodeMap.find (c_str e) (m_Nodes ns)) as [c|];
      destruct (NodeMap.find (c_str e) (m_Nodes nd)) as [c'|];
      try tauto.
    destruct Hk as [_ Hk]. eapply IH; eauto.
Qed.

#[local] Abbreviation size_step f :=
  (fun (total : option nat) (node : string * nat) =>
     match total, subtree_size old f (snd node) with
     | Some t, Some k => Some (t + k)%nat
     | _, _ => None
     end).

Lemma size_fold_none f l : fold_left (size_step f) l None = None.
Proof. induction l as [|kv l IH]; simpl; auto. Qed.

Lemma size_fold_cons f kv kvs acc total :
  fold_left (size_step f) (kv :: kvs) (Some acc) = Some total ->
  exists s, subtree_size old f (snd kv) = Some s
            /\ fold_left (size_step f) kvs (Some (acc + s)%nat) = Some total.
Proof.
  simpl. destruct (subtree_size old f (snd kv)) as [s|]; [eauto|].
  rewrite size_fold_none. discriminate.
Qed.

Lemma size_fold_ge f kvs acc total :
  fold_left (size_step f) kvs (Some acc) = Some total -> (acc <= total)%nat.
Proof.
  revert acc. induction kvs as [|kv kvs IH]; intros acc H.
  - simpl in H. injection H as <-. lia.
  - apply size_fold_cons in H as (s & _ & H). apply IH in H. lia.
Qed.

Lemma subtree_size_pos f p s :
  subtree_size old f p = Some s -> (1 <= s)%nat.
Proof.
  destruct f as [|f]; simpl; [discriminate|].
  destruct (old !! p) as [n|]; [|discriminate].
  apply size_fold_ge.
Qed.

Lemma createSubNode_returns name flags data (shm : SharedMemoryT) :
  (length (segment shm) < get_size shm)%nat ->
  createSubNode name flags data shm
  = Returns (length (segment shm))
      (with_segment
         (segment shm
          ++ [mkNode (to_TreeFlags flags) None None (c_str name) data []])
         shm).
Proof.
  intros H. unfold createSubNode, construct.
  apply Nat.ltb_lt in H. rewrite H. reflexivity.
Qed.

Lemma copyChildren_cons copy destination kv kvs (shm : SharedMemoryT) :
  copyChildren createDataEmpty copy destination (kv :: kvs) shm =
  match createSubNode "" 1 createDataEmpty shm with
  | Returns newNode shm1 =>
      match copy newNode (snd kv) (modify newNode (set_Self (Some newNode)) shm1)
      with
      | Returns _ shm3 =>
          copyChildren createDataEmpty copy destination kvs
                       (link_child destination newNode shm3)
      | Throws x s => Throws x s
      | OutOfFuel => OutOfFuel
      | Undefined => Undefined
      end
  | Throws x s => Throws x s
  | OutOfFuel => OutOfFuel
  | Undefined => Undefined
  end.
Proof. reflexivity. Qed.

(** What [link_child] does to the segment. *)
Lemma link_child_spec destination newNode (shm3 : SharedMemoryT) n3 nd :
  segment shm3 !! newNode = Some n3 ->
  segment shm3 !! destination = Some nd ->
  newNode <> destination ->
  let shm5 := link_child destination newNode shm3 in
  tree shm5 = tree shm3
  /\ get_size shm5 = get_size shm3
  /\ length (segment shm5) = length (segment shm3)
  /\ (forall q, q <> destination -> q <> newNode ->
        segment shm5 !! q = segment shm3 !! q)
  /\ segment shm5 !! destination
     = Some (set_Nodes (NodeMap.assign (m_Name n3) newNode (m_Nodes nd)) nd)
  /\ segment shm5 !! newNode = Some (set_Parent (m_Self nd) n3).
Proof.
  intros Hn Hd Hne. unfold link_child. rewrite Hn.
  cbn zeta.
  split; [reflexivity|]. split; [reflexivity|].
  split; [simpl; rewrite !update_length; reflexivity|].
  split.
  { intros q Hq1 Hq2. rewrite !modify_lookup.
    destruct (Nat.eqb_spec q newNode) as [|_]; [congruence|].
    destruct (Nat.eqb_spec q destination) as [|_]; [congruence|].
    reflexivity. }
  split.
  { rewrite !modify_lookup.
    destruct (Nat.eqb_spec destination newNode) as [|_]; [congruence|].
    rewrite Nat.eqb_refl, Hd. reflexivity. }
  rewrite !modify_lookup, Nat.eqb_refl.
  destruct (Nat.eqb_spec newNode destination) as [|_]; [congruence|].
  rewrite Hn. unfold self_of. rewrite modify_lookup, Nat.eqb_refl, Hd.
  reflexivity.
Qed.

Section Children.

Variable f : nat.

(** The copy of a tree of the depth of the children does what
    [copied_into] says. *)
Hypothesis Hcopy :
  forall dst src (shm : SharedMemoryT) s,
    is_tree old f src ->
    subtree_size old f src = Some s ->
    valid dst shm = true ->
    nodes_of (segment shm) dst = [] ->
    (length (segment shm) + s <= get_size shm + 1)%nat ->
    exists shm',
      copyTree createDataEmpty f old dst src shm = Returns tt shm'
      /\ copied_into old f dst src s shm shm'.

(** One round of the loop. *)
Lemma copy_child kv destination (shm : SharedMemoryT) nd s :
  is_tree old f (snd kv) ->
  (exists nc, old !! (snd kv) = Some nc
              /\ ci_equiv (fst kv) (m_Name nc) = true) ->
  subtree_size old f (snd kv) = Some s ->
  segment shm !! destination = Some nd ->
  (length (segment shm) + s <= get_size shm)%nat ->
  exists shm1 shm3 key,
    createSubNode "" 1 createDataEmpty shm
      = Returns (length (segment shm)) shm1
    /\ copyTree createDataEmpty f old (length (segment shm)) (snd kv)
         (modify (length (segment shm))
                 (set_Self (Some (length (segment shm)))) shm1)
       = Returns tt shm3
    /\ ci_equiv (fst kv) key = true
    /\ let shm5 := link_child destination (length (segment shm)) shm3 in
       tree shm5 = tree shm
       /\ get_size shm5 = get_size shm
       /\ length (segment shm5) = (length (segment shm) + s)%nat
       /\ (forall q, (q < length (segment shm))%nat -> q <> destination ->
             segment shm5 !! q = segment shm !! q)
       /\ segment shm5 !! destination
          = Some (set_Nodes (NodeMap.assign key (length (segment shm))
                                            (m_Nodes nd)) nd)
       /\ copy_of old f (snd kv) (length (segment shm))
            (S (length (segment shm))) (length (segment shm5)) (segment shm5).
Proof.
  intros Htree (nc & Hnc & Hkey) Hsize Hdst Hroom.
  pose proof (subtree_size_pos _ _ _ Hsize) as Hpos.
  set (len := length (segment shm)) in *.
  assert (Hdlt : (destination < len)%nat)
    by (apply lookup_lt_Some in Hdst; exact Hdst).
  rewrite (createSubNode_returns "" 1 createDataEmpty shm) by (fold len; lia).
  fold len.
  set (node := mkNode (to_TreeFlags 1) None None (c_str "") createDataEmpty []).
  set (shm1 := with_segment (segment shm ++ [node]) shm).
  set (shm2 := modify len (set_Self (Some len)) shm1).
  assert (H1len : segment shm1 !! len = Some node)
    by (apply list_lookup_middle; reflexivity).
  assert (H1old : forall q, (q < len)%nat -> segment shm1 !! q = segment shm !! q)
    by (intros q Hq; apply lookup_app_l; exact Hq).
  assert (H2len : segment shm2 !! len = Some (set_Self (Some len) node)).
  { unfold shm2. rewrite modify_lookup, Nat.eqb_refl, H1len. reflexivity. }
  assert (H2old : forall q, (q < len)%nat -> segment shm2 !! q = segment shm !! q).
  { intros q Hq. unfold shm2. rewrite modify_lookup.
    destruct (Nat.eqb_spec q len) as [|_]; [lia|]. apply H1old. exact Hq. }
  assert (H2length : length (segment shm2) = S len).
  { unfold shm2. simpl. rewrite update_length, length_app. simpl. fold len. lia. }
  destruct (Hcopy len (snd kv) shm2 s Htree Hsize) as (shm3 & Hrun & Hinto).
  { unfold valid. rewrite H2len. reflexivity. }
  { unfold nodes_of. rewrite H2len. reflexivity. }
  { rewrite H2length. change (get_size shm2) with (get_size shm). lia. }
  destruct Hinto as (Ht & Hs & Hl & Hframe & (nd2 & nd3 & Hnd2 & Hnd3 & _ & _)
                     & Hcp).
  rewrite H2length in *.
  assert (Hname : m_Name nd3 = c_str (m_Name nc)).
  { destruct f as [|f']; [destruct Htree|].
    destruct Hcp as (ns & nd' & Hs0 & Hd0 & _ & _ & N & _).
    congruence. }
  assert (H3dst : segment shm3 !! destination = Some nd).
  { rewrite Hframe by lia. rewrite H2old by lia. exact Hdst. }
  exists shm1, shm3, (m_Name nd3).
  split; [reflexivity|]. split; [exact Hrun|].
  split.
  { rewrite Hname. unfold ci_equiv in *.
    rewrite CILess_c_str_l, CILess_c_str_r. exact Hkey. }
  destruct (link_child_spec destination len shm3 nd3 nd Hnd3 H3dst)
    as (Ht5 & Hs5 & Hl5 & Hf5 & Hd5 & Hn5); [lia|].
  cbn zeta.
  split; [rewrite Ht5, Ht; reflexivity|].
  split; [rewrite Hs5, Hs; reflexivity|].
  split; [rewrite Hl5; lia|].
  split.
  { intros q Hq Hqd. rewrite Hf5 by lia. rewrite Hframe by lia.
    apply H2old. exact Hq. }
  split; [exact Hd5|].
  rewrite Hl5.
  eapply copy_of_frame; [| |exact Hcp].
  - intros q Hq. apply Hf5; lia.
  - intros nd0 Hnd0. rewrite Hnd3 in Hnd0. injection Hnd0 as <-.
    rewrite Hn5. eexists. split; [reflexivity|]. auto.
Qed.

(** The loop over the children. *)
Lemma copyChildren_spec destination kvs :
  forall (shm : SharedMemoryT) nd acc total,
    strictly_sorted kvs ->
    Forall (fun kv =>
              is_tree old f (snd kv)
              /\ exists nc, old !! (snd kv) = Some nc
                            /\ ci_equiv (fst kv) (m_Name nc) = true) kvs ->
    fold_left (size_step f) kvs (Some acc) = Some total ->
    segment shm !! destination = Some nd ->
    (length (segment shm) + total <= get_size shm + acc)%nat ->
    exists shm' nd',
      copyChildren createDataEmpty (copyTree createDataEmpty f old)
                   destination kvs shm = Returns tt shm'
      /\ tree shm' = tree shm
      /\ get_size shm' = get_size shm
      /\ (length (segment shm') + acc = length (segment shm) + total)%nat
      /\ (forall q, (q < length (segment shm))%nat -> q <> destination ->
            segment shm' !! q = segment shm !! q)
      /\ segment shm' !! destination = Some nd'
      /\ m_Flags nd' = m_Flags nd /\ m_Data nd' = m_Data nd
      /\ m_Name nd' = m_Name nd /\ m_Self nd' = m_Self nd
      /\ m_Parent nd' = m_Parent nd
      /\ forall k,
           match NodeMap.find k kvs with
           | Some c =>
               exists c',
                 NodeMap.find k (m_Nodes nd') = Some c'
                 /\ (length (segment shm) <= c' < length (segment shm'))%nat
                 /\ copy_of old f c c' (length (segment shm))
                            (length (segment shm')) (segment shm')
           | None => NodeMap.find k (m_Nodes nd') = NodeMap.find k (m_Nodes nd)
           end.
Proof.
  induction kvs as [|kv kvs IH]; intros shm nd acc total Hsort Hall Hsize Hdst
                                        Hroom.
  - simpl in Hsize. injection Hsize as <-.
    exists shm, nd. simpl. repeat (split; [auto; lia|]). auto.
  - destruct Hsort as [Hless Hsort].
    apply Forall_cons in Hall as [[Htree Hname] Hall].
    apply size_fold_cons in Hsize as (s & Hs & Hsize).
    pose proof (size_fold_ge _ _ _ _ Hsize) as Hge.
    destruct (copy_child kv destination shm nd s Htree Hname Hs Hdst)
      as (shm1 & shm3 & key & Hcr & Hrun & Hkey & Hstep); [lia|].
    cbn zeta in Hstep.
    set (shm5 := link_child destination (length (segment shm)) shm3) in *.
    destruct Hstep as (Ht5 & Hs5 & Hl5 & Hf5 & Hd5 & Hcp5).
    destruct (IH shm5 _ (acc + s)%nat total Hsort Hall Hsize Hd5)
      as (shm' & nd' & Hrest & Ht & Hsz & Hl & Hf & Hd' & F & Da & N & Se & Pa
          & Hk); [rewrite Hl5, Hs5; lia|].
    assert (Hdlt : (destination < length (segment shm))%nat)
      by (apply lookup_lt_Some in Hdst; exact Hdst).
    exists shm', nd'.
    split.
    { rewrite copyChildren_cons, Hcr, Hrun. exact Hrest. }
    split; [congruence|]. split; [congruence|].
    split; [rewrite Hl5 in Hl; lia|].
    split.
    { intros q Hq Hqd. rewrite Hf by (rewrite ?Hl5; lia). apply Hf5; assumption. }
    split; [exact Hd'|].
    split; [exact F|]. split; [exact Da|]. split; [exact N|].
    split; [exact Se|]. split; [exact Pa|].
    pose proof (subtree_size_pos _ _ _ Hs) as Hpos.
    intros k. specialize (Hk k). destruct kv as [key0 c].
    cbn [fst snd NodeMap.find] in *.
    assert (Hfresh : ci_equiv key k = false ->
                     NodeMap.find k kvs = None ->
                     NodeMap.find k (m_Nodes nd') = NodeMap.find k (m_Nodes nd)).
    { intros Hne Hnone. rewrite Hnone in Hk. rewrite Hk.
      apply find_assign_other. exact Hne. }
    destruct (CILess key0 k) eqn:H1.
    + destruct (NodeMap.find k kvs) as [c2|] eqn:Hfind.
      * destruct Hk as (c2' & Hf2 & Hr2 & Hc2).
        exists c2'. split; [exact Hf2|]. split; [rewrite Hl5 in Hr2; lia|].
        eapply copy_of_wider; [| |exact Hc2]; rewrite ?Hl5; lia.
      * apply Hfresh; [|reflexivity].
        unfold ci_equiv.
        rewrite <- (CILess_equiv_l _ _ _ Hkey), <- (CILess_equiv_r _ _ _ Hkey).
        rewrite H1. reflexivity.
    + destruct (CILess k key0) eqn:H2.
      * apply Hfresh.
        -- unfold ci_equiv.
           rewrite <- (CILess_equiv_l _ _ _ Hkey), <- (CILess_equiv_r _ _ _ Hkey).
           rewrite H2. apply andb_false_r.
        -- apply find_below. eapply Forall_less_trans; eauto.
      * assert (He : ci_equiv key0 k = true)
          by (unfold ci_equiv; rewrite H1, H2; reflexivity).
        assert (Hnone : NodeMap.find k kvs = None).
        { apply find_below. eapply Forall_less_equiv; eauto. }
        rewrite Hnone in Hk.
        exists (length (segment shm)).
        split.
        { rewrite Hk. cbn [m_Nodes set_Nodes]. rewrite find_assign.
          rewrite (ci_equiv_trans _ _ _ (ci_equiv_sym _ _ Hkey) He).
          reflexivity. }
        split; [lia|].
        eapply copy_of_wider with (lo := S (length (segment shm)))
                                  (hi := length (segment shm5));
          [lia | lia |].
        eapply copy_of_frame; [| |exact Hcp5].
        -- intros q Hq. apply Hf; lia.
        -- intros nd0 Hnd0. rewrite Hf by (rewrite ?Hl5; lia).
           exists nd0. auto.
Qed.

End Children.

(** [copyTree] returns when the source is a tree and the segment has
    room, and the destination then is a copy of the source. *)
Lemma copyTree_spec fuel :
  forall dst src (shm : SharedMemoryT) s,
    is_tree old fuel src ->
    subtree_size old fuel src = Some s ->
    valid dst shm = true ->
    nodes_of (segment shm) dst = [] ->
    (length (segment shm) + s <= get_size shm + 1)%nat ->
    exists shm',
      copyTree createDataEmpty fuel old dst src shm = Returns tt shm'
      /\ copied_into old fuel dst src s shm shm'.
Proof.
  induction fuel as [|fuel IH]; intros dst src shm s Htree Hsize Hv Hempty Hroom.
  - destruct Htree.
  - destruct Htree as (r & Hr & Hsort & Hall).
    simpl in Hsize. rewrite Hr in Hsize.
    apply valid_spec in Hv as [nd Hnd].
    cbn [copyTree]. rewrite Hr.
    set (shm3 := modify dst (set_Name (c_str (m_Name r)))
                   (modify dst (set_Data (m_Data r))
                      (modify dst (set_Flags (m_Flags r)) shm))).
    assert (H3 : segment shm3 !! dst
                 = Some (set_Name (c_str (m_Name r))
                           (set_Data (m_Data r) (set_Flags (m_Flags r) nd)))).
    { unfold shm3. rewrite !modify_lookup, !Nat.eqb_refl, Hnd. reflexivity. }
    assert (H3f : forall q, q <> dst -> segment shm3 !! q = segment shm !! q).
    { intros q Hq. unfold shm3. rewrite !modify_lookup.
      destruct (Nat.eqb_spec q dst) as [|_]; [congruence | reflexivity]. }
    assert (H3l : length (segment shm3) = length (segment shm)).
    { unfold shm3. simpl. rewrite !update_length. reflexivity. }
    destruct (copyChildren_spec fuel IH dst (m_Nodes r) shm3 _ 1%nat s
                Hsort Hall Hsize H3)
      as (shm' & nd' & Hrun & Ht & Hsz & Hl & Hf & Hd' & F & Da & N & Se & Pa
          & Hk).
    { rewrite H3l. change (get_size shm3) with (get_size shm). lia. }
    exists shm'. split; [exact Hrun|].
    rewrite H3l in *.
    split; [exact Ht|]. split; [exact Hsz|]. split; [lia|].
    split.
    { intros q Hq Hqd. rewrite Hf by assumption. apply H3f. exact Hqd. }
    split.
    { exists nd, nd'. split; [exact Hnd|]. split; [exact Hd'|].
      rewrite Se, Pa. split; reflexivity. }
    simpl. exists r, nd'. split; [exact Hr|]. split; [exact Hd'|].
    split; [rewrite F; reflexivity|]. split; [rewrite Da; reflexivity|].
    split; [rewrite N; reflexivity|].
    intros k. specialize (Hk k).
    destruct (NodeMap.find k (m_Nodes r)) as [c|].
    + destruct Hk as (c' & Hfc & Hrc & Hcc). rewrite Hfc. auto.
    + rewrite Hk. simpl.
      unfold nodes_of in Hempty. rewrite Hnd in Hempty. rewrite Hempty.
      reflexivity.
Qed.

End Copy.

Lemma sorted_check_sound m : sorted_check m = true -> strictly_sorted m.
Proof.
  induction m as [|kv m IH]; simpl; [auto|].
  intros H. apply andb_prop in H as [H1 H2]. split; [|auto].
  apply List.Forall_forall. intros x Hx.
  rewrite forallb_forall in H1. apply H1. exact Hx.
Qed.

Lemma tree_check_sound {NodeDataT : Type} (h : store NodeDataT) depth p :
  tree_check h depth p = true -> is_tree h depth p.
Proof.
  revert p. induction depth as [|d IH]; intros p; simpl; [discriminate|].
  destruct (h !! p) as [n|]; [|discriminate].
  intros H. apply andb_prop in H as [H1 H2].
  exists n. split; [reflexivity|]. split; [apply sorted_check_sound; exact H1|].
  apply List.Forall_forall. intros kv Hkv.
  rewrite forallb_forall in H2. specialize (H2 kv Hkv).
  apply andb_prop in H2 as [H2 H3]. split; [apply IH; exact H2|].
  destruct (h !! kv.2) as [nc|]; [|discriminate]. eauto.
Qed.

(** C5.  [copyTree] from a tree into a fresh node of a segment with room
    returns, and the tree below the destination then equals the source:
    the same paths lead to a node in both, and the two nodes have the same
    flags, name and payload.  The nodes that were in the segment, the
    destination apart, are as before. *)
Theorem copyTree_structurally_equal {NodeDataT : Type}
    (createDataEmpty : NodeDataT) (old : store NodeDataT) fuel
    (destination reference : nat) (shm : @SharedMemoryT NodeDataT) s
    (Htree : is_tree old fuel reference)
    (Hsize : subtree_size old fuel reference = Some s)
    (Hdst : valid destination shm = true)
    (Hfresh : nodes_of (segment shm) destination = [])
    (Hroom : (length (segment shm) + s <= get_size shm + 1)%nat) :
  exists shm',
    copyTree createDataEmpty fuel old destination reference shm
      = Returns tt shm'
    /\ structurally_equal old reference (segment shm') destination
    /\ (length (segment shm') + 1 = length (segment shm) + s)%nat
    /\ (forall q, (q < length (segment shm))%nat -> q <> destination ->
          segment shm' !! q = segment shm !! q).
Proof.
  destruct (copyTree_spec createDataEmpty old fuel destination reference shm s
              Htree Hsize Hdst Hfresh Hroom)
    as (shm' & Hrun & _ & _ & Hl & Hf & _ & Hcp).
  exists shm'. split; [exact Hrun|].
  split; [eapply copy_of_equal; exact Hcp|]. auto.
Qed.

Lemma copyTree_structurally_equal_witness :
  exists shm',
    copyTree "" 4 Migration.source 0%nat 0%nat Migration.target
      = Returns tt shm'
    /\ structurally_equal Migration.source 0%nat (segment shm') 0%nat.
Proof.
  destruct (copyTree_structurally_equal "" Migration.source 4 0%nat 0%nat
              Migration.target 7%nat)
    as (shm' & Hrun & Heq & _).
  - apply tree_check_sound. vm_compute. reflexivity.
  - vm_compute. reflexivity.
  - reflexivity.
  - reflexivity.
  - simpl. lia.
  - exists shm'. split; assumption.
Defined.

End CopyFacts.

(** ** The path of a node and the way back *)

Module RoundTrip.

Import CIOrder PathFacts.

Lemma visited_snoc (pp : Path.path) e :
  pp <> [] -> Path.is_separator_element e = false ->
  visited (pp ++ [e]) = visited pp ++ [e].
Proof.
  destruct pp as [|x pp]; [congruence|]. intros _ He. simpl.
  rewrite List.filter_app. simpl. rewrite He. reflexivity.
Qed.

Lemma visited_top x : visited (Path.div [x] "\") = [x].
Proof. reflexivity. Qed.

Section Linked.

Context {NodeDataT : Type}.

Lemma linked_check_sound (h : store NodeDataT) root n c :
  linked_check h root n c = true -> linked h root n c.
Proof.
  revert c. induction n as [|n IH]; intros c; simpl; [discriminate|].
  destruct (h !! c) as [nd|]; [|discriminate].
  intros H. exists nd. split; [reflexivity|].
  destruct (lock h (m_Parent nd)) as [q|].
  - apply andb_prop in H as [H H3]. apply andb_prop in H as [H1 H2].
    split; [apply IH; exact H1|].
    split; [apply negb_true_iff; exact H2|].
    destruct (NodeMap.find _ _) as [x|]; [|discriminate].
    apply Nat.eqb_eq in H3. congruence.
  - apply andb_prop in H as [H1 H2]. split.
    + intros Hn. rewrite Hn in H1. discriminate.
    + destruct (NodeMap.find _ _) as [x|]; [|discriminate].
      apply Nat.eqb_eq in H2. congruence.
Qed.

(** The path of a linked node leads back to it. *)
Lemma linked_path (h : store NodeDataT) root n c :
  linked h root n c ->
  exists p,
    DirectoryTree.path h n c = Some p
    /\ p <> []
    /\ descend h root (visited p) = Some c.
Proof.
  revert c. induction n as [|n IH]; intros c; simpl; [tauto|].
  intros (nd & Hnd & Hl). rewrite Hnd.
  destruct (lock h (m_Parent nd)) as [q|].
  - destruct Hl as (Hq & Hsep & Hfind).
    destruct (IH _ Hq) as (pp & Hpp & Hne & Hdesc). rewrite Hpp.
    exists (Path.div pp (c_str (m_Name nd))). split; [reflexivity|].
    unfold Path.div. split; [destruct pp; discriminate|].
    rewrite visited_snoc by assumption.
    rewrite descend_app, Hdesc. simpl. rewrite c_str_idem, Hfind. reflexivity.
  - destruct Hl as (Hname & Hfind).
    assert (Hlen : (String.length (m_Name nd) =? 0)%nat = false)
      by (destruct (m_Name nd); [congruence | reflexivity]).
    rewrite Hlen.
    exists (Path.div [c_str (m_Name nd)] "\"). split; [reflexivity|].
    split; [discriminate|].
    rewrite visited_top. cbn [descend]. rewrite c_str_idem, Hfind.
    reflexivity.
Qed.

End Linked.

(** For a node that is linked to the root by its parent pointers
    [path()] returns, and [findByPath] of the root on that path returns the
    node. *)
Lemma linked_round_trip {NodeDataT : Type} (h : store NodeDataT) root n c :
  linked h root n c ->
  exists p,
    DirectoryTree.path h n c = Some p
    /\ DirectoryTree.findNode h root p = Some c.
Proof.
  intros Hlinked.
  destruct (linked_path h root n c Hlinked) as (p & Hp & Hne & Hd).
  exists p. split; [exact Hp|].
  rewrite findNode_descend by exact Hne. exact Hd.
Qed.

Lemma loop_has_no_path fuel :
  forall c, state_of Scenario.looped = Some c ->
            DirectoryTree.path (Scenario.nodes c) fuel 1%nat = None.
Proof.
  intros c Hc. vm_compute in Hc. injection Hc as <-.
  induction fuel as [|fuel IH]; [reflexivity|].
  cbn [DirectoryTree.path]. cbn. cbn in IH. rewrite IH. reflexivity.
Qed.

(** Two nodes without a way back.  After [a] and then [a/a] were inserted
    the node [a] is its own child and parent, and its [path()] does not
    return.  And the path of the root is the empty path, on which
    [findByPath] does not give the root. *)
Lemma no_round_trip :
  (exists c a,
      state_of Scenario.looped = Some c
      /\ Scenario.findByPath c "a" = Some a
      /\ forall fuel, DirectoryTree.path (Scenario.nodes c) fuel a = None)
  /\ (exists c,
      state_of Scenario.one_file = Some c
      /\ DirectoryTree.path (Scenario.nodes c) 1 (Scenario.root c) = Some []
      /\ DirectoryTree.findNode (Scenario.nodes c) (Scenario.root c) []
         <> Some (Scenario.root c)).
Proof.
  split.
  - eexists. exists 1%nat. split; [vm_compute; reflexivity|].
    split; [vm_compute; reflexivity|].
    intros fuel. apply loop_has_no_path. vm_compute. reflexivity.
  - eexists. split; [vm_compute; reflexivity|].
    split; [vm_compute; reflexivity|]. vm_compute. discriminate.
Qed.

End RoundTrip.

(** ** Insertions keep the nodes linked *)

Module LinkedFacts.

Import TreeContainer CIOrder NodeMapFacts StoreFacts AddNodeFacts.

Section Linked.

Context {NodeDataT : Type}.

#[local] Abbreviation store := (store NodeDataT).

Lemma linked_exists (h : store) root n c :
  linked h root n c -> exists nd, h !! c = Some nd.
Proof. destruct n; simpl; [tauto|]. intros (nd & H & _). eauto. Qed.

Lemma lock_some (h : store) w p : lock h w = Some p -> w = Some p /\ h !! p <> None.
Proof.
  unfold lock. destruct w as [q|]; [|discriminate].
  destruct (h !! q) eqn:Hq; [|discriminate].
  intros H. injection H as <-. split; [reflexivity | congruence].
Qed.

Lemma lock_none (h : store) w :
  lock h w = None -> w = None \/ exists p, w = Some p /\ h !! p = None.
Proof.
  unfold lock. destruct w as [q|]; [|auto].
  destruct (h !! q) eqn:Hq; [discriminate|]. eauto.
Qed.

Lemma ci_equiv_c_str_r a b : ci_equiv a (c_str b) = ci_equiv a b.
Proof. unfold ci_equiv. rewrite CILess_c_str_l, CILess_c_str_r. reflexivity. Qed.

(** A proper child of the root or of a linked node is linked. *)
Lemma linked_child (h : store) root q k c :
  (q = root \/ exists n, linked h root n q) ->
  NodeMap.find k (nodes_of h q) = Some c ->
  child_ok h root q k c ->
  exists n, linked h root n c.
Proof.
  intros Hq Hfind (nd & Hnd & Hne & Hself & Hpar & Hk & Hname & Hsep).
  assert (Hfind' : NodeMap.find (c_str (m_Name nd)) (nodes_of h q) = Some c).
  { rewrite <- Hfind. symmetry. apply find_equiv.
    rewrite ci_equiv_c_str_r. exact Hk. }
  assert (Hname' : m_Name nd <> "").
  { intros Heq. rewrite Heq in Hname. apply Hname. reflexivity. }
  destruct (Nat.eqb_spec q root) as [->|Hqr].
  - exists 1%nat. simpl. exists nd. split; [exact Hnd|].
    rewrite Hpar. simpl. auto.
  - destruct Hq as [|[n Hl]]; [congruence|].
    exists (S n). simpl. exists nd. split; [exact Hnd|].
    rewrite Hpar. unfold lock.
    destruct (linked_exists _ _ _ _ Hl) as [nq ->]. auto.
Qed.

(** In a tree whose children are proper, every node below the root is
    linked. *)
Lemma reachable_linked (h : store) root :
  tree_linked h root ->
  forall es q c,
    (q = root \/ exists n, linked h root n q) ->
    es <> [] ->
    descend h q es = Some c ->
    exists n, linked h root n c.
Proof.
  intros (_ & _ & HT). induction es as [|e es IH]; intros q c Hq Hne;
    [congruence|].
  simpl. destruct (NodeMap.find (c_str e) (nodes_of h q)) as [s|] eqn:Hfind;
    [|discriminate].
  pose proof (linked_child h root q _ s Hq Hfind (HT q _ _ Hfind)) as Hs.
  destruct es as [|e' es'].
  - simpl. intros H. injection H as <-. exact Hs.
  - apply IH; [right; exact Hs | discriminate].
Qed.

(** Maps stay maps. *)
Lemma Forall_keys_assign (Q : string -> Prop) k v (m : NodeMapT) :
  Q k -> Forall (fun kv => Q (fst kv)) m ->
  Forall (fun kv => Q (fst kv)) (NodeMap.assign k v m).
Proof.
  intros Hk. induction m as [|[k' v'] m IH]; simpl; intros Hall.
  - constructor; [exact Hk | constructor].
  - apply Forall_cons in Hall as [Hk' Hm].
    destruct (CILess k' k).
    + constructor; [exact Hk' | apply IH; exact Hm].
    + destruct (CILess k k').
      * constructor; [exact Hk|]. constructor; assumption.
      * constructor; assumption.
Qed.

Lemma assign_sorted k v (m : NodeMapT) :
  strictly_sorted m -> strictly_sorted (NodeMap.assign k v m).
Proof.
  induction m as [|[k' v'] m IH]; simpl.
  - intros _. split; [constructor | exact I].
  - intros [Hall Hs]. destruct (CILess k' k) eqn:H1.
    + simpl. split; [|apply IH; exact Hs].
      apply (Forall_keys_assign (fun x => CILess k' x = true));
        [exact H1 | exact Hall].
    + destruct (CILess k k') eqn:H2.
      * simpl. split; [|split; assumption].
        constructor; [exact H2|].
        eapply CopyFacts.Forall_less_trans; [exact H2 | exact Hall].
      * simpl. split; assumption.
Qed.

Lemma sorted_In_find k c (m : NodeMapT) :
  strictly_sorted m -> In (k, c) m -> NodeMap.find k m = Some c.
Proof.
  induction m as [|[k' v'] m IH]; simpl; [tauto|].
  intros [Hall Hs] [Heq|Hin].
  - injection Heq as -> ->. rewrite CILess_irrefl. reflexivity.
  - rewrite List.Forall_forall in Hall. pose proof (Hall _ Hin) as Hlt.
    cbn [fst] in Hlt. rewrite Hlt. apply IH; assumption.
Qed.

Lemma child_ok_keep (h h' : store) root q x c nd :
  h !! c = Some nd ->
  (exists nd', h' !! c = Some nd'
               /\ m_Self nd' = m_Self nd
               /\ m_Parent nd' = m_Parent nd
               /\ m_Name nd' = m_Name nd) ->
  child_ok h root q x c -> child_ok h' root q x c.
Proof.
  intros Hnd (nd' & Hnd' & Hs' & Hp' & Hn')
         (nd0 & Hnd0 & Hne & Hs & Hp & Hk & Hn & Hsep).
  assert (nd0 = nd) by congruence. subst nd0.
  exists nd'. rewrite Hs', Hp', Hn'. auto 10.
Qed.

Lemma child_ok_exists (h : store) root q x c :
  child_ok h root q x c -> exists nd, h !! c = Some nd.
Proof. intros (nd & H & _). eauto. Qed.

(** A step of an insertion keeps the children proper. *)
Lemma heap_step_tree (h h' : store) root base k n :
  heap_step h h' root base k n ->
  tree_linked h root -> tree_linked h' root.
Proof.
  intros (Ha & Hb & Hc) ((nr & Hnr & Hsr) & Hsorted & HT).
  split; [|split].
  - destruct (Ha _ _ Hnr) as (nr' & Hnr' & Hs & _). exists nr'.
    split; [exact Hnr' | congruence].
  - intros q nd' Hq'. destruct (h !! q) as [nd|] eqn:Hq.
    + destruct (Ha _ _ Hq) as (nd2 & Hnd2 & _ & _ & _ & Hm).
      assert (nd2 = nd') by congruence. subst nd2.
      destruct Hm as [->|(k' & p & ->)];
        [|apply assign_sorted]; eapply Hsorted; exact Hq.
    + destruct (Hb _ _ Hq Hq') as (_ & _ & -> & _). exact I.
  - intros q x c Hfind.
    destruct (Hc _ _ _ Hfind) as [Hold|(-> & -> & Hnone & Hsome & Hkx)].
    + pose proof (HT _ _ _ Hold) as Hok.
      destruct (child_ok_exists _ _ _ _ _ Hok) as [nd Hnd].
      eapply child_ok_keep; [exact Hnd | | exact Hok].
      destruct (Ha _ _ Hnd) as (nd' & H1 & H2 & H3 & H4 & _). eauto.
    + assert (Hex : exists nn, h' !! n = Some nn)
        by (destruct (h' !! n) as [nn|]; [eauto | congruence]).
      destruct Hex as [nn Hnn].
      destruct (Hb _ _ Hnone Hnn)
        as (_ & Hnr' & _ & Hs & Hp & Hk & Hname & Hsep).
      exists nn. split; [exact Hnn|]. split; [exact Hnr'|].
      split; [exact Hs|]. split; [exact Hp|].
      split; [|auto].
      eapply ci_equiv_trans; [apply ci_equiv_sym; exact Hkx | exact Hk].
Qed.

End Linked.

Section Steps.

Context {NodeDataT : Type} (createDataEmpty : NodeDataT).

#[local] Abbreviation SharedMemoryT := (@SharedMemoryT NodeDataT).
#[local] Abbreviation kids shm q := (nodes_of (segment shm) q).

(** The dummy directory that [addNode] hangs below [base]. *)
Lemma dummy_heap_step root base e (shm shm1 : SharedMemoryT) p :
  valid base shm = true ->
  valid root shm = true ->
  NodeMap.find (c_str e) (kids shm base) = None ->
  createSubNode e (Z.lor FLAG_DIRECTORY FLAG_DUMMY) createDataEmpty shm
    = Returns p shm1 ->
  self_of (segment shm) base = (if Nat.eqb base root then None else Some base) ->
  c_str e <> "" ->
  Path.is_separator_element (c_str e) = false ->
  heap_step (segment shm) (segment (snd (attach_dummy base e p shm1)))
            root base (c_str e) p.
Proof.
  intros Hbase Hroot Hnone Hcr Hself Hne Hsep.
  destruct (attach_dummy_spec createDataEmpty _ _ _ _ _ Hbase Hnone Hcr)
    as (_ & Hp & _ & Hvp & _ & _ & Hk4 & (ndp & Hndp & _ & _ & Nn & Ns & Np & Nm)
        & Hrest & Hb).
  set (shm4 := snd (attach_dummy base e p shm1)) in *.
  assert (Hpnew : segment shm !! p = None)
    by (apply lookup_ge_None_2; lia).
  split; [|split].
  - intros q nd Hq. destruct (Nat.eq_dec q base) as [->|Hqb].
    + rewrite (Hb _ Hq). eexists. split; [reflexivity|].
      cbn. do 3 (split; [reflexivity|]). right. eauto.
    + assert (q <> p) by congruence.
      rewrite Hrest by assumption. eauto 10.
  - intros q nd' Hq Hq'.
    assert (q = p).
    { destruct (Nat.eq_dec q p) as [|Hqp]; [assumption|]. exfalso.
      assert (q <> base).
      { intros ->. apply valid_spec in Hbase as [b Hb0]. congruence. }
      rewrite Hrest in Hq' by assumption. congruence. }
    subst q. assert (nd' = ndp) by congruence. subst nd'.
    split; [reflexivity|].
    split.
    { intros ->. apply valid_spec in Hroot as [x Hx]. congruence. }
    split; [exact Nm|]. split; [exact Ns|].
    split; [rewrite Np; exact Hself|].
    rewrite Nn, c_str_idem. split; [apply ci_equiv_refl|].
    split; [exact Hne | exact Hsep].
  - intros q x c Hf. rewrite Hk4 in Hf.
    destruct (Nat.eqb_spec q base) as [->|]; [|left; exact Hf].
    rewrite find_assign in Hf.
    destruct (ci_equiv (c_str e) x) eqn:He; [|left; exact Hf].
    injection Hf as <-. right.
    split; [reflexivity|]. split; [reflexivity|]. split; [exact Hpnew|].
    split; [congruence | reflexivity].
Qed.

(** The last component when no top-level node has its name: a new node
    below [base], in place of the child of that name, or beside it when
    [overwrite] is off and there is one. *)
Lemma addNode_last_fresh fuel base e r data ov flags (shm : SharedMemoryT)
    res shm' :
  Path.nextIter (e :: r) = [] ->
  NodeMap.find (c_str e) (kids shm (tree shm)) = None ->
  addNode createDataEmpty (S fuel) base (e :: r) data ov flags shm
    = Returns res shm' ->
  exists b M,
    segment shm !! base = Some b
    /\ valid (tree shm) shm = true
    /\ tree shm' = tree shm
    /\ segment shm' !! length (segment shm)
       = Some (mkNode (to_TreeFlags flags) (m_Self b)
                      (Some (length (segment shm))) (c_str e) data [])
    /\ (forall q, q <> length (segment shm) -> q <> base ->
          segment shm' !! q = segment shm !! q)
    /\ segment shm' !! base = Some (set_Nodes M b)
    /\ (M = NodeMap.assign (c_str e) (length (segment shm)) (m_Nodes b)
        \/ M = m_Nodes b).
Proof.
  intros Hnext Hnone. cbn [TreeContainer.addNode]. rewrite Hnext.
  cbn [Path.at_end].
  destruct (valid (get shm) shm && valid base shm) eqn:Hv; [|discriminate].
  apply andb_prop in Hv as [Hroot Hbase]. cbn [negb].
  unfold DirectoryTree.node, get. rewrite Hnone.
  destruct (createSubNode e flags data shm) as [n shm1| | |] eqn:Hcr;
    try discriminate.
  apply createSubNode_inv in Hcr as (-> & Hext & Hv1 & Hv0 & Hk & Hn & Hold).
  set (n := length (segment shm)) in *.
  apply valid_spec in Hbase as [b Hb].
  assert (Hnb : n <> base) by (apply lookup_lt_Some in Hb; unfold n; lia).
  set (shm2 := modify n (set_Self (Some n)) shm1).
  assert (Hself : self_of (segment shm2) base = m_Self b).
  { unfold self_of, shm2. rewrite modify_lookup.
    destruct (Nat.eqb_spec base n) as [|_]; [congruence|].
    rewrite Hold by congruence. rewrite Hb. reflexivity. }
  rewrite Hself.
  set (shm3 := modify n (set_Parent (m_Self b)) shm2).
  assert (H3n : segment shm3 !! n
                = Some (mkNode (to_TreeFlags flags) (m_Self b) (Some n)
                               (c_str e) data [])).
  { unfold shm3, shm2. rewrite !modify_lookup, !Nat.eqb_refl, Hn. reflexivity. }
  assert (H3old : forall q, q <> n -> segment shm3 !! q = segment shm !! q).
  { intros q Hq. unfold shm3, shm2. rewrite !modify_lookup.
    destruct (Nat.eqb_spec q n) as [|_]; [congruence|]. apply Hold. exact Hq. }
  assert (H3b : segment shm3 !! base = Some b)
    by (rewrite H3old by congruence; exact Hb).
  assert (Hfinal : forall M,
             let shm4 := modify base (set_Nodes M) shm3 in
             segment shm4 !! n
             = Some (mkNode (to_TreeFlags flags) (m_Self b) (Some n)
                            (c_str e) data [])
             /\ (forall q, q <> n -> q <> base ->
                   segment shm4 !! q = segment shm !! q)
             /\ segment shm4 !! base = Some (set_Nodes M b)).
  { intros M. cbn zeta. rewrite !modify_lookup.
    destruct (Nat.eqb_spec n base) as [|_]; [congruence|].
    rewrite Nat.eqb_refl, H3b. split; [exact H3n|]. split; [|reflexivity].
    intros q Hq1 Hq2. rewrite modify_lookup.
    destruct (Nat.eqb_spec q base) as [|_]; [congruence|]. apply H3old. exact Hq1. }
  assert (Htree : tree shm3 = tree shm) by (destruct Hext as [H _]; exact H).
  destruct ov.
  - intros H. injection H as <- <-.
    exists b, (NodeMap.assign (c_str e) n (m_Nodes b)).
    split; [exact Hb|]. split; [exact Hroot|]. split; [exact Htree|].
    destruct (Hfinal (NodeMap.assign (c_str e) n (m_Nodes b)))
      as (F1 & F2 & F3).
    assert (Heq : modify base
                    (fun b0 => set_Nodes
                                 (NodeMap.assign (c_str e) n (m_Nodes b0)) b0)
                    shm3
                  = modify base
                      (set_Nodes (NodeMap.assign (c_str e) n (m_Nodes b))) shm3).
    { unfold modify. f_equal. unfold update. rewrite H3b. reflexivity. }
    rewrite Heq. auto.
  - assert (Hk3 : nodes_of (segment shm3) base = m_Nodes b)
      by (unfold nodes_of; rewrite H3b; reflexivity).
    rewrite Hk3, insert_spec.
    destruct (NodeMap.find (c_str e) (m_Nodes b)) as [w|] eqn:Hfind.
    + intros H. injection H as <- <-.
      exists b, (m_Nodes b).
      split; [exact Hb|]. split; [exact Hroot|]. split; [exact Htree|].
      destruct (Hfinal (m_Nodes b)) as (F1 & F2 & F3). auto.
    + intros H. injection H as <- <-.
      exists b, (NodeMap.assign (c_str e) n (m_Nodes b)).
      split; [exact Hb|]. split; [exact Hroot|]. split; [exact Htree|].
      destruct (Hfinal (NodeMap.assign (c_str e) n (m_Nodes b)))
        as (F1 & F2 & F3). auto.
Qed.

Lemma last_fresh_heap_step fuel base e r data ov flags (shm : SharedMemoryT)
    res shm' :
  Path.nextIter (e :: r) = [] ->
  NodeMap.find (c_str e) (kids shm (tree shm)) = None ->
  addNode createDataEmpty (S fuel) base (e :: r) data ov flags shm
    = Returns res shm' ->
  self_of (segment shm) base
    = (if Nat.eqb base (tree shm) then None else Some base) ->
  c_str e <> "" ->
  Path.is_separator_element (c_str e) = false ->
  tree shm' = tree shm
  /\ heap_step (segment shm) (segment shm') (tree shm) base (c_str e)
               (length (segment shm)).
Proof.
  intros Hnext Hnone Hret Hself Hne Hsep.
  destruct (addNode_last_fresh _ _ _ _ _ _ _ _ _ _ Hnext Hnone Hret)
    as (b & M & Hb & Hroot & Htree & Hn & Hold & Hbase' & HM).
  split; [exact Htree|].
  set (n := length (segment shm)) in *.
  assert (Hsb : self_of (segment shm) base = m_Self b)
    by (unfold self_of; rewrite Hb; reflexivity).
  assert (Hnb : n <> base) by (apply lookup_lt_Some in Hb; unfold n; lia).
  assert (Hnnew : segment shm !! n = None)
    by (apply lookup_ge_None_2; unfold n; lia).
  split; [|split].
  - intros q nd Hq. destruct (Nat.eq_dec q base) as [->|Hqb].
    + assert (nd = b) by congruence. subst nd.
      rewrite Hbase'. eexists. split; [reflexivity|].
      cbn. do 3 (split; [reflexivity|]).
      destruct HM as [->| ->]; [right; eauto | left; reflexivity].
    + assert (q <> n) by congruence.
      rewrite Hold by assumption. eauto 10.
  - intros q nd' Hq Hq'.
    assert (q = n).
    { destruct (Nat.eq_dec q n) as [|Hqn]; [assumption|]. exfalso.
      assert (q <> base) by congruence.
      rewrite Hold in Hq' by assumption. congruence. }
    subst q. rewrite Hn in Hq'. injection Hq' as <-. cbn.
    split; [reflexivity|].
    split.
    { intros Heq. apply valid_spec in Hroot as [x Hx]. unfold get in Hx.
      congruence. }
    split; [reflexivity|]. split; [reflexivity|].
    split; [congruence|].
    rewrite c_str_idem. split; [apply ci_equiv_refl|].
    split; [exact Hne | exact Hsep].
  - intros q x c Hf. unfold nodes_of in Hf |- *.
    destruct (Nat.eq_dec q base) as [->|Hqb].
    + rewrite Hbase' in Hf. cbn in Hf. rewrite Hb.
      destruct HM as [->| ->]; [|left; exact Hf].
      rewrite find_assign in Hf.
      destruct (ci_equiv (c_str e) x) eqn:He; [|left; exact Hf].
      injection Hf as <-. right.
      split; [reflexivity|]. split; [reflexivity|]. split; [exact Hnnew|].
      split; [congruence | reflexivity].
    + destruct (Nat.eq_dec q n) as [->|Hqn].
      * rewrite Hn in Hf. discriminate.
      * rewrite Hold in Hf by assumption. left. exact Hf.
Qed.

(** The last component when the root has a node of its name and the
    insertion is at the root: the node is taken again, and nothing that
    is looked up changes. *)
Lemma addNode_last_top fuel e r data ov flags (shm : SharedMemoryT)
    res shm' X :
  Path.nextIter (e :: r) = [] ->
  NodeMap.find (c_str e) (kids shm (tree shm)) = Some X ->
  X <> tree shm ->
  addNode createDataEmpty (S fuel) (tree shm) (e :: r) data ov flags shm
    = Returns res shm' ->
  exists b x M,
    segment shm !! tree shm = Some b
    /\ segment shm !! X = Some x
    /\ tree shm' = tree shm
    /\ segment shm' !! X = Some (set_Parent (m_Self b) (set_Self (Some X) x))
    /\ (forall q, q <> X -> q <> tree shm ->
          segment shm' !! q = segment shm !! q)
    /\ segment shm' !! tree shm = Some (set_Nodes M b)
    /\ (M = m_Nodes b \/ M = NodeMap.assign (c_str e) X (m_Nodes b))
    /\ forall k2, NodeMap.find k2 M = NodeMap.find k2 (m_Nodes b).
Proof.
  intros Hnext Hfind HX. cbn [TreeContainer.addNode]. rewrite Hnext.
  cbn [Path.at_end].
  destruct (valid (get shm) shm && valid (tree shm) shm) eqn:Hv;
    [|discriminate].
  apply andb_prop in Hv as [_ Hroot]. cbn [negb].
  unfold DirectoryTree.node, get. rewrite Hfind.
  destruct (valid X shm) eqn:HvX; [|discriminate].
  apply valid_spec in Hroot as [b Hb]. apply valid_spec in HvX as [x Hx].
  set (root := tree shm) in *.
  set (shm2 := modify X (set_Self (Some X)) shm).
  assert (Hself : self_of (segment shm2) root = m_Self b).
  { unfold self_of, shm2. rewrite modify_lookup.
    destruct (Nat.eqb_spec root X) as [|_]; [congruence|].
    rewrite Hb. reflexivity. }
  rewrite Hself.
  set (shm3 := modify X (set_Parent (m_Self b)) shm2).
  assert (H3X : segment shm3 !! X
                = Some (set_Parent (m_Self b) (set_Self (Some X) x))).
  { unfold shm3, shm2. rewrite !modify_lookup, !Nat.eqb_refl, Hx. reflexivity. }
  assert (H3old : forall q, q <> X -> segment shm3 !! q = segment shm !! q).
  { intros q Hq. unfold shm3, shm2. rewrite !modify_lookup.
    destruct (Nat.eqb_spec q X) as [|_]; [congruence|]. reflexivity. }
  assert (H3b : segment shm3 !! root = Some b)
    by (rewrite H3old by congruence; exact Hb).
  assert (Hfinal : forall M,
             let shm4 := modify root (set_Nodes M) shm3 in
             segment shm4 !! X
             = Some (set_Parent (m_Self b) (set_Self (Some X) x))
             /\ (forall q, q <> X -> q <> root ->
                   segment shm4 !! q = segment shm !! q)
             /\ segment shm4 !! root = Some (set_Nodes M b)).
  { intros M. cbn zeta. rewrite !modify_lookup.
    destruct (Nat.eqb_spec X root) as [|_]; [congruence|].
    rewrite Nat.eqb_refl, H3b. split; [exact H3X|]. split; [|reflexivity].
    intros q Hq1 Hq2. rewrite modify_lookup.
    destruct (Nat.eqb_spec q root) as [|_]; [congruence|]. apply H3old.
    exact Hq1. }
  assert (Hkb : NodeMap.find (c_str e) (m_Nodes b) = Some X).
  { unfold nodes_of in Hfind. rewrite Hb in Hfind. exact Hfind. }
  destruct ov.
  - intros H. injection H as <- <-.
    exists b, x, (NodeMap.assign (c_str e) X (m_Nodes b)).
    split; [exact Hb|]. split; [exact Hx|]. split; [reflexivity|].
    destruct (Hfinal (NodeMap.assign (c_str e) X (m_Nodes b)))
      as (F1 & F2 & F3).
    assert (Heq : modify root
                    (fun b0 => set_Nodes
                                 (NodeMap.assign (c_str e) X (m_Nodes b0)) b0)
                    shm3
                  = modify root
                      (set_Nodes (NodeMap.assign (c_str e) X (m_Nodes b))) shm3).
    { unfold modify. f_equal. unfold update. rewrite H3b. reflexivity. }
    rewrite Heq. split; [exact F1|]. split; [exact F2|]. split; [exact F3|].
    split; [right; reflexivity|].
    intros k2. rewrite find_assign.
    destruct (ci_equiv (c_str e) k2) eqn:He; [|reflexivity].
    rewrite <- (find_equiv _ _ _ He). symmetry. exact Hkb.
  - assert (Hk3 : nodes_of (segment shm3) root = m_Nodes b)
      by (unfold nodes_of; rewrite H3b; reflexivity).
    rewrite Hk3, insert_spec, Hkb.
    intros H. injection H as <- <-.
    exists b, x, (m_Nodes b).
    split; [exact Hb|]. split; [exact Hx|]. split; [reflexivity|].
    destruct (Hfinal (m_Nodes b)) as (F1 & F2 & F3). auto 10.
Qed.

Lemma last_top_heap_step fuel e r data ov flags (shm : SharedMemoryT)
    res shm' X :
  tree_linked (segment shm) (tree shm) ->
  Path.nextIter (e :: r) = [] ->
  NodeMap.find (c_str e) (kids shm (tree shm)) = Some X ->
  addNode createDataEmpty (S fuel) (tree shm) (e :: r) data ov flags shm
    = Returns res shm' ->
  tree shm' = tree shm
  /\ heap_step (segment shm) (segment shm') (tree shm) (tree shm) (c_str e)
               (length (segment shm)).
Proof.
  intros ((nr & Hnr & Hsr) & _ & HT) Hnext Hfind Hret.
  destruct (HT _ _ _ Hfind) as (nx & Hnx & HX & HsX & HpX & _).
  rewrite Nat.eqb_refl in HpX.
  destruct (addNode_last_top _ _ _ _ _ _ _ _ _ _ Hnext Hfind HX Hret)
    as (b & x & M & Hb & Hx & Htree & HX' & Hold & Hroot' & HMs & HM).
  assert (b = nr) by congruence. assert (x = nx) by congruence. subst b x.
  split; [exact Htree|].
  split; [|split].
  - intros q nd Hq. destruct (Nat.eq_dec q X) as [->|HqX].
    + assert (nd = nx) by congruence. subst nd.
      rewrite HX'. eexists. split; [reflexivity|]. cbn.
      split; [congruence|]. split; [congruence|]. auto.
    + destruct (Nat.eq_dec q (tree shm)) as [->|Hqr].
      * assert (nd = nr) by congruence. subst nd.
        rewrite Hroot'. eexists. split; [reflexivity|].
        cbn. do 3 (split; [reflexivity|]).
        destruct HMs as [->| ->]; [left; reflexivity | right; eauto].
      * rewrite Hold by assumption. eauto 10.
  - intros q nd' Hq Hq'. exfalso.
    assert (q <> X) by congruence. assert (q <> tree shm) by congruence.
    rewrite Hold in Hq' by assumption. congruence.
  - intros q x c Hf. left. unfold nodes_of in Hf |- *.
    destruct (Nat.eq_dec q (tree shm)) as [->|Hqr].
    + rewrite Hroot' in Hf. cbn in Hf. rewrite Hnr, <- HM. exact Hf.
    + destruct (Nat.eq_dec q X) as [->|HqX].
      * rewrite HX' in Hf. rewrite Hnx. exact Hf.
      * rewrite Hold in Hf by assumption. exact Hf.
Qed.

(** The last component throws before anything is changed. *)
Lemma addNode_last_throws fuel base e r data ov flags (shm : SharedMemoryT)
    x s :
  Path.nextIter (e :: r) = [] ->
  addNode createDataEmpty (S fuel) base (e :: r) data ov flags shm
    = Throws x s ->
  s = shm.
Proof.
  intros Hnext. cbn [TreeContainer.addNode]. rewrite Hnext.
  cbn [Path.at_end].
  destruct (negb _); [discriminate|].
  unfold DirectoryTree.node.
  destruct (NodeMap.find (c_str e) (nodes_of (segment shm) (get shm)))
    as [existing|].
  - destruct (valid existing shm); [|discriminate].
    destruct ov; [discriminate|].
    destruct (NodeMap.insert _ _ _) as [[m w] b]. discriminate.
  - destruct (createSubNode e flags data shm) as [n shm1| y s'| |] eqn:Hc;
      try discriminate.
    + destruct ov; [discriminate|].
      destruct (NodeMap.insert _ _ _) as [[m w] b]. discriminate.
    + intros H. injection H as _ <-.
      apply createSubNode_throws in Hc as (_ & -> & _). reflexivity.
Qed.

(** An insertion that does not slip keeps the tree linked, whether it
    returns or throws: its last name is no name of a top-level node unless
    it is placed at the root.  When it throws, the last name is still no
    name of a top-level node. *)
Lemma addNode_tree_linked data ov flags :
  forall fuel base iter (shm : SharedMemoryT) shm' es el,
    tree_linked (segment shm) (tree shm) ->
    self_of (segment shm) base
      = (if Nat.eqb base (tree shm) then None else Some base) ->
    Forall (fun e => c_str e <> ""
                     /\ Path.is_separator_element (c_str e) = false)
           (visited iter) ->
    visited iter = es ++ [el] ->
    (es = [] ->
       base = tree shm
       \/ NodeMap.find (c_str el) (kids shm (tree shm)) = None) ->
    (forall e1 es', es = e1 :: es' ->
       NodeMap.find (c_str el) (kids shm (tree shm)) = None
       /\ (base = tree shm -> ci_equiv (c_str el) (c_str e1) = false)) ->
    state_of (addNode createDataEmpty fuel base iter data ov flags shm)
      = Some shm' ->
    tree shm' = tree shm
    /\ tree_linked (segment shm') (tree shm')
    /\ (forall x,
          addNode createDataEmpty fuel base iter data ov flags shm
            = Throws x shm' ->
          NodeMap.find (c_str el) (kids shm (tree shm)) = None ->
          NodeMap.find (c_str el) (kids shm' (tree shm)) = None).
Proof.
  induction fuel as [|fuel IH];
    intros base iter shm shm' es el HT Hself Hnames Hvis Hlast Hstep Hret;
    [discriminate|].
  destruct iter as [|e r]; [discriminate|].
  assert (He : c_str e <> "" /\ Path.is_separator_element (c_str e) = false).
  { rewrite PathFacts.visited_next in Hnames. apply Forall_inv in Hnames.
    exact Hnames. }
  destruct He as [Hne Hsep].
  destruct (visited_cons_inv _ _ _ _ Hvis)
    as [(Hnext & -> & ->) | (e' & r' & es' & Hnext & -> & Hvis')].
  - destruct (addNode createDataEmpty (S fuel) base (e :: r) data ov flags shm)
      as [res s|x s| |] eqn:Hadd; try discriminate;
      injection Hret as ->.
    + assert (Hhs : tree shm' = tree shm
                    /\ exists b k n,
                         heap_step (segment shm) (segment shm') (tree shm)
                                   b k n).
      { destruct (NodeMap.find (c_str e) (kids shm (tree shm))) as [X|]
          eqn:Hfind.
        - destruct (Hlast eq_refl) as [-> | ?]; [|congruence].
          destruct (last_top_heap_step _ _ _ _ _ _ _ _ _ _ HT Hnext Hfind
                      Hadd) as [Htree Hhs]. eauto.
        - destruct (last_fresh_heap_step _ _ _ _ _ _ _ _ _ _ Hnext Hfind Hadd
                      Hself Hne Hsep) as [Htree Hhs]. eauto. }
      destruct Hhs as (Htree & b & k & n & Hhs).
      split; [exact Htree|]. rewrite Htree.
      split; [eapply heap_step_tree; [exact Hhs | exact HT]|].
      intros x. discriminate.
    + apply addNode_last_throws in Hadd; [|exact Hnext]. subst shm'.
      split; [reflexivity|]. split; [exact HT|]. auto.
  - rewrite (addNode_step _ _ _ _ _ _ _ _ _ _ _ Hnext) in Hret |- *.
    destruct (valid (tree shm) shm && valid base shm) eqn:Hv; [|discriminate].
    apply andb_prop in Hv as [Hvroot Hvbase]. cbn [negb] in Hret |- *.
    assert (Hnames' : Forall (fun e => c_str e <> ""
                              /\ Path.is_separator_element (c_str e) = false)
                             (visited (e' :: r'))).
    { rewrite PathFacts.visited_next, Hnext in Hnames.
      apply Forall_inv_tail in Hnames. exact Hnames. }
    destruct (Hstep _ _ eq_refl) as [Hel Hfirst].
    destruct (NodeMap.find (c_str e) (kids shm base)) as [sub|] eqn:Hfind.
    + pose proof HT as (_ & _ & HT').
      pose proof (HT' _ _ _ Hfind) as (nd & Hnd & Hsubr & Hss & _).
      eapply (IH sub (e' :: r') shm shm' es' el); try eassumption.
      * unfold self_of. rewrite Hnd.
        destruct (Nat.eqb_spec sub (tree shm)) as [|_]; [congruence|].
        exact Hss.
      * intros _. right. exact Hel.
      * intros e1 es1 _. split; [exact Hel|]. intros ?. congruence.
    + destruct (createSubNode e (Z.lor FLAG_DIRECTORY FLAG_DUMMY)
                  createDataEmpty shm) as [p shm1|x s| |] eqn:Hcr;
        try discriminate.
      2:{ injection Hret as <-.
          apply createSubNode_throws in Hcr as (_ & -> & _).
          split; [reflexivity|]. split; [exact HT|]. auto. }
      pose proof (dummy_heap_step (tree shm) _ _ _ _ _ Hvbase Hvroot Hfind Hcr
                    Hself Hne Hsep) as Hhs.
      destruct (attach_dummy_spec createDataEmpty _ _ _ _ _ Hvbase Hfind Hcr)
        as (Hfst & Hp & Hext & _ & Hfp & _ & Hk4
            & (ndp & Hndp & _ & _ & _ & Nself & _) & _).
      rewrite Hfst in Hret |- *.
      set (shm4 := snd (attach_dummy base e p shm1)) in *.
      assert (Htree4 : tree shm4 = tree shm) by (destruct Hext as [H _]; exact H).
      assert (HT4 : tree_linked (segment shm4) (tree shm))
        by (eapply heap_step_tree; [exact Hhs | exact HT]).
      assert (Hpr : p <> tree shm).
      { intros Heq. apply valid_spec in Hvroot as [x Hx].
        apply lookup_lt_Some in Hx. lia. }
      assert (Hel4 : NodeMap.find (c_str el) (kids shm4 (tree shm)) = None).
      { rewrite Hk4. destruct (Nat.eqb_spec (tree shm) base) as [Heq|_];
          [|exact Hel].
        rewrite find_assign. rewrite ci_equiv_comm, (Hfirst (eq_sym Heq)).
        rewrite <- Heq. exact Hel. }
      destruct (IH p (e' :: r') shm4 shm' es' el) as (Htree' & HT' & Hthrow);
        try eassumption.
      * rewrite Htree4. exact HT4.
      * unfold self_of. rewrite Hndp, Htree4.
        destruct (Nat.eqb_spec p (tree shm)) as [|_]; [congruence|].
        exact Nself.
      * intros _. right. rewrite Htree4. exact Hel4.
      * intros e1 es1 _. rewrite Htree4. split; [exact Hel4|].
        intros ?. congruence.
      * split; [congruence|]. split; [exact HT'|].
        intros x Hx _. rewrite <- Htree4. apply (Hthrow x Hx).
        rewrite Htree4. exact Hel4.
Qed.

End Steps.


End LinkedFacts.
(** ** Migration keeps the nodes linked *)

Module MigrateFacts.

Import TreeContainer CIOrder NodeMapFacts StoreFacts AddNodeFacts CopyFacts.
Import LinkedFacts.

Section Migrate.

Context {NodeDataT : Type} (createDataEmpty : NodeDataT).

#[local] Abbreviation SharedMemoryT := (@SharedMemoryT NodeDataT).
#[local] Abbreviation kids shm q := (nodes_of (segment shm) q).

Lemma owns_self_lt dest (shm : SharedMemoryT) :
  owns_self dest shm -> (dest < length (segment shm))%nat.
Proof. intros (nd & Hd & _). eapply lookup_lt_Some; eauto. Qed.

Lemma root_lt (shm : SharedMemoryT) :
  tree_linked (segment shm) (tree shm) ->
  (tree shm < length (segment shm))%nat.
Proof. intros ((nr & Hr & _) & _). eapply lookup_lt_Some; eauto. Qed.

Lemma targets_lt (shm : SharedMemoryT) q x c :
  tree_linked (segment shm) (tree shm) ->
  NodeMap.find x (kids shm q) = Some c ->
  (c < length (segment shm))%nat.
Proof.
  intros (_ & _ & HT) Hf. destruct (HT _ _ _ Hf) as (nd & Hnd & _).
  eapply lookup_lt_Some; eauto.
Qed.

(** The node that [copyChildren] makes for a child, with its [m_Self]. *)
Lemma fresh_child (shm : SharedMemoryT) newNode shm1 :
  tree_linked (segment shm) (tree shm) ->
  createSubNode "" 1 createDataEmpty shm = Returns newNode shm1 ->
  let shm2 := modify newNode (set_Self (Some newNode)) shm1 in
  newNode = length (segment shm)
  /\ tree shm2 = tree shm
  /\ length (segment shm2) = S (length (segment shm))
  /\ (exists n2, segment shm2 !! newNode = Some n2
                 /\ m_Self n2 = Some newNode /\ m_Nodes n2 = [])
  /\ (forall q, q <> newNode -> segment shm2 !! q = segment shm !! q)
  /\ (forall q, kids shm2 q = kids shm q)
  /\ tree_linked (segment shm2) (tree shm2)
  /\ no_target newNode shm2
  /\ owns_self newNode shm2.
Proof.
  intros HT Hcr. pose proof Hcr as Hlen.
  unfold createSubNode in Hlen. apply construct_inv in Hlen as (_ & Hshm1 & _).
  apply createSubNode_inv in Hcr as (Hp & Hext & Hv1 & Hv0 & Hk & Hn & Hold).
  cbn zeta. set (shm2 := modify newNode (set_Self (Some newNode)) shm1).
  assert (Htree : tree shm2 = tree shm) by (destruct Hext as [H _]; exact H).
  assert (Hl2 : length (segment shm2) = S (length (segment shm))).
  { unfold shm2. simpl. rewrite update_length, Hshm1. simpl.
    rewrite length_app. simpl. lia. }
  assert (H2n : segment shm2 !! newNode
                = Some (mkNode (to_TreeFlags 1) None (Some newNode) (c_str "")
                               createDataEmpty [])).
  { unfold shm2. rewrite modify_lookup, Nat.eqb_refl, Hn. reflexivity. }
  assert (H2old : forall q, q <> newNode ->
                            segment shm2 !! q = segment shm !! q).
  { intros q Hq. unfold shm2. rewrite modify_lookup.
    destruct (Nat.eqb_spec q newNode) as [|_]; [congruence|]. apply Hold.
    exact Hq. }
  assert (Hk2 : forall q, kids shm2 q = kids shm q).
  { intros q. unfold shm2. rewrite kids_modify_keep by reflexivity. apply Hk. }
  assert (Hroot : tree shm <> newNode).
  { apply root_lt in HT. lia. }
  assert (Hnt : forall q x, NodeMap.find x (kids shm q) <> Some newNode).
  { intros q x Hf. apply (targets_lt _ _ _ _ HT) in Hf. lia. }
  split; [exact Hp|]. split; [exact Htree|]. split; [exact Hl2|].
  split; [eexists; split; [exact H2n | split; reflexivity]|].
  split; [exact H2old|]. split; [exact Hk2|].
  split; [|split].
  - rewrite Htree. destruct HT as ((nr & Hr & Hsr) & Hsorted & HT).
    split; [|split].
    + exists nr. rewrite H2old by congruence. auto.
    + intros q nd Hq. destruct (Nat.eq_dec q newNode) as [->|Hqn].
      * rewrite H2n in Hq. injection Hq as <-. exact I.
      * rewrite H2old in Hq by exact Hqn. eapply Hsorted; exact Hq.
    + intros q x c Hf. rewrite Hk2 in Hf.
      pose proof (HT _ _ _ Hf) as Hok.
      destruct (child_ok_exists _ _ _ _ _ Hok) as [nd Hnd].
      eapply child_ok_keep; [exact Hnd | | exact Hok].
      exists nd. rewrite H2old; [auto|].
      intros ->. apply (Hnt _ _ Hf).
  - intros q x. rewrite Hk2. apply Hnt.
  - eexists. split; [exact H2n|]. rewrite Htree. cbn [m_Self].
    destruct (Nat.eqb_spec newNode (tree shm)) as [|_]; [congruence|].
    reflexivity.
Qed.

Lemma kept_refl dest (shm : SharedMemoryT) : kept dest shm shm.
Proof.
  split; [reflexivity|]. split; [lia|].
  split; [intros q nd Hq; eauto|]. intros q x c Hf. left. exact Hf.
Qed.

Lemma kept_trans dest (a b c : SharedMemoryT) :
  kept dest a b -> kept dest b c -> kept dest a c.
Proof.
  intros (Ht1 & Hl1 & Hf1 & Hk1) (Ht2 & Hl2 & Hf2 & Hk2).
  split; [congruence|]. split; [lia|].
  split.
  - intros q nd Hq. destruct (Hf1 _ _ Hq) as (nd1 & Hq1 & Hs1 & Hp1 & Hn1).
    destruct (Hf2 _ _ Hq1) as (nd2 & Hq2 & Hs2 & Hp2 & Hn2).
    exists nd2. split; [exact Hq2|]. split; [congruence|].
    split; [congruence|]. intros Hne. rewrite Hn2, Hn1; auto.
  - intros q x t Hf. destruct (Hk2 _ _ _ Hf) as [Hb|[Hb1 Hb2]].
    + apply Hk1. exact Hb.
    + right. split; [lia|]. destruct Hb2 as [->|Hb2]; [auto | right; lia].
Qed.

Section Copy.

Variable old : store NodeDataT.

Section Children.

Variable copy : ptr -> ptr -> SharedMemoryT -> outcome SharedMemoryT unit.

(** The copy of a child does what the copy of a tree does. *)
Hypothesis Hcopy :
  forall dest ref (shm shm' : SharedMemoryT),
    tree_linked (segment shm) (tree shm) ->
    no_target dest shm ->
    owns_self dest shm ->
    state_of (copy dest ref shm) = Some shm' ->
    kept dest shm shm'
    /\ tree_linked (segment shm') (tree shm')
    /\ (forall r, copy dest ref shm = Returns r shm' ->
          exists nr nd',
            old !! ref = Some nr
            /\ segment shm' !! dest = Some nd'
            /\ m_Name nd' = c_str (m_Name nr)).

(** The copy of a child that throws. *)
Lemma copy_child_throws dest (kv : string * ptr) (shm : SharedMemoryT) newNode
    shm1 x s :
  tree_linked (segment shm) (tree shm) ->
  owns_self dest shm ->
  createSubNode "" 1 createDataEmpty shm = Returns newNode shm1 ->
  copy newNode (snd kv) (modify newNode (set_Self (Some newNode)) shm1)
    = Throws x s ->
  kept dest shm s
  /\ (forall nd, segment shm !! dest = Some nd ->
        exists nd', segment s !! dest = Some nd' /\ m_Name nd' = m_Name nd)
  /\ tree_linked (segment s) (tree s)
  /\ (forall y c, NodeMap.find y (kids s dest) = Some c ->
                  NodeMap.find y (kids shm dest) = Some c).
Proof.
  intros HT Hown Hcr Hc.
  destruct (fresh_child _ _ _ HT Hcr)
    as (Hp & Ht2 & Hl2 & _ & H2old & Hk2 & HT2 & Hnt2 & Hown2).
  set (shm2 := modify newNode (set_Self (Some newNode)) shm1) in *.
  destruct (Hcopy newNode (snd kv) shm2 s HT2 Hnt2 Hown2)
    as ((Ht3 & Hl3 & Hf3 & Hk3) & HT3 & _); [rewrite Hc; reflexivity|].
  pose proof (owns_self_lt _ _ Hown) as Hdlt.
  assert (Hfields : forall q nd, segment shm !! q = Some nd ->
            exists nd', segment s !! q = Some nd'
                        /\ m_Self nd' = m_Self nd
                        /\ m_Parent nd' = m_Parent nd
                        /\ m_Name nd' = m_Name nd).
  { intros q nd Hq.
    assert (Hqn : q <> newNode) by (apply lookup_lt_Some in Hq; lia).
    rewrite <- H2old in Hq by exact Hqn.
    destruct (Hf3 _ _ Hq) as (nd' & H1 & H2 & H3 & H4). eauto 10. }
  split; [|split; [|split]].
  - split; [congruence|]. split; [lia|].
    split.
    + intros q nd Hq. destruct (Hfields _ _ Hq) as (nd' & H1 & H2 & H3 & H4).
      eauto 10.
    + intros q y c Hf. destruct (Hk3 _ _ _ Hf) as [Hb|[Hb1 Hb2]].
      * left. rewrite <- Hk2. exact Hb.
      * right. split; [lia|]. right. destruct Hb2 as [->|Hb2]; lia.
  - intros nd Hd. destruct (Hfields _ _ Hd) as (nd' & H1 & _ & _ & H4). eauto.
  - exact HT3.
  - intros y c Hf. destruct (Hk3 _ _ _ Hf) as [Hb|[Hb1 Hb2]].
    + rewrite <- Hk2. exact Hb.
    + exfalso. destruct Hb2 as [Hb2|Hb2]; lia.
Qed.

(** The copy of a child that returns, linked into [dest]. *)
Lemma copy_child_linked dest (kv : string * ptr) (shm : SharedMemoryT) newNode
    shm1 r shm3 :
  named old kv ->
  tree_linked (segment shm) (tree shm) ->
  no_target dest shm ->
  owns_self dest shm ->
  createSubNode "" 1 createDataEmpty shm = Returns newNode shm1 ->
  copy newNode (snd kv) (modify newNode (set_Self (Some newNode)) shm1)
    = Returns r shm3 ->
  let shm5 := link_child dest newNode shm3 in
  kept dest shm shm5
  /\ (forall nd, segment shm !! dest = Some nd ->
        exists nd', segment shm5 !! dest = Some nd' /\ m_Name nd' = m_Name nd)
  /\ tree_linked (segment shm5) (tree shm5)
  /\ no_target dest shm5
  /\ owns_self dest shm5
  /\ (forall y c, NodeMap.find y (kids shm5 dest) = Some c ->
                  NodeMap.find y (kids shm dest) = Some c
                  \/ ci_equiv (fst kv) y = true).
Proof.
  intros (nc & Hnc & Hncne & Hncsep & Hnck) HT Hnt Hown Hcr Hc.
  destruct (fresh_child _ _ _ HT Hcr)
    as (Hp & Ht2 & Hl2 & (n2 & H2n & H2self & _) & H2old & Hk2 & HT2 & Hnt2
        & Hown2).
  set (shm2 := modify newNode (set_Self (Some newNode)) shm1) in *.
  destruct (Hcopy newNode (snd kv) shm2 shm3 HT2 Hnt2 Hown2)
    as ((Ht3 & Hl3 & Hf3 & Hk3) & HT3 & Hname3); [rewrite Hc; reflexivity|].
  destruct (Hname3 _ Hc) as (nr & n3 & Hnr & H3n & H3name).
  assert (nr = nc) by congruence. subst nr.
  destruct (Hf3 _ _ H2n) as (n3' & H3n' & H3self & _).
  assert (n3' = n3) by congruence. subst n3'.
  pose proof (owns_self_lt _ _ Hown) as Hdlt.
  pose proof (root_lt _ HT) as Hrlt.
  destruct Hown as (nd & Hd & Hdself).
  assert (Hdn : newNode <> dest) by lia.
  assert (Hfields3 : forall q nq, segment shm !! q = Some nq ->
            exists nq', segment shm3 !! q = Some nq'
                        /\ m_Self nq' = m_Self nq
                        /\ m_Parent nq' = m_Parent nq
                        /\ m_Name nq' = m_Name nq).
  { intros q nq Hq.
    assert (Hqn : q <> newNode) by (apply lookup_lt_Some in Hq; lia).
    rewrite <- H2old in Hq by exact Hqn.
    destruct (Hf3 _ _ Hq) as (nq' & H1 & H2 & H3 & H4). eauto 10. }
  destruct (Hfields3 _ _ Hd) as (nd3 & H3d & Hd3self & Hd3par & Hd3name).
  destruct (link_child_spec dest newNode shm3 n3 nd3 H3n H3d Hdn)
    as (Ht5 & _ & Hl5 & H5other & H5dest & H5new).
  cbn zeta. set (shm5 := link_child dest newNode shm3) in *.
  assert (Hk5 : forall q, kids shm5 q =
                          if Nat.eqb q dest
                          then NodeMap.assign (m_Name n3) newNode (kids shm3 dest)
                          else kids shm3 q).
  { intros q. unfold nodes_of.
    destruct (Nat.eqb_spec q dest) as [->|Hqd].
    - rewrite H5dest, H3d. reflexivity.
    - destruct (Nat.eq_dec q newNode) as [->|Hqn].
      + rewrite H5new, H3n. reflexivity.
      + rewrite H5other by assumption. reflexivity. }
  assert (Hnt3 : forall q y, NodeMap.find y (kids shm3 q) <> Some newNode).
  { intros q y Hf. destruct (Hk3 _ _ _ Hf) as [Hb|[Hb1 _]].
    - exact (Hnt2 _ _ Hb).
    - lia. }
  assert (Hfields5 : forall q nq, segment shm3 !! q = Some nq ->
            q <> newNode ->
            exists nq', segment shm5 !! q = Some nq'
                        /\ m_Self nq' = m_Self nq
                        /\ m_Parent nq' = m_Parent nq
                        /\ m_Name nq' = m_Name nq).
  { intros q nq Hq Hqn. destruct (Nat.eq_dec q dest) as [->|Hqd].
    - assert (nq = nd3) by congruence. subst nq.
      rewrite H5dest. eexists. split; [reflexivity|]. auto.
    - rewrite H5other by assumption. eauto. }
  assert (Hfinds : forall q y c,
            NodeMap.find y (kids shm5 q) = Some c ->
            (q = dest /\ c = newNode /\ ci_equiv (m_Name n3) y = true)
            \/ NodeMap.find y (kids shm3 q) = Some c).
  { intros q y c Hf. rewrite Hk5 in Hf.
    destruct (Nat.eqb_spec q dest) as [->|Hqd]; [|auto].
    rewrite find_assign in Hf.
    destruct (ci_equiv (m_Name n3) y) eqn:He; [|auto].
    injection Hf as <-. auto. }
  assert (Hkept : kept dest shm shm5).
  { split; [congruence|]. split; [lia|].
    split.
    - intros q nq Hq.
      assert (Hqn : q <> newNode) by (apply lookup_lt_Some in Hq; lia).
      destruct (Hfields3 _ _ Hq) as (nq3 & H1 & H2 & H3 & H4).
      destruct (Hfields5 _ _ H1 Hqn) as (nq5 & G1 & G2 & G3 & G4).
      exists nq5. split; [exact G1|]. split; [congruence|].
      split; [congruence|]. intros _. congruence.
    - intros q y c Hf.
      destruct (Hfinds _ _ _ Hf) as [(-> & -> & _)|Hf3'].
      + right. split; [lia | auto].
      + destruct (Hk3 _ _ _ Hf3') as [Hb|[Hb1 Hb2]].
        * left. rewrite <- Hk2. exact Hb.
        * right. split; [lia|]. right. destruct Hb2 as [->|Hb2]; lia. }
  split; [exact Hkept|].
  split.
  { intros nd0 Hd0. assert (nd0 = nd) by congruence. subst nd0.
    rewrite H5dest. eexists. split; [reflexivity|]. exact Hd3name. }
  split.
  { assert (Hroot5 : tree shm5 = tree shm) by congruence.
    assert (Hroot3 : tree shm3 = tree shm) by congruence.
    rewrite Hroot5. rewrite Hroot3 in HT3.
    destruct HT3 as ((nr & Hr & Hsr) & Hsorted3 & HT3).
    split; [|split].
    - assert (Hrn : tree shm <> newNode) by lia.
      destruct (Hfields5 _ _ Hr Hrn) as (nr5 & G1 & G2 & _).
      exists nr5. split; [exact G1 | congruence].
    - intros q nq Hq. destruct (Nat.eq_dec q dest) as [->|Hqd].
      + rewrite H5dest in Hq. injection Hq as <-. cbn.
        apply assign_sorted. eapply Hsorted3; exact H3d.
      + destruct (Nat.eq_dec q newNode) as [->|Hqn].
        * rewrite H5new in Hq. injection Hq as <-. cbn.
          eapply Hsorted3; exact H3n.
        * rewrite H5other in Hq by assumption. eapply Hsorted3; exact Hq.
    - intros q y c Hf.
      destruct (Hfinds _ _ _ Hf) as [(-> & -> & He)|Hf3'].
      + exists (set_Parent (m_Self nd3) n3).
        split; [exact H5new|]. split; [lia|].
        cbn. split; [congruence|].
        split; [rewrite Hd3self; exact Hdself|].
        split; [rewrite ci_equiv_comm; exact He|].
        rewrite H3name, c_str_idem. auto.
      + pose proof (HT3 _ _ _ Hf3') as Hok.
        destruct (child_ok_exists _ _ _ _ _ Hok) as [ncd Hncd].
        eapply child_ok_keep; [exact Hncd | | exact Hok].
        apply Hfields5; [exact Hncd|].
        intros ->. exact (Hnt3 _ _ Hf3'). }
  split.
  { intros q y Hf. destruct Hkept as (_ & _ & _ & Hk).
    destruct (Hk _ _ _ Hf) as [Hb|[Hb1 _]]; [exact (Hnt _ _ Hb) | lia]. }
  split.
  { eexists. split; [exact H5dest|].
    replace (tree shm5) with (tree shm) by congruence.
    cbn [m_Self set_Nodes]. rewrite Hd3self. exact Hdself. }
  intros y c Hf.
  destruct (Hfinds _ _ _ Hf) as [(_ & -> & He)|Hf3'].
  - right. eapply ci_equiv_trans; [|exact He].
    rewrite H3name, ci_equiv_c_str_r. exact Hnck.
  - destruct (Hk3 _ _ _ Hf3') as [Hb|[Hb1 Hb2]].
    + left. rewrite <- Hk2. exact Hb.
    + exfalso. destruct Hb2 as [Hb2|Hb2]; lia.
Qed.

(** The loop of [copyTree] over the children. *)
Lemma copyChildren_linked dest :
  forall kvs (shm shm' : SharedMemoryT),
    Forall (named old) kvs ->
    tree_linked (segment shm) (tree shm) ->
    no_target dest shm ->
    owns_self dest shm ->
    state_of (copyChildren createDataEmpty copy dest kvs shm) = Some shm' ->
    kept dest shm shm'
    /\ (forall nd, segment shm !! dest = Some nd ->
          exists nd', segment shm' !! dest = Some nd'
                      /\ m_Name nd' = m_Name nd)
    /\ tree_linked (segment shm') (tree shm')
    /\ (forall y c, NodeMap.find y (kids shm' dest) = Some c ->
                    NodeMap.find y (kids shm dest) = Some c
                    \/ Exists (fun kv => ci_equiv (fst kv) y = true) kvs).
Proof.
  induction kvs as [|kv kvs IH]; intros shm shm' Hnamed HT Hnt Hown Hret.
  - simpl in Hret. injection Hret as <-.
    split; [apply kept_refl|]. split; [eauto|]. split; [exact HT|]. auto.
  - apply Forall_cons in Hnamed as [Hkv Hnamed].
    rewrite copyChildren_cons in Hret.
    destruct (createSubNode "" 1 createDataEmpty shm)
      as [newNode shm1|x s| |] eqn:Hcr; try discriminate.
    2:{ injection Hret as <-.
        apply createSubNode_throws in Hcr as (_ & -> & _).
        split; [apply kept_refl|]. split; [eauto|]. split; [exact HT|]. auto. }
    destruct (copy newNode (snd kv)
                (modify newNode (set_Self (Some newNode)) shm1))
      as [r shm3|x s| |] eqn:Hc; try discriminate.
    + destruct (copy_child_linked dest kv shm newNode shm1 r shm3 Hkv HT Hnt
                  Hown Hcr Hc) as (Hk5 & Hn5 & HT5 & Hnt5 & Hown5 & Hf5).
      destruct (IH _ _ Hnamed HT5 Hnt5 Hown5 Hret) as (Hk' & Hn' & HT' & Hf').
      split; [eapply kept_trans; eassumption|].
      split.
      { intros nd Hd. destruct (Hn5 _ Hd) as (nd5 & Hd5 & Hname5).
        destruct (Hn' _ Hd5) as (nd' & Hd' & Hname'). exists nd'.
        split; [exact Hd' | congruence]. }
      split; [exact HT'|].
      intros y c Hf. destruct (Hf' _ _ Hf) as [Hb|Hb].
      * destruct (Hf5 _ _ Hb) as [Ha|Ha]; [auto|].
        right. apply Exists_cons_hd. exact Ha.
      * right. apply Exists_cons_tl. exact Hb.
    + injection Hret as <-.
      destruct (copy_child_throws dest kv shm newNode shm1 x s HT Hown Hcr
                  Hc) as (Hk5 & Hn5 & HT5 & Hf5).
      split; [exact Hk5|]. split; [exact Hn5|]. split; [exact HT5|].
      intros y c Hf. left. apply Hf5. exact Hf.
Qed.

End Children.

(** The entries of the maps of a linked tree lead to named nodes. *)
Lemma entries_named rootOld ref r :
  tree_linked old rootOld -> old !! ref = Some r ->
  Forall (named old) (m_Nodes r).
Proof.
  intros (_ & Hsorted & HT) Hr. apply List.Forall_forall. intros [k c] Hin.
  pose proof (sorted_In_find k c _ (Hsorted _ _ Hr) Hin) as Hf.
  assert (Hf' : NodeMap.find k (nodes_of old ref) = Some c)
    by (unfold nodes_of; rewrite Hr; exact Hf).
  destruct (HT _ _ _ Hf') as (nc & Hnc & _ & _ & _ & Hk & Hne & Hsep).
  exists nc. cbn [fst snd]. auto.
Qed.

Lemma entry_found rootOld ref r y :
  tree_linked old rootOld -> old !! ref = Some r ->
  Exists (fun kv => ci_equiv (fst kv) y = true) (m_Nodes r) ->
  NodeMap.find y (nodes_of old ref) <> None.
Proof.
  intros (_ & Hsorted & _) Hr Hex. apply List.Exists_exists in Hex
    as ([k c] & Hin & He). cbn [fst] in He.
  pose proof (sorted_In_find k c _ (Hsorted _ _ Hr) Hin) as Hf.
  unfold nodes_of. rewrite Hr, <- (find_equiv _ _ _ He), Hf. discriminate.
Qed.

(** [copyTree] leaves a linked tree, whether it returns or throws; the
    names found in the destination are names found in the reference. *)
Lemma copyTree_linked rootOld :
  tree_linked old rootOld ->
  forall fuel dest ref (shm shm' : SharedMemoryT),
    tree_linked (segment shm) (tree shm) ->
    no_target dest shm ->
    owns_self dest shm ->
    state_of (copyTree createDataEmpty fuel old dest ref shm) = Some shm' ->
    kept dest shm shm'
    /\ tree_linked (segment shm') (tree shm')
    /\ (forall r, copyTree createDataEmpty fuel old dest ref shm
                  = Returns r shm' ->
          exists nr nd',
            old !! ref = Some nr
            /\ segment shm' !! dest = Some nd'
            /\ m_Name nd' = c_str (m_Name nr))
    /\ (forall y c, NodeMap.find y (kids shm' dest) = Some c ->
                    NodeMap.find y (kids shm dest) = Some c
                    \/ NodeMap.find y (nodes_of old ref) <> None).
Proof.
  intros Hold. induction fuel as [|fuel IH];
    intros dest ref shm shm' HT Hnt Hown Hret; [discriminate|].
  cbn [copyTree] in Hret |- *.
  destruct (old !! ref) as [r|] eqn:Hr; [|discriminate].
  set (shm3 := modify dest (set_Name (c_str (m_Name r)))
                 (modify dest (set_Data (m_Data r))
                    (modify dest (set_Flags (m_Flags r)) shm))) in *.
  pose proof Hown as (nd & Hd & Hdself).
  assert (H3d : segment shm3 !! dest
                = Some (set_Name (c_str (m_Name r))
                          (set_Data (m_Data r) (set_Flags (m_Flags r) nd)))).
  { unfold shm3. rewrite !modify_lookup, !Nat.eqb_refl, Hd. reflexivity. }
  assert (H3o : forall q, q <> dest -> segment shm3 !! q = segment shm !! q).
  { intros q Hq. unfold shm3. rewrite !modify_lookup.
    destruct (Nat.eqb_spec q dest) as [|_]; [congruence|]. reflexivity. }
  assert (Hk3 : forall q, kids shm3 q = kids shm q).
  { intros q. unfold shm3. rewrite !kids_modify_keep by reflexivity.
    reflexivity. }
  assert (Ht3 : tree shm3 = tree shm) by reflexivity.
  assert (Hl3 : length (segment shm3) = length (segment shm)).
  { unfold shm3. simpl. rewrite !update_length. reflexivity. }
  assert (Hfields : forall q nq, segment shm !! q = Some nq ->
            exists nq', segment shm3 !! q = Some nq'
                        /\ m_Self nq' = m_Self nq
                        /\ m_Parent nq' = m_Parent nq
                        /\ (q <> dest -> m_Name nq' = m_Name nq)).
  { intros q nq Hq. destruct (Nat.eq_dec q dest) as [->|Hqd].
    - assert (nq = nd) by congruence. subst nq. rewrite H3d.
      eexists. split; [reflexivity|]. cbn.
      split; [reflexivity|]. split; [reflexivity|]. congruence.
    - rewrite H3o by exact Hqd. eauto 10. }
  assert (Hkept3 : kept dest shm shm3).
  { split; [exact Ht3|]. split; [lia|]. split; [exact Hfields|].
    intros q y c Hf. left. rewrite <- Hk3. exact Hf. }
  assert (HT3 : tree_linked (segment shm3) (tree shm3)).
  { rewrite Ht3. destruct HT as ((nr & Hnr & Hsr) & Hsorted & HT).
    split; [|split].
    - destruct (Hfields _ _ Hnr) as (nr' & H1 & H2 & _). exists nr'.
      split; [exact H1 | congruence].
    - intros q nq Hq. destruct (Nat.eq_dec q dest) as [->|Hqd].
      + rewrite H3d in Hq. injection Hq as <-. cbn. eapply Hsorted; exact Hd.
      + rewrite H3o in Hq by exact Hqd. eapply Hsorted; exact Hq.
    - intros q y c Hf. rewrite Hk3 in Hf.
      pose proof (HT _ _ _ Hf) as Hok.
      destruct (child_ok_exists _ _ _ _ _ Hok) as [ncd Hncd].
      eapply child_ok_keep; [exact Hncd | | exact Hok].
      exists ncd. rewrite H3o; [auto|]. intros ->. exact (Hnt _ _ Hf). }
  assert (Hnt3 : no_target dest shm3).
  { intros q y. rewrite Hk3. apply Hnt. }
  assert (Hown3 : owns_self dest shm3).
  { eexists. split; [exact H3d|]. rewrite Ht3. cbn. exact Hdself. }
  destruct (copyChildren_linked (copyTree createDataEmpty fuel old))
    with (dest := dest) (kvs := m_Nodes r) (shm := shm3) (shm' := shm')
    as (Hk' & Hn' & HT' & Hf'); try assumption.
  { intros dest0 ref0 shm0 shm0' H1 H2 H3 H4.
    destruct (IH dest0 ref0 shm0 shm0' H1 H2 H3 H4) as (G1 & G2 & G3 & _).
    auto. }
  { eapply entries_named; eassumption. }
  split; [eapply kept_trans; eassumption|].
  split; [exact HT'|].
  split.
  { intros _ _. destruct (Hn' _ H3d) as (nd' & Hd' & Hname').
    exists r, nd'. split; [reflexivity|]. split; [exact Hd'|].
    rewrite Hname'. reflexivity. }
  intros y c Hf. destruct (Hf' _ _ Hf) as [Hb|Hb].
  - left. rewrite <- Hk3. exact Hb.
  - right. eapply entry_found; eassumption.
Qed.

End Copy.

(** The tree that [activateSHM] leaves in the new segment, copied or half
    copied, is linked; a name of no top-level node before is the name of
    none afterwards. *)
Lemma activateSHM_linked fuel (o : SharedMemoryT) SHMName size c' :
  tree_linked (segment o) (tree o) ->
  state_of (activateSHM createDataEmpty fuel (Some o) SHMName size)
    = Some c' ->
  segment (m_SHM c') = []
  \/ (tree_linked (segment (m_SHM c')) (tree (m_SHM c'))
      /\ forall y, NodeMap.find y (kids o (tree o)) = None ->
                   NodeMap.find y (kids (m_SHM c') (tree (m_SHM c'))) = None).
Proof.
  intros Hold. unfold activateSHM.
  destruct (construct _ _) as [root shm0|x s| |] eqn:Hcon; try discriminate.
  2:{ intros H. injection H as <-.
      apply construct_throws in Hcon as (_ & -> & _). left. reflexivity. }
  apply construct_inv in Hcon as (-> & -> & Hsize).
  cbn [segment with_segment length app].
  set (rootNode := mkNode (to_TreeFlags 1) None None "" createDataEmpty []).
  set (shm1 := mkSHM size [rootNode] 0%nat 0 false).
  assert (Hk1 : forall q, kids shm1 q = []).
  { intros [|q]; reflexivity. }
  assert (HT1 : tree_linked (segment shm1) (tree shm1)).
  { split; [|split].
    - exists rootNode. split; reflexivity.
    - intros [|q] nd Hq; [|discriminate]. injection Hq as <-. exact I.
    - intros q y c Hf. rewrite Hk1 in Hf. discriminate. }
  assert (Hnt1 : no_target 0%nat shm1).
  { intros q y. rewrite Hk1. discriminate. }
  assert (Hown1 : owns_self 0%nat shm1).
  { exists rootNode. split; reflexivity. }
  destruct (copyTree createDataEmpty fuel (segment o) 0%nat (tree o) shm1)
    as [r shm2|x s| |] eqn:Hc; try discriminate.
  - intros H. injection H as <-. cbn [m_SHM segment tree].
    destruct (copyTree_linked (segment o) (tree o) Hold fuel 0%nat (tree o)
                shm1 shm2 HT1 Hnt1 Hown1)
      as ((Ht2 & _) & HT2 & _ & Hf2); [rewrite Hc; reflexivity|].
    right. rewrite Ht2 in HT2. split; [exact HT2|].
    intros y Hy. destruct (NodeMap.find y (kids shm2 0%nat)) as [c|] eqn:Hf;
      [|reflexivity].
    destruct (Hf2 _ _ Hf) as [Hb|Hb]; [rewrite Hk1 in Hb; discriminate|].
    contradiction.
  - intros H. injection H as <-. cbn [m_SHM].
    destruct (copyTree_linked (segment o) (tree o) Hold fuel 0%nat (tree o)
                shm1 s HT1 Hnt1 Hown1)
      as ((Ht2 & _) & HT2 & _ & Hf2); [rewrite Hc; reflexivity|].
    right. split; [exact HT2|]. rewrite Ht2. cbn [tree shm1].
    intros y Hy. destruct (NodeMap.find y (kids s 0%nat)) as [c|] eqn:Hf;
      [|reflexivity].
    destruct (Hf2 _ _ Hf) as [Hb|Hb]; [rewrite Hk1 in Hb; discriminate|].
    contradiction.
Qed.

(** The container that the constructor leaves has a root alone. *)
Lemma attach_linked SHMName size c :
  attach createDataEmpty SHMName size = Returns tt c ->
  tree_linked (segment (m_SHM c)) (tree (m_SHM c)).
Proof.
  unfold attach, activateSHM.
  destruct (construct _ _) as [root shm0|x s| |] eqn:Hcon; try discriminate.
  apply construct_inv in Hcon as (-> & -> & Hsize).
  intros H. injection H as <-. cbn.
  split; [|split].
  - eexists. split; reflexivity.
  - intros [|q] nd Hq; [|discriminate]. injection Hq as <-. exact I.
  - intros [|q] y c Hf; discriminate.
Qed.

Lemma reassign_linked c c' :
  tree_linked (segment (m_SHM c)) (tree (m_SHM c)) ->
  state_of (reassign createDataEmpty c) = Some c' ->
  segment (m_SHM c') = []
  \/ (tree_linked (segment (m_SHM c')) (tree (m_SHM c'))
      /\ forall y, NodeMap.find y (kids (m_SHM c) (tree (m_SHM c))) = None ->
                   NodeMap.find y (kids (m_SHM c') (tree (m_SHM c'))) = None).
Proof.
  intros HT. unfold reassign.
  destruct (Name.followupName (m_SHMName c)) as [x|nextName].
  - intros H. injection H as <-. right. split; [exact HT | auto].
  - destruct (activateSHM _ _ _ _ _) as [u c1|x c1| |] eqn:Ha;
      try discriminate; intros H; injection H as <-.
    + apply (f_equal state_of) in Ha. cbn [state_of] in Ha.
      apply activateSHM_linked in Ha; [exact Ha | exact HT].
    + right. split; [exact HT | auto].
Qed.

(** Nothing can be added to a container without segment. *)
Lemma addNode_no_segment fuel base iter data ov flags (shm : SharedMemoryT) :
  segment shm = [] ->
  state_of (addNode createDataEmpty fuel base iter data ov flags shm) = None.
Proof.
  intros Hs. destruct fuel as [|fuel]; [reflexivity|].
  destruct iter as [|e r]; [reflexivity|].
  cbn [TreeContainer.addNode]. unfold valid at 1. rewrite Hs. reflexivity.
Qed.

Lemma addFile_no_segment retries name data flags ov c :
  segment (m_SHM c) = [] ->
  state_of (addFile createDataEmpty retries name data flags ov c) = None.
Proof.
  intros Hempty.
  pose proof (addNode_no_segment (length name) (tree (m_SHM c))
                (Path.path_begin name) data ov (to_TreeFlags flags)
                (m_SHM c) Hempty) as Hno.
  destruct retries; cbn [addFile];
    destruct (addNode _ _ _ _ _ _ _ _); try discriminate; reflexivity.
Qed.

Lemma addDirectory_no_segment retries name data flags ov c :
  segment (m_SHM c) = [] ->
  state_of (addDirectory createDataEmpty retries name data flags ov c) = None.
Proof.
  intros Hempty.
  pose proof (addNode_no_segment (length name) (tree (m_SHM c))
                (Path.path_begin name) data ov
                (Z.lor (to_TreeFlags flags) FLAG_DIRECTORY)
                (m_SHM c) Hempty) as Hno.
  destruct retries; cbn [addDirectory];
    destruct (addNode _ _ _ _ _ _ _ _); try discriminate; reflexivity.
Qed.

(** The condition under which [addNode] from the root does not slip, from
    the words for a path. *)
Lemma addNode_from_root data ov flags name (shm shm' : SharedMemoryT) :
  tree_linked (segment shm) (tree shm) ->
  names_only name ->
  no_shadow (segment shm) (tree shm) name ->
  state_of (addNode createDataEmpty (length name) (tree shm)
                    (Path.path_begin name) data ov flags shm) = Some shm' ->
  tree shm' = tree shm
  /\ tree_linked (segment shm') (tree shm')
  /\ (forall x,
        addNode createDataEmpty (length name) (tree shm)
                (Path.path_begin name) data ov flags shm = Throws x shm' ->
        no_shadow (segment shm') (tree shm') name).
Proof.
  intros HT Hnames Hshadow Hret.
  destruct name as [|e r]; [discriminate|].
  assert (Hne : visited (e :: r) <> []) by discriminate.
  destruct (exists_last Hne) as (es & el & Hvis).
  destruct (addNode_tree_linked createDataEmpty data ov flags
              (length (e :: r)) (tree shm) (Path.path_begin (e :: r))
              shm shm' es el) as (Htree & HT' & Hthrow); try assumption.
  - unfold self_of. destruct HT as ((nr & Hnr & Hsr) & _).
    rewrite Hnr, Nat.eqb_refl. exact Hsr.
  - intros _. left. reflexivity.
  - intros e1 es' ->. destruct (Hshadow _ _ _ Hvis) as [H1 H2]. auto.
  - split; [exact Htree|]. split; [exact HT'|].
    intros x Hx e1 es' el' Hvis'. rewrite Htree.
    assert (Heq : es ++ [el] = (e1 :: es') ++ [el'])
      by (rewrite <- Hvis, Hvis'; reflexivity).
    apply app_inj_tail in Heq as [-> ->].
    destruct (Hshadow _ _ _ Hvis) as [H1 H2]. split; [|exact H2].
    apply (Hthrow x Hx). exact H1.
Qed.

Lemma no_shadow_root (h h' : store NodeDataT) root root' name :
  (forall y, NodeMap.find y (nodes_of h root) = None ->
             NodeMap.find y (nodes_of h' root') = None) ->
  no_shadow h root name -> no_shadow h' root' name.
Proof.
  intros Hfinds Hs e1 es el Hvis. destruct (Hs _ _ _ Hvis) as [H1 H2].
  split; [apply Hfinds; exact H1 | exact H2].
Qed.

(** [addFile] of a path that cannot slip leaves a linked tree. *)
Lemma addFile_linked name data flags ov :
  names_only name ->
  forall retries c c',
    tree_linked (segment (m_SHM c)) (tree (m_SHM c)) ->
    no_shadow (segment (m_SHM c)) (tree (m_SHM c)) name ->
    state_of (addFile createDataEmpty retries name data flags ov c)
      = Some c' ->
    well_linked c'.
Proof.
  intros Hnames. induction retries as [|retries IH]; intros c c' HT Hshadow;
    cbn [addFile];
    destruct (addNode createDataEmpty (length name) (tree (m_SHM c))
                (Path.path_begin name) data ov (to_TreeFlags flags) (m_SHM c))
      as [r shm|x shm| |] eqn:Hadd; try discriminate.
  - intros H. injection H as <-. right. cbn [m_SHM with_SHM].
    eapply addNode_from_root; try eassumption. rewrite Hadd. reflexivity.
  - destruct x; try discriminate; intros H; injection H as <-; right;
      cbn [m_SHM with_SHM];
      eapply addNode_from_root; try eassumption; rewrite Hadd; reflexivity.
  - intros H. injection H as <-. right. cbn [m_SHM with_SHM].
    eapply addNode_from_root; try eassumption. rewrite Hadd. reflexivity.
  - destruct (addNode_from_root data ov (to_TreeFlags flags) name (m_SHM c) shm
                HT Hnames Hshadow) as (Htree & HT' & Hthrow);
      [rewrite Hadd; reflexivity|].
    pose proof (Hthrow _ Hadd) as Hshadow'.
    destruct x;
      try (intros H; injection H as <-; right; exact HT').
    destruct (reassign createDataEmpty (with_SHM shm c)) as [u c2|x c2| |]
      eqn:Hre; try discriminate.
    + intros H.
      destruct (reassign_linked (with_SHM shm c) c2 HT') as [Hempty|[HT2 Hf2]];
        [rewrite Hre; reflexivity | |].
      * rewrite (addFile_no_segment _ _ _ _ _ _ Hempty) in H. discriminate.
      * eapply IH; [exact HT2 | | exact H].
        eapply no_shadow_root; [exact Hf2 | exact Hshadow'].
    + intros H. injection H as <-.
      destruct (reassign_linked (with_SHM shm c) c2 HT') as [Hempty|[HT2 _]];
        [rewrite Hre; reflexivity | left; exact Hempty | right; exact HT2].
Qed.

(** [addDirectory] of a path that cannot slip leaves a linked tree. *)
Lemma addDirectory_linked name data flags ov :
  names_only name ->
  forall retries c c',
    tree_linked (segment (m_SHM c)) (tree (m_SHM c)) ->
    no_shadow (segment (m_SHM c)) (tree (m_SHM c)) name ->
    state_of (addDirectory createDataEmpty retries name data flags ov c)
      = Some c' ->
    well_linked c'.
Proof.
  intros Hnames. induction retries as [|retries IH]; intros c c' HT Hshadow;
    cbn [addDirectory];
    destruct (addNode createDataEmpty (length name) (tree (m_SHM c))
                (Path.path_begin name) data ov
                (Z.lor (to_TreeFlags flags) FLAG_DIRECTORY) (m_SHM c))
      as [r shm|x shm| |] eqn:Hadd; try discriminate.
  - intros H. injection H as <-. right. cbn [m_SHM with_SHM].
    eapply addNode_from_root; try eassumption. rewrite Hadd. reflexivity.
  - destruct x; try discriminate; intros H; injection H as <-; right;
      cbn [m_SHM with_SHM];
      eapply addNode_from_root; try eassumption; rewrite Hadd; reflexivity.
  - intros H. injection H as <-. right. cbn [m_SHM with_SHM].
    eapply addNode_from_root; try eassumption. rewrite Hadd. reflexivity.
  - destruct (addNode_from_root data ov
                (Z.lor (to_TreeFlags flags) FLAG_DIRECTORY) name (m_SHM c) shm
                HT Hnames Hshadow) as (Htree & HT' & Hthrow);
      [rewrite Hadd; reflexivity|].
    pose proof (Hthrow _ Hadd) as Hshadow'.
    destruct x;
      try (intros H; injection H as <-; right; exact HT').
    destruct (reassign createDataEmpty (with_SHM shm c)) as [u c2|x c2| |]
      eqn:Hre; try discriminate.
    + intros H.
      destruct (reassign_linked (with_SHM shm c) c2 HT') as [Hempty|[HT2 Hf2]];
        [rewrite Hre; reflexivity | |].
      * rewrite (addDirectory_no_segment _ _ _ _ _ _ Hempty) in H.
        discriminate.
      * eapply IH; [exact HT2 | | exact H].
        eapply no_shadow_root; [exact Hf2 | exact Hshadow'].
    + intros H. injection H as <-.
      destruct (reassign_linked (with_SHM shm c) c2 HT') as [Hempty|[HT2 _]];
        [rewrite Hre; reflexivity | left; exact Hempty | right; exact HT2].
Qed.

(** Every container that insertions which cannot slip lead to is linked. *)
Lemma grown_linked c :
  Ops.grown createDataEmpty slip_free c -> well_linked c.
Proof.
  induction 1 as [SHMName size c Hattach | op c c' Hgrown IH Hok Hperf].
  - right. eapply attach_linked; exact Hattach.
  - destruct IH as [Hempty|HT].
    + exfalso. destruct op as [retries name data flags ov
                              |retries name data flags ov| |];
        try contradiction; cbn [Ops.perform] in Hperf.
      * pose proof (addFile_no_segment retries name data flags ov c Hempty)
          as Hno.
        destruct (addFile _ _ _ _ _ _ _); discriminate.
      * pose proof (addDirectory_no_segment retries name data flags ov c
                      Hempty) as Hno.
        destruct (addDirectory _ _ _ _ _ _ _); discriminate.
    + destruct op as [retries name data flags ov
                     |retries name data flags ov| |];
        try contradiction; destruct Hok as [Hnames Hshadow];
        cbn [Ops.perform] in Hperf.
      * eapply (addFile_linked name data flags ov Hnames retries c c' HT
                  Hshadow).
        destruct (addFile _ _ _ _ _ _ _); try discriminate; exact Hperf.
      * eapply (addDirectory_linked name data flags ov Hnames retries c c' HT
                  Hshadow).
        destruct (addDirectory _ _ _ _ _ _ _); try discriminate; exact Hperf.
Qed.

End Migrate.

(** C4, as the code has it.  In a tree built by [addFile] and
    [addDirectory], returning or throwing, of paths of names that, when
    they have several components, end neither in the name of a top-level
    node nor in their own first name, every node [n] that names lead to
    from the root has a path: [path()] returns, and [findByPath] of the
    root on that path returns [n]. *)
Theorem path_round_trip {NodeDataT : Type} (createDataEmpty : NodeDataT)
    (c : @TreeContainer NodeDataT) (es : list string) (n : ptr)
    (Hgrown : Ops.grown createDataEmpty slip_free c)
    (Hes : es <> [])
    (Hreach : descend (segment (m_SHM c)) (tree (m_SHM c)) es = Some n) :
  exists fuel p,
    DirectoryTree.path (segment (m_SHM c)) fuel n = Some p
    /\ DirectoryTree.findNode (segment (m_SHM c)) (tree (m_SHM c)) p = Some n.
Proof.
  destruct (grown_linked createDataEmpty c Hgrown) as [Hempty|HT].
  - exfalso. rewrite Hempty in Hreach.
    destruct es as [|e es]; [congruence|]. discriminate.
  - destruct (reachable_linked _ _ HT es _ n (or_introl eq_refl) Hes Hreach)
      as [fuel Hlinked].
    destruct (RoundTrip.linked_round_trip _ _ _ _ Hlinked) as (p & Hp & Hf).
    exists fuel, p. auto.
Qed.

Lemma path_round_trip_witness :
  exists c,
    state_of Scenario.migrated = Some c
    /\ exists fuel p,
         DirectoryTree.path (Scenario.nodes c) fuel 3%nat = Some p
         /\ DirectoryTree.findNode (Scenario.nodes c) (Scenario.root c) p
            = Some 3%nat.
Proof.
  eexists. split; [vm_compute; reflexivity|].
  apply (path_round_trip "" _ ["a"; "b"; "c1.txt"]).
  - apply (Ops.grown_perform "" slip_free
             (Ops.AddFile 4 (Path.of_string "a/b/c1.txt") "X1" 0 true)
             (mkContainer "svc_1"
                (mkSHM 3 [mkNode 1 None None "" "" []] 0 1 false))).
    + apply (Ops.grown_attach "" slip_free "svc" 3%nat).
      vm_compute. reflexivity.
    + split.
      * repeat constructor; discriminate.
      * intros e1 es el Hvis. vm_compute in Hvis.
        injection Hvis as <- Hvis.
        destruct es as [|x [|y es]];
          [discriminate | | destruct es; discriminate].
        injection Hvis as _ <-. split; vm_compute; reflexivity.
    + vm_compute. reflexivity.
  - discriminate.
  - vm_compute. reflexivity.
Defined.

End MigrateFacts.


(** ** Insertion and the payload found afterwards *)

(** C1.  After [addFile(p, d, overwrite = true)] the node found at [p]
    should carry [d], the final component being looked for among the
    children of the node that the prefix of [p] leads to.  The code looks
    for it among the children of the root and keeps a node it finds there
    as it is: inserting [f] again leaves the first payload, and inserting
    [a/c] when the root has a child [c] links that child below [a], with
    its old payload.  Only when no top-level node has the name does the
    second insertion at the same path bring its payload. *)
Theorem addFile_overwrite_payload :
  (exists c n,
      Scenario.twice = Returns (Some n) c
      /\ Scenario.findByPath c "f" = Some n
      /\ Scenario.payload_at c "f" = Some "X")
  /\ (exists c n,
      Scenario.shadowed = Returns (Some n) c
      /\ Scenario.findByPath c "c" = Some n
      /\ Scenario.findByPath c "a/c" = Some n
      /\ Scenario.payload_at c "a/c" = Some "X")
  /\ (exists c n,
      Scenario.nested_twice = Returns (Some n) c
      /\ Scenario.findByPath c "a/c" = Some n
      /\ Scenario.payload_at c "a/c" = Some "Y").
Proof.
  repeat split; eexists; eexists; repeat split; vm_compute; reflexivity.
Qed.

(** ** Counting nodes *)

Section Counting.

Context {NodeDataT : Type}.

#[local] Abbreviation count_step h fuel :=
  (fun (result : option nat) (node : string * ptr) =>
     match result, DirectoryTree.numNodesRecursive (NodeDataT := NodeDataT)
                     h fuel (snd node) with
     | Some r, Some k => Some (r + k)%nat
     | _, _ => None
     end).

#[local] Abbreviation size_step h fuel :=
  (fun (total : option nat) (node : string * ptr) =>
     match total, subtree_size (NodeDataT := NodeDataT) h fuel (snd node) with
     | Some t, Some k => Some (t + k)%nat
     | _, _ => None
     end).

Lemma size_step_none h fuel l :
  fold_left (size_step h fuel) l None = None.
Proof. induction l as [|kv l IH]; simpl; auto. Qed.

(** The loop of [numNodesRecursive] against the sum of the sizes, when each
    child's count is one less than twice its size. *)
Lemma count_loop (h : store NodeDataT) fuel l :
  (forall p s, subtree_size h fuel p = Some s ->
     exists r, DirectoryTree.numNodesRecursive h fuel p = Some r
               /\ (r + 1 = 2 * s)%nat) ->
  forall t0 t r0,
    fold_left (size_step h fuel) l (Some t0) = Some t ->
    exists r, fold_left (count_step h fuel) l (Some r0) = Some r
              /\ (r + length l + 2 * t0 = r0 + 2 * t)%nat.
Proof.
  intros IH. induction l as [|kv l IHl]; intros t0 t r0 Hs; simpl in *.
  - injection Hs as <-. exists r0. split; [reflexivity | lia].
  - destruct (subtree_size h fuel (snd kv)) as [k|] eqn:Hk.
    + destruct (IH _ _ Hk) as (rk & Hrk & Hk2). rewrite Hrk.
      destruct (IHl _ _ (r0 + rk)%nat Hs) as (r & Hr & Heq).
      exists r. split; [exact Hr | lia].
    + rewrite size_step_none in Hs. discriminate.
Qed.

(** [numNodesRecursive] counts every node below the one it is called on
    twice: it returns [2 * s - 1] for a subtree of [s] nodes. *)
Lemma numNodesRecursive_twice (h : store NodeDataT) fuel p s :
  subtree_size h fuel p = Some s ->
  exists r, DirectoryTree.numNodesRecursive h fuel p = Some r
            /\ (r + 1 = 2 * s)%nat.
Proof.
  revert p s. induction fuel as [|fuel IH]; intros p s Hs; simpl in *.
  - discriminate.
  - destruct (h !! p) as [n|]; [|discriminate].
    destruct (count_loop h fuel (m_Nodes n) IH 1%nat s
                (DirectoryTree.numNodes n + 1)%nat Hs) as (r & Hr & Heq).
    exists r. split; [exact Hr|]. unfold DirectoryTree.numNodes in Heq. lia.
Qed.

End Counting.

(** C2.  [numNodesRecursive()] should be the number of nodes of the subtree,
    for the root one more than the sum over its children.  With one file
    below the root the tree has two nodes, the child's count is 1, and the
    root's count is 3: the loop adds the children's counts to a start value
    that already holds the number of children. *)
Theorem numNodesRecursive_one_file :
  exists c f,
    Scenario.one_file = Returns (Some f) c
    /\ m_Nodes <$> (Scenario.nodes c !! Scenario.root c) = Some [("f", f)]
    /\ subtree_size (Scenario.nodes c) 2 (Scenario.root c) = Some 2%nat
    /\ DirectoryTree.numNodesRecursive (Scenario.nodes c) 2 f = Some 1%nat
    /\ DirectoryTree.numNodesRecursive (Scenario.nodes c) 2 (Scenario.root c)
       = Some 3%nat.
Proof.
  eexists. eexists. split; [vm_compute; reflexivity|].
  repeat split; vm_compute; reflexivity.
Qed.

(** ** Pattern search *)



(** ** The hook manager singleton *)

Module HookManagerFacts.

Import HookManager.

(** A live object is the one [s_Instance] points to. *)
Lemma live_is_instance cs s :
  reachable cs s -> forall q, In q (live s) -> s_Instance s = Some q.
Proof.
  induction 1 as [|c cs s Hr IH Hp]; intros q Hq.
  - destruct Hq.
  - destruct c as [this completes|this].
    + unfold step, construct in *.
      destruct (s_Instance s) as [p|] eqn:Hi.
      * rewrite Hi. apply IH. exact Hq.
      * destruct completes; simpl in *.
        -- destruct Hq as [->|Hq]; [reflexivity|].
           apply IH in Hq. congruence.
        -- apply IH in Hq. congruence.
    + simpl in *. apply IH. apply filter_In in Hq. tauto.
Qed.

(** [s_Instance] is null as long as no constructor has run. *)
Lemma never_constructed cs s :
  reachable cs s -> forallb (fun c => negb (is_construct c)) cs = true ->
  s_Instance s = None.
Proof.
  induction 1 as [|c cs s Hr IH Hp]; intros Hcs; [reflexivity|].
  simpl in Hcs. apply andb_prop in Hcs as [Hc Hcs].
  destruct c; [discriminate|]. simpl. auto.
Qed.

(** What holds up to the destruction of the instance.  While an instance
    is alive, constructing another throws and leaves the state as it was;
    [instance()] throws when no constructor has run; it returns the live
    instance while there is one, and there is no second one. *)
Theorem singleton_while_alive cs s (Hr : reachable cs s) :
  (forall q, In q (live s) ->
     forall this completes,
       construct this completes s = Throws runtime_error s)
  /\ (forallb (fun c => negb (is_construct c)) cs = true ->
      instance s = Throws runtime_error s)
  /\ (forall q, In q (live s) ->
      instance s = Returns q s /\ forall q', In q' (live s) -> q' = q).
Proof.
  split; [|split].
  - intros q Hq this completes. unfold construct.
    rewrite (live_is_instance _ _ Hr _ Hq). reflexivity.
  - intros Hcs. unfold instance.
    rewrite (never_constructed _ _ Hr Hcs). reflexivity.
  - intros q Hq. split.
    + unfold instance. rewrite (live_is_instance _ _ Hr _ Hq). reflexivity.
    + intros q' Hq'. pose proof (live_is_instance _ _ Hr _ Hq) as H1.
      pose proof (live_is_instance _ _ Hr _ Hq') as H2. congruence.
Qed.

Lemma singleton_while_alive_witness :
  let s := step (Construct 7%nat true) initial in
  construct 8%nat true s = Throws runtime_error s
  /\ instance s = Returns 7%nat s.
Proof.
  assert (Hr : reachable [Construct 7%nat true]
                 (step (Construct 7%nat true) initial)).
  { apply reach_step; [apply reach_initial | simpl; tauto]. }
  destruct (singleton_while_alive _ _ Hr) as (H1 & _ & H3).
  split.
  - apply (H1 7%nat). simpl. left. reflexivity.
  - apply (H3 7%nat). simpl. left. reflexivity.
Defined.

(** C10.  The destructor leaves [s_Instance] as it is.  Once the instance
    has been destroyed no [HookManager] is alive, yet [instance()] does not
    throw: it returns the pointer to the destroyed object; and every later
    construction throws as a duplicate instantiation and leaves the state
    as it is, so no [HookManager] can be made again. *)
Lemma instance_after_destroy :
  exists cs s,
    reachable cs s
    /\ existsb is_construct cs = true
    /\ live s = []
    /\ instance s = Returns 7%nat s
    /\ forall this completes,
         construct this completes s = Throws runtime_error s.
Proof.
  exists [Destroy 7%nat; Construct 7%nat true].
  eexists. split.
  - apply reach_step.
    + apply reach_step; [apply reach_initial | simpl; tauto].
    + simpl. left. reflexivity.
  - repeat split.
Qed.

End HookManagerFacts.

(** ** The operations of a node *)

Module NodeFacts.

Import CIOrder NodeMapFacts PathFacts StoreFacts CopyFacts LinkedFacts.

(** X1.  [CILess] is a strict weak ordering, as a [bi::map] needs it of its
    comparison: no key is less than itself, the order is asymmetric and
    transitive, and the keys that are not ordered either way form classes
    (being the same key is transitive). *)
Theorem CILess_strict_weak_order (a b c : string) :
  CILess a a = false
  /\ (CILess a b = true -> CILess b a = false)
  /\ (CILess a b = true -> CILess b c = true -> CILess a c = true)
  /\ (ci_equiv a b = true -> ci_equiv b c = true -> ci_equiv a c = true).
Proof.
  split; [apply CILess_irrefl|].
  split; [apply CILess_asym|].
  split; [apply CILess_trans | apply ci_equiv_trans].
Qed.

Section Flags.

Context {NodeDataT : Type}.

Lemma to_TreeFlags_land x : to_TreeFlags x = Z.land x 255.
Proof.
  unfold to_TreeFlags. change 255 with (Z.ones 8). rewrite Z.land_ones by lia.
  reflexivity.
Qed.

Lemma flag_low_bits g i : 0 <= g < 256 -> 0 <= i -> Z.testbit g i = true ->
  Z.testbit 255 i = true.
Proof.
  intros Hg Hi Hb. change 255 with (Z.ones 8).
  destruct (Z.lt_ge_cases i 8) as [Hlt|Hge].
  - apply Z.ones_spec_low. lia.
  - exfalso. assert (Hz : Z.testbit g i = false); [|congruence].
    apply Z.bits_above_log2; [lia|].
    destruct (Z.eq_dec g 0) as [->|Hne]; [simpl; lia|].
    apply Z.log2_lt_pow2; [lia|].
    apply Z.lt_le_trans with (2 ^ 8); [simpl; lia|].
    apply Z.pow_le_mono_r; lia.
Qed.

(** X2.  [setFlag] and [hasFlag]: after a flag was set it is had, unless it
    is the empty flag; after it was cleared it is not had; flags that share
    no bit with it are had as before; the flags stay a [TreeFlags] value and
    name, payload and children are not touched. *)
Theorem setFlag_hasFlag (n : NodeT NodeDataT) (flag other : Z)
    (enabled : bool)
    (Hflag : 0 <= flag < 256)
    (Hother : 0 <= other < 256)
    (Hdisjoint : Z.land flag other = 0) :
  DirectoryTree.hasFlag flag (DirectoryTree.setFlag flag enabled n)
    = enabled && negb (flag =? 0)
  /\ DirectoryTree.hasFlag other (DirectoryTree.setFlag flag enabled n)
     = DirectoryTree.hasFlag other n
  /\ 0 <= m_Flags (DirectoryTree.setFlag flag enabled n) < 256
  /\ m_Name (DirectoryTree.setFlag flag enabled n) = m_Name n
  /\ m_Data (DirectoryTree.setFlag flag enabled n) = m_Data n
  /\ m_Nodes (DirectoryTree.setFlag flag enabled n) = m_Nodes n.
Proof.
  unfold DirectoryTree.hasFlag, DirectoryTree.setFlag. cbn [m_Flags set_Flags
    m_Name m_Data m_Nodes].
  assert (Hdis : forall i, 0 <= i ->
            Z.testbit flag i && Z.testbit other i = false).
  { intros i Hi. rewrite <- Z.land_spec, Hdisjoint. apply Z.bits_0. }
  split; [|split; [|split; [|auto]]].
  - destruct enabled; cbn [andb].
    + assert (Heq : Z.land (to_TreeFlags (Z.lor (m_Flags n) flag)) flag = flag).
      { rewrite to_TreeFlags_land. apply Z.bits_inj'. intros i Hi.
        rewrite !Z.land_spec, Z.lor_spec.
        destruct (Z.testbit flag i) eqn:Hf;
          [|rewrite andb_false_r; reflexivity].
        rewrite (flag_low_bits flag i Hflag Hi Hf), orb_true_r. reflexivity. }
      rewrite Heq. reflexivity.
    + assert (Heq : Z.land (to_TreeFlags (Z.land (m_Flags n) (Z.lnot flag)))
                           flag = 0).
      { rewrite to_TreeFlags_land. apply Z.bits_inj'. intros i Hi.
        rewrite !Z.land_spec, Z.lnot_spec, Z.bits_0 by exact Hi.
        destruct (Z.testbit flag i); cbn;
          [rewrite !andb_false_r | rewrite andb_false_r]; reflexivity. }
      rewrite Heq. reflexivity.
  - f_equal. f_equal. rewrite to_TreeFlags_land. apply Z.bits_inj'.
    intros i Hi. specialize (Hdis i Hi).
    destruct enabled;
      rewrite ?Z.land_spec, ?Z.lor_spec, ?Z.lnot_spec by exact Hi;
      destruct (Z.testbit other i) eqn:Ho;
      rewrite ?andb_false_r; try reflexivity;
      rewrite (flag_low_bits other i Hother Hi Ho);
      rewrite andb_true_r in Hdis; rewrite Hdis; cbn;
      rewrite ?orb_false_r, ?andb_true_r; reflexivity.
  - unfold to_TreeFlags. apply Z.mod_pos_bound. lia.
Qed.

End Flags.

Lemma setFlag_hasFlag_witness :
  DirectoryTree.hasFlag FLAG_DUMMY
    (DirectoryTree.setFlag FLAG_DUMMY true
       (mkNode FLAG_DIRECTORY None None "a" "" [])) = true
  /\ DirectoryTree.hasFlag FLAG_DIRECTORY
       (DirectoryTree.setFlag FLAG_DUMMY true
          (mkNode FLAG_DIRECTORY None None "a" "" [])) = true.
Proof.
  destruct (setFlag_hasFlag (mkNode FLAG_DIRECTORY None None "a" "" [])
              FLAG_DUMMY FLAG_DIRECTORY true) as (H1 & H2 & _).
  - unfold FLAG_DUMMY. lia.
  - unfold FLAG_DIRECTORY. lia.
  - reflexivity.
  - split; [exact H1 | exact H2].
Defined.


Section Children.

Context {NodeDataT : Type}.

#[local] Abbreviation store := (store NodeDataT).

(** X3.  [node(name)], [node(name, MissingThrow)] and [exists(name)] look
    the same key up: for names that agree up to the case of their letters
    (read as C strings) the three give the same child, a null pointer,
    [node_missing_error] or [false] together. *)
Theorem node_exists_agree (h : store) (p : ptr) (a b : string)
    (Hab : ci_equiv a b = true) :
  DirectoryTree.node h p a = DirectoryTree.node h p b
  /\ DirectoryTree.exists_ h p a
     = match DirectoryTree.node h p b with Some _ => true | None => false end
  /\ DirectoryTree.node_throw h p a
     = match DirectoryTree.node h p b with
       | Some c => Returns c h
       | None => Throws node_missing_error h
       end.
Proof.
  unfold DirectoryTree.node, DirectoryTree.exists_, DirectoryTree.node_throw.
  assert (Heq : NodeMap.find (c_str a) (nodes_of h p)
                = NodeMap.find (c_str b) (nodes_of h p)).
  { apply find_equiv. unfold ci_equiv in *.
    rewrite !CILess_c_str_l, !CILess_c_str_r. exact Hab. }
  rewrite Heq. auto.
Qed.

End Children.

Lemma node_exists_agree_witness :
  DirectoryTree.node Migration.source 1%nat "B"
  = DirectoryTree.node Migration.source 1%nat "b".
Proof.
  exact (proj1 (node_exists_agree Migration.source 1%nat "B" "b" eq_refl)).
Defined.


(** X4.  [numNodesRecursive()] of a node whose subtree has [s] nodes is
    [2 * s - 1]: the node once and every node below it twice. *)
Theorem numNodesRecursive_counts_twice {NodeDataT : Type}
    (h : store NodeDataT) (fuel : nat) (p : ptr) (s : nat)
    (Hsize : subtree_size h fuel p = Some s) :
  DirectoryTree.numNodesRecursive h fuel p = Some (2 * s - 1)%nat.
Proof.
  destruct (numNodesRecursive_twice h fuel p s Hsize) as (r & Hr & Heq).
  rewrite Hr. f_equal. lia.
Qed.

Lemma numNodesRecursive_counts_twice_witness :
  subtree_size Migration.source 4 0%nat = Some 7%nat
  /\ DirectoryTree.numNodesRecursive Migration.source 4 0%nat = Some 13%nat.
Proof.
  split; [vm_compute; reflexivity|].
  apply (numNodesRecursive_counts_twice Migration.source 4 0%nat 7).
  vm_compute. reflexivity.
Defined.

Section Maps.

Context {NodeDataT : Type}.

#[local] Abbreviation store := (store NodeDataT).

Lemma lookup_In {A : Type} (l : list A) i x : l !! i = Some x -> In x l.
Proof.
  revert i. induction l as [|y l IH]; intros [|i] H; try discriminate.
  - injection H as ->. left. reflexivity.
  - right. eapply IH. exact H.
Qed.

Lemma erase_find (m : NodeMapT) :
  strictly_sorted m ->
  forall i k c,
    m !! i = Some (k, c) ->
    NodeMap.find k (NodeMap.erase i m) = None
    /\ forall k', ci_equiv k k' = false ->
                  NodeMap.find k' (NodeMap.erase i m) = NodeMap.find k' m.
Proof.
  induction m as [|[k0 c0] m IH]; intros Hs i k c Hi; [discriminate|].
  destruct Hs as [Hall Hs].
  destruct i as [|i].
  - injection Hi as -> ->. cbn [NodeMap.erase].
    split; [apply find_below; exact Hall|].
    intros k' Hne. cbn [NodeMap.find].
    destruct (CILess k k') eqn:H1; [reflexivity|].
    destruct (CILess k' k) eqn:H2.
    + apply find_below. eapply Forall_less_trans; [exact H2 | exact Hall].
    + unfold ci_equiv in Hne. rewrite H1, H2 in Hne. discriminate.
  - cbn [NodeMap.erase NodeMap.find]. simpl in Hi.
    destruct (IH Hs i k c Hi) as [IH1 IH2].
    assert (Hlt : CILess k0 k = true).
    { rewrite List.Forall_forall in Hall.
      apply (Hall (k, c)). eapply lookup_In. exact Hi. }
    split; [rewrite Hlt; exact IH1|].
    intros k' Hne. destruct (CILess k0 k'); [apply IH2; exact Hne | reflexivity].
Qed.

Lemma erase_length (m : NodeMapT) i :
  (i < length m)%nat -> S (length (NodeMap.erase i m)) = length m.
Proof.
  revert i. induction m as [|e m IH]; intros i Hi; simpl in Hi; [lia|].
  destruct i as [|i]; simpl; [reflexivity|]. rewrite IH by lia. reflexivity.
Qed.

(** X5.  [erase(iter)] on a node that does not lie below the child it
    erases takes exactly the entry at the iterator out of the children of
    the node: its name is not found any more, every other name leads where
    it led, the node has one child less and keeps its flags, name and
    payload, and no node is changed other than this node, the child that
    the entry held and the nodes below that child.  (Of the child and what
    is below it nothing is said: the source destroys them when the entry
    was their last owner.) *)
Theorem erase_removes_one (h : store) (p : ptr) (n : NodeT NodeDataT)
    (i : nat) (k : string) (c : ptr)
    (Hp : h !! p = Some n)
    (Hsorted : strictly_sorted (m_Nodes n))
    (Hi : m_Nodes n !! i = Some (k, c))
    (Hcp : c <> p)
    (Hbelow : ~ descendant h c p) :
  DirectoryTree.node (DirectoryTree.erase i p h) p k = None
  /\ (forall k', ci_equiv k k' = false ->
        DirectoryTree.node (DirectoryTree.erase i p h) p k'
        = DirectoryTree.node h p k')
  /\ (exists n', DirectoryTree.erase i p h !! p = Some n'
                 /\ S (DirectoryTree.numNodes n') = DirectoryTree.numNodes n
                 /\ m_Flags n' = m_Flags n /\ m_Name n' = m_Name n
                 /\ m_Data n' = m_Data n)
  /\ (forall q, q <> p -> q <> c -> ~ descendant h c q ->
        DirectoryTree.erase i p h !! q = h !! q).
Proof.
  destruct (erase_find _ Hsorted i k c Hi) as [Hgone Hkeep].
  assert (Hk : nodes_of (DirectoryTree.erase i p h) p
               = NodeMap.erase i (m_Nodes n)).
  { unfold DirectoryTree.erase.
    rewrite (nodes_of_update_set p (fun n => NodeMap.erase i (m_Nodes n))
               h p n Hp), Nat.eqb_refl. reflexivity. }
  unfold DirectoryTree.node. rewrite Hk.
  split.
  { rewrite <- Hgone. apply find_equiv. rewrite ci_equiv_comm.
    rewrite ci_equiv_c_str_r. apply ci_equiv_refl. }
  split.
  { intros k' Hne. unfold nodes_of. rewrite Hp. apply Hkeep.
    rewrite ci_equiv_c_str_r. exact Hne. }
  split.
  { unfold DirectoryTree.erase. rewrite update_lookup, Nat.eqb_refl, Hp.
    eexists. split; [reflexivity|]. cbn.
    split; [|auto]. unfold DirectoryTree.numNodes. cbn.
    apply erase_length. eapply lookup_lt_Some; exact Hi. }
  intros q Hq _ _. unfold DirectoryTree.erase. rewrite update_lookup.
  destruct (Nat.eqb_spec q p) as [|_]; [congruence | reflexivity].
Qed.


(** [findNode] and [visitPath] go down by the visited elements. *)
Lemma visitPath_at_trail (h : store) fuel p e r :
  (length (e :: r) <= fuel)%nat ->
  DirectoryTree.visitPath_at h fuel p (e :: r) = trail h p (visited (e :: r)).
Proof.
  revert p e r. induction fuel as [|fuel IH]; intros p e r Hlen.
  - simpl in Hlen. lia.
  - rewrite visited_next. cbn [DirectoryTree.visitPath_at trail].
    destruct (NodeMap.find (c_str e) (nodes_of h p)) as [s|]; [|reflexivity].
    destruct (Path.nextIter (e :: r)) as [|e' r'] eqn:Hn.
    + reflexivity.
    + cbn [Path.at_end]. f_equal. apply IH.
      assert (Hl : (length (Path.nextIter (e :: r)) <= length r)%nat)
        by apply skip_separators_length.
      rewrite Hn in Hl. simpl in *. lia.
Qed.

Lemma visitPath_trail (h : store) p path :
  DirectoryTree.visitPath h p path = trail h p (visited path).
Proof.
  destruct path as [|e r]; [reflexivity|].
  apply visitPath_at_trail. unfold Path.path_begin. lia.
Qed.

Lemma trail_descend (h : store) es :
  es <> [] ->
  forall p,
    match descend h p es with
    | Some n => length (trail h p es) = length es
                /\ last (trail h p es) = Some n
    | None => (length (trail h p es) < length es)%nat
    end.
Proof.
  induction es as [|e es IH]; [congruence|]. intros _ p.
  cbn [descend trail].
  destruct (NodeMap.find (c_str e) (nodes_of h p)) as [s|]; [|simpl; lia].
  destruct es as [|e' es'].
  - simpl. auto.
  - assert (Hne : e' :: es' <> []) by discriminate.
    specialize (IH Hne s).
    destruct (descend h s (e' :: es')) as [n|].
    + destruct IH as [Hl Hlast]. split; [cbn [length] in *; lia|].
      cbn [trail] in Hlast |- *.
      destruct (NodeMap.find (c_str e') (nodes_of h s)) as [s'|];
        [|discriminate].
      exact Hlast.
    + cbn [length] in *. lia.
Qed.

(** X7.  [visitPath] against [findNode]: when [findNode(path)] finds a node
    the visitor is handed one node for each component that the walk stops
    at, the last of them the node found; when it finds none the visitor is
    handed fewer. *)
Theorem visitPath_findNode (h : store) (p : ptr) (path : Path.path)
    (Hpath : path <> []) :
  match DirectoryTree.findNode h p path with
  | Some n =>
      length (DirectoryTree.visitPath h p path) = length (visited path)
      /\ last (DirectoryTree.visitPath h p path) = Some n
  | None =>
      (length (DirectoryTree.visitPath h p path) < length (visited path))%nat
  end.
Proof.
  rewrite findNode_descend by exact Hpath. rewrite visitPath_trail.
  apply trail_descend. rewrite visited_nil_iff. exact Hpath.
Qed.

Lemma visited_app (p : Path.path) e q :
  p <> [] -> Path.is_separator_element e = false ->
  visited (p ++ e :: q) = visited p ++ visited (e :: q).
Proof.
  destruct p as [|x p]; [congruence|]. intros _ He. simpl.
  rewrite List.filter_app. simpl. rewrite He. reflexivity.
Qed.

(** X8.  [findNode] composes: looking a path up whose elements are those of
    [p] followed by those of [q] is looking [q] up from the node that [p]
    leads to, and gives null when [p] leads nowhere. *)
Theorem findNode_app (h : store) (r : ptr) (p q : Path.path) (e : string)
    (q' : Path.path)
    (Hp : p <> [])
    (Hq : q = e :: q')
    (He : Path.is_separator_element e = false) :
  DirectoryTree.findNode h r (p ++ q)
  = match DirectoryTree.findNode h r p with
    | Some n => DirectoryTree.findNode h n q
    | None => None
    end.
Proof.
  subst q. rewrite !findNode_descend; [| exact Hp | destruct p; discriminate].
  rewrite visited_app by assumption. rewrite descend_app.
  destruct (descend h r (visited p)) as [n|]; [|reflexivity].
  rewrite findNode_descend by discriminate. reflexivity.
Qed.

Lemma descend_descendant (h : store) es :
  es <> [] ->
  forall p n, descend h p es = Some n -> descendant h p n.
Proof.
  induction es as [|e es IH]; [congruence|]. intros _ p n. cbn [descend].
  destruct (NodeMap.find (c_str e) (nodes_of h p)) as [s|] eqn:Hf;
    [|discriminate].
  apply find_target in Hf.
  destruct es as [|e' es'].
  - simpl. intros H. injection H as <-. apply descendant_child. exact Hf.
  - intros H. eapply descendant_step; [exact Hf|]. apply IH; [discriminate|].
    exact H.
Qed.

Lemma descendant_trans (h : store) p q c :
  descendant h p q -> descendant h q c -> descendant h p c.
Proof.
  induction 1 as [p q Hin | p q' q Hin Hd IH]; intros Hc.
  - eapply descendant_step; eassumption.
  - eapply descendant_step; [exact Hin | apply IH; exact Hc].
Qed.

Section Find.

Variable PartialMatch : string -> string -> option string.

#[local, warnings="-inconsistent-scopes"]
Abbreviation local_step h fuel pattern :=
  (fun (output : option (list ptr)) (entry : string * ptr) =>
     match output, h !! (snd entry) with
     | Some out, Some child =>
         if DirectoryTree.starts_with_star_separator pattern
            && DirectoryTree.isDirectory child then
           match DirectoryTree.findLocal PartialMatch h fuel
                   (snd entry) (Str.drop 1 pattern) with
           | Some more => Some (out ++ more)
           | None => None
           end
         else
           match PartialMatch (c_str (m_Name child)) (c_str pattern) with
           | Some remainder =>
               let out' :=
                 if String.eqb remainder "" || String.eqb remainder "*"
                 then out ++ [snd entry] else out in
               if DirectoryTree.isDirectory child then
                 match DirectoryTree.findLocal PartialMatch h fuel
                         (snd entry) remainder with
                 | Some more => Some (out' ++ more)
                 | None => None
                 end
               else Some out'
           | None => Some out
           end
     | _, _ => None
     end).

Lemma local_step_none (h : store) fuel pattern l :
  fold_left (local_step h fuel pattern) l None = None.
Proof. induction l as [|x l IH]; simpl; auto. Qed.

Lemma findLocal_below (h : store) fuel :
  forall p pattern out,
    DirectoryTree.findLocal PartialMatch h fuel p pattern = Some out ->
    Forall (fun c => descendant h p c /\ h !! c <> None) out.
Proof.
  induction fuel as [|fuel IH]; intros p pattern out; [discriminate|].
  cbn [DirectoryTree.findLocal].
  assert (Hgen : forall l acc,
             (forall kv, In kv l -> In (snd kv) (map snd (nodes_of h p))) ->
             Forall (fun c => descendant h p c /\ h !! c <> None) acc ->
             forall out,
               fold_left (local_step h fuel pattern) l (Some acc) = Some out ->
               Forall (fun c => descendant h p c /\ h !! c <> None) out).
  { induction l as [|kv l IHl]; intros acc Hl Hacc out0.
    - simpl. intros H. injection H as <-. exact Hacc.
    - cbn [fold_left].
      assert (Hkv : In (snd kv) (map snd (nodes_of h p)))
        by (apply Hl; left; reflexivity).
      assert (Hl' : forall kv', In kv' l ->
                                In (snd kv') (map snd (nodes_of h p)))
        by (intros kv' Hin; apply Hl; right; exact Hin).
      assert (Hmore : forall pat more,
                 DirectoryTree.findLocal PartialMatch h fuel (snd kv) pat
                 = Some more ->
                 Forall (fun c => descendant h p c /\ h !! c <> None) more).
      { intros pat more Hm. apply IH in Hm.
        eapply List.Forall_impl; [|exact Hm].
        intros c [Hd Hc]. split; [|exact Hc].
        eapply descendant_step; eassumption. }
      destruct (h !! snd kv) as [child|] eqn:Hchild;
        [|rewrite local_step_none; discriminate].
      assert (Hself : descendant h p (snd kv) /\ h !! snd kv <> None).
      { split; [apply descendant_child; exact Hkv | congruence]. }
      destruct (DirectoryTree.starts_with_star_separator pattern
                && DirectoryTree.isDirectory child).
      + destruct (DirectoryTree.findLocal PartialMatch h fuel (snd kv)
                    (Str.drop 1 pattern)) as [more|] eqn:Hm;
          [|rewrite local_step_none; discriminate].
        apply IHl; [exact Hl'|]. apply Forall_app. split; [exact Hacc|].
        eapply Hmore; exact Hm.
      + destruct (PartialMatch (c_str (m_Name child)) (c_str pattern))
          as [remainder|]; [|apply IHl; assumption].
        cbn zeta.
        assert (Hacc' : Forall (fun c => descendant h p c /\ h !! c <> None)
                          (if String.eqb remainder ""
                              || String.eqb remainder "*"
                           then acc ++ [snd kv] else acc)).
        { destruct (String.eqb remainder "" || String.eqb remainder "*");
            [|exact Hacc].
          apply Forall_app. split; [exact Hacc|]. constructor; [exact Hself|].
          constructor. }
        destruct (DirectoryTree.isDirectory child);
          [|apply IHl; assumption].
        destruct (DirectoryTree.findLocal PartialMatch h fuel (snd kv)
                    remainder) as [more|] eqn:Hm;
          [|rewrite local_step_none; discriminate].
        apply IHl; [exact Hl'|]. apply Forall_app. split; [exact Hacc'|].
        eapply Hmore; exact Hm. }
  apply Hgen; [|constructor].
  intros kv Hin. apply in_map. exact Hin.
Qed.

(** X9.  What [find(pattern)] returns are nodes below the node it is called
    on, each of them a node of the segment and reached from the node
    through one or more children maps, whatever the matcher accepts. *)
Theorem find_results_below (h : store) (fuel : nat) (p : ptr)
    (pattern : string) (out : list ptr)
    (Hfind : DirectoryTree.find PartialMatch h fuel p pattern = Some out) :
  Forall (fun c => descendant h p c /\ h !! c <> None) out.
Proof.
  unfold DirectoryTree.find in Hfind.
  destruct (match Str.find_first_of Str.is_wildcard pattern with
            | Some O => None
            | Some i => Str.find_last_of Str.is_separator pattern i
            | None => None
            end) as [i|]; [|eapply findLocal_below; exact Hfind].
  destruct (DirectoryTree.findNode h p (Path.of_string (Str.take i pattern)))
    as [n|] eqn:Hn.
  - assert (Hd : descendant h p n).
    { destruct (Path.of_string (Str.take i pattern)) as [|e r] eqn:Hpath;
        [discriminate|].
      rewrite findNode_descend in Hn by discriminate.
      eapply descend_descendant; [|exact Hn]. discriminate. }
    apply findLocal_below in Hfind.
    eapply List.Forall_impl; [|exact Hfind].
    intros c [Hc Hex]. split; [|exact Hex].
    eapply descendant_trans; eassumption.
  - injection Hfind as <-. constructor.
Qed.

End Find.

End Maps.

Lemma erase_removes_one_witness :
  DirectoryTree.node (DirectoryTree.erase 0 2%nat Migration.source) 2%nat
    "c1.txt" = None
  /\ DirectoryTree.node (DirectoryTree.erase 0 2%nat Migration.source) 2%nat
       "c2.txt" = Some 4%nat
  /\ DirectoryTree.erase 0 2%nat Migration.source !! 4%nat
     = Migration.source !! 4%nat.
Proof.
  destruct (erase_removes_one Migration.source 2%nat
              (mkNode 3 (Some 1%nat) (Some 2%nat) "b" ""
                      [("c1.txt", 3%nat); ("c2.txt", 4%nat)])
              0 "c1.txt" 3%nat) as (H1 & H2 & _ & H4).
  - vm_compute. reflexivity.
  - simpl. repeat constructor.
  - reflexivity.
  - discriminate.
  - intros Hd. inversion Hd as [a b Hin|a b b' Hin]; subst;
      vm_compute in Hin; destruct Hin.
  - split; [exact H1|].
    split; [rewrite H2; vm_compute; reflexivity|].
    apply H4; [discriminate | discriminate |].
    intros Hd. inversion Hd as [a b Hin|a b b' Hin]; subst;
      vm_compute in Hin; destruct Hin.
Defined.


Lemma visitPath_findNode_witness :
  length (DirectoryTree.visitPath Migration.source 0%nat
            (Path.of_string "a/b/c1.txt")) = 3%nat
  /\ last (DirectoryTree.visitPath Migration.source 0%nat
             (Path.of_string "a/b/c1.txt")) = Some 3%nat.
Proof.
  pose proof (visitPath_findNode Migration.source 0%nat
                (Path.of_string "a/b/c1.txt")) as H.
  assert (Hne : Path.of_string "a/b/c1.txt" <> []) by discriminate.
  specialize (H Hne).
  replace (DirectoryTree.findNode Migration.source 0%nat
             (Path.of_string "a/b/c1.txt")) with (Some 3%nat) in H
    by (vm_compute; reflexivity).
  exact H.
Defined.

Lemma findNode_app_witness :
  DirectoryTree.findNode Migration.source 0%nat
    (Path.of_string "a/b" ++ Path.of_string "c2.txt") = Some 4%nat.
Proof.
  rewrite (findNode_app Migration.source 0%nat (Path.of_string "a/b")
             (Path.of_string "c2.txt") "c2.txt" []).
  - vm_compute. reflexivity.
  - discriminate.
  - reflexivity.
  - reflexivity.
Defined.

Lemma find_results_below_witness :
  Forall (fun c => descendant Migration.source 0%nat c
                   /\ Migration.source !! c <> None) [3%nat; 4%nat].
Proof.
  apply (find_results_below Wildcard.PartialMatch Migration.source 4 0%nat
           "a/b/*.txt").
  vm_compute. reflexivity.
Defined.

End NodeFacts.

(** ** What an insertion keeps and what it adds *)

Module InsertFacts.

Import TreeContainer CIOrder NodeMapFacts PathFacts StoreFacts AddNodeFacts.
Import CaseFacts CopyFacts LinkedFacts MigrateFacts NodeFacts.

Section Insert.

Context {NodeDataT : Type} (createDataEmpty : NodeDataT).

#[local] Abbreviation SharedMemoryT := (@SharedMemoryT NodeDataT).
#[local] Abbreviation kids shm q := (nodes_of (segment shm) q).

Lemma fields_kept_refl (h : store NodeDataT) : fields_kept h h.
Proof. intros q nd Hq. eauto. Qed.

Lemma fields_kept_trans (a b c : store NodeDataT) :
  fields_kept a b -> fields_kept b c -> fields_kept a c.
Proof.
  intros H1 H2 q nd Hq. destruct (H1 _ _ Hq) as (nd1 & Hq1 & F1 & N1 & D1).
  destruct (H2 _ _ Hq1) as (nd2 & Hq2 & F2 & N2 & D2).
  exists nd2. split; [exact Hq2|]. split; [congruence|].
  split; congruence.
Qed.

Lemma fields_kept_modify p f (shm : SharedMemoryT) :
  (forall n, m_Flags (f n) = m_Flags n /\ m_Name (f n) = m_Name n
             /\ m_Data (f n) = m_Data n) ->
  fields_kept (segment shm) (segment (modify p f shm)).
Proof.
  intros Hf q nd Hq. rewrite modify_lookup.
  destruct (Nat.eqb_spec q p) as [->|_]; [|eauto].
  rewrite Hq. exists (f nd). split; [reflexivity|]. apply Hf.
Qed.

Lemma fields_kept_createSubNode name flags data (shm shm1 : SharedMemoryT) p :
  createSubNode name flags data shm = Returns p shm1 ->
  fields_kept (segment shm) (segment shm1).
Proof.
  intros Hcr q nd Hq.
  apply createSubNode_inv in Hcr as (-> & _ & _ & _ & _ & _ & Hold).
  exists nd. rewrite Hold; [auto|]. apply lookup_lt_Some in Hq. lia.
Qed.

#[local] Hint Resolve fields_kept_refl : core.

Ltac keep_step :=
  first
    [ eapply fields_kept_trans;
      [|apply fields_kept_modify; intros ?; cbn; auto]
    | eapply fields_kept_createSubNode; eassumption ].

(** [addNode] writes [m_Self], [m_Parent] and [m_Nodes] of nodes that are
    there, and nothing else of them. *)
Lemma addNode_fields fuel :
  forall base iter data ov flags (shm : SharedMemoryT) shm',
    state_of (addNode createDataEmpty fuel base iter data ov flags shm)
      = Some shm' ->
    fields_kept (segment shm) (segment shm').
Proof.
  induction fuel as [|fuel IH]; intros base iter data ov flags shm shm' Hout;
    [discriminate|].
  destruct iter as [|e r]; [discriminate|].
  destruct (Path.nextIter (e :: r)) as [|e' r'] eqn:Hnext.
  - cbn [TreeContainer.addNode] in Hout. rewrite Hnext in Hout.
    cbn [Path.at_end] in Hout.
    destruct (negb _); [discriminate|].
    unfold DirectoryTree.node in Hout.
    destruct (NodeMap.find (c_str e) (nodes_of (segment shm) (get shm)))
      as [existing|].
    + destruct (valid existing shm); [|discriminate].
      destruct ov.
      * injection Hout as <-. repeat keep_step. apply fields_kept_refl.
      * destruct (NodeMap.insert _ _ _) as [[m w] b].
        injection Hout as <-. repeat keep_step. apply fields_kept_refl.
    + destruct (createSubNode e flags data shm) as [n shm1|x s1| |] eqn:Hcr;
        try discriminate.
      * destruct ov.
        -- injection Hout as <-. repeat keep_step.
        -- destruct (NodeMap.insert _ _ _) as [[m w] b].
           injection Hout as <-. repeat keep_step.
      * injection Hout as <-.
        apply createSubNode_throws in Hcr as (_ & -> & _).
        apply fields_kept_refl.
  - rewrite (addNode_step _ _ _ _ _ _ _ _ _ _ _ Hnext) in Hout.
    destruct (negb _); [discriminate|].
    destruct (NodeMap.find (c_str e) (nodes_of (segment shm) base)) as [sub|].
    + eapply IH; exact Hout.
    + destruct (createSubNode e (Z.lor FLAG_DIRECTORY FLAG_DUMMY)
                  createDataEmpty shm) as [n shm1|x s1| |] eqn:Hcr;
        try discriminate.
      * eapply fields_kept_trans; [|eapply IH; exact Hout].
        unfold attach_dummy.
        destruct (NodeMap.insert _ _ _) as [[m w] b]. cbn [snd].
        repeat keep_step.
      * injection Hout as <-.
        apply createSubNode_throws in Hcr as (_ & -> & _).
        apply fields_kept_refl.
Qed.

(** X10.  An insertion into a segment that is not marked outdated, whether
    it returns or throws, does not change the flags, the name or the
    payload of a node of the tree: a node that the root leads to
    afterwards and that was in the segment before has the flags, the name
    and the payload it had.  Of a node that is there
    [addNode] writes the links only, with [overwrite] as well.  (A node
    whose entry was replaced is not spoken of: the source destroys it when
    the entry was its last owner.) *)
Theorem insertion_keeps_nodes (fuel : nat) (base : ptr)
    (iter : Path.iterator) (data : NodeDataT) (ov : bool) (flags : Z)
    (shm shm' : SharedMemoryT) (es : list string) (q : ptr)
    (nd : NodeT NodeDataT)
    (Hcurrent : outdated shm = false)
    (Hout : state_of (addNode createDataEmpty fuel base iter data ov flags shm)
            = Some shm')
    (Hreach : descend (segment shm') (tree shm') es = Some q)
    (Hq : segment shm !! q = Some nd) :
  exists nd',
    segment shm' !! q = Some nd'
    /\ m_Flags nd' = m_Flags nd
    /\ m_Name nd' = m_Name nd
    /\ m_Data nd' = m_Data nd.
Proof. exact (addNode_fields fuel _ _ _ _ _ _ _ Hout q nd Hq). Qed.

Lemma last_snoc {A : Type} (l : list A) x :
  last l = Some x -> exists l', l = l' ++ [x].
Proof.
  induction l as [|y l IH]; [discriminate|].
  destruct l as [|z l].
  - simpl. intros H. injection H as ->. exists []. reflexivity.
  - intros H. destruct (IH H) as [l' Hl']. exists (y :: l'). rewrite Hl'.
    reflexivity.
Qed.

Lemma descend_kept (h h' : store NodeDataT) (P : string -> Prop) :
  (forall q k v, P k -> NodeMap.find (c_str k) (nodes_of h q) = Some v ->
                 NodeMap.find (c_str k) (nodes_of h' q) = Some v) ->
  forall es r n, Forall P es -> descend h r es = Some n ->
                 descend h' r es = Some n.
Proof.
  intros Hk. induction es as [|e es IH]; intros r n Hall; [auto|].
  apply Forall_cons in Hall as [He Hall]. cbn [descend].
  destruct (NodeMap.find (c_str e) (nodes_of h r)) as [s|] eqn:Hf;
    [|discriminate].
  rewrite (Hk _ _ _ He Hf). apply IH. exact Hall.
Qed.

(** X11.  An insertion, whether it returns or throws, does not redirect the
    other paths: a path none of whose names is the last name of the
    inserted one (up to case) leads, from any node, to the node it led to
    before. *)
Theorem insertion_keeps_other_paths (fuel : nat) (base : ptr)
    (iter : Path.iterator) (data : NodeDataT) (ov : bool) (flags : Z)
    (shm shm' : SharedMemoryT) (el : string)
    (r : ptr) (path : Path.path) (n : ptr)
    (Hout : state_of (addNode createDataEmpty fuel base iter data ov flags shm)
            = Some shm')
    (Hlast : last (visited iter) = Some el)
    (Hother : Forall (fun e => ci_equiv (c_str el) (c_str e) = false)
                     (visited path))
    (Hfound : DirectoryTree.findNode (segment shm) r path = Some n) :
  DirectoryTree.findNode (segment shm') r path = Some n.
Proof.
  destruct path as [|x path]; [discriminate|].
  rewrite findNode_descend in Hfound |- * by discriminate.
  destruct (last_snoc _ _ Hlast) as [es Hvis].
  eapply descend_kept; [|exact Hother|exact Hfound].
  intros q k v Hk Hf. cbv beta in Hk.
  destruct (addNode createDataEmpty fuel base iter data ov flags shm)
    as [res s|x0 s| |] eqn:Hadd; try discriminate; injection Hout as ->.
  - destruct (addNode_keeps _ _ _ _ _ _ _ _ _ _ _ _ Hadd Hvis) as [_ Hkeep].
    apply Hkeep; [|exact Hf]. exact Hk.
  - destruct (addNode_throws _ _ _ _ _ _ _ _ _ _ Hadd) as (_ & _ & _ & Hkeep).
    apply Hkeep. exact Hf.
Qed.

Lemma descend_ext (h h' : store NodeDataT) :
  (forall q, nodes_of h' q = nodes_of h q) ->
  forall es r, descend h' r es = descend h r es.
Proof.
  intros Hk. induction es as [|e es IH]; intros r; [reflexivity|].
  cbn [descend]. rewrite Hk.
  destruct (NodeMap.find (c_str e) (nodes_of h r)); auto.
Qed.

Lemma no_dangling_valid (shm : SharedMemoryT) q k c :
  no_dangling (segment shm) ->
  NodeMap.find k (kids shm q) = Some c -> valid c shm = true.
Proof.
  intros Hnd Hf. apply Hnd in Hf. unfold valid.
  destruct (segment shm !! c); [reflexivity | congruence].
Qed.

(** Without [overwrite], on a path that leads to a node. *)
Lemma addNode_present data flags fuel :
  forall base iter (shm : SharedMemoryT) n,
    no_dangling (segment shm) ->
    valid (tree shm) shm = true ->
    valid base shm = true ->
    (length iter <= fuel)%nat ->
    iter <> [] ->
    descend (segment shm) base (visited iter) = Some n ->
    addNode createDataEmpty fuel base iter data false flags shm
      = Throws bad_alloc shm
    \/ exists shm',
         addNode createDataEmpty fuel base iter data false flags shm
           = Returns None shm'
         /\ tree shm' = tree shm
         /\ forall q, kids shm' q = kids shm q.
Proof.
  induction fuel as [|fuel IH];
    intros base iter shm n Hnd Hroot Hbase Hlen Hne Hdesc.
  - destruct iter; [congruence | simpl in Hlen; lia].
  - destruct iter as [|e r]; [congruence|].
    rewrite visited_next in Hdesc. cbn [descend] in Hdesc.
    destruct (NodeMap.find (c_str e) (kids shm base)) as [sub|] eqn:Hsub;
      [|discriminate].
    destruct (Path.nextIter (e :: r)) as [|e' r'] eqn:Hnext.
    + simpl in Hdesc. injection Hdesc as ->.
      cbn [TreeContainer.addNode]. rewrite Hnext. cbn [Path.at_end].
      unfold get. rewrite Hroot, Hbase. cbn [andb negb].
      unfold DirectoryTree.node.
      assert (Hfin : forall newNode (shm1 : SharedMemoryT),
                 valid base shm1 = true ->
                 tree shm1 = tree shm ->
                 (forall q, kids shm1 q = kids shm q) ->
                 exists shm',
                   (let shm2 := modify newNode (set_Self (Some newNode)) shm1 in
                    let shm3 :=
                      modify newNode
                        (set_Parent (self_of (segment shm2) base)) shm2 in
                    let '(m, _, inserted) :=
                      NodeMap.insert (c_str e) newNode
                                     (nodes_of (segment shm3) base) in
                    Returns (if inserted then Some newNode else None)
                            (modify base (set_Nodes m) shm3))
                   = Returns None shm'
                   /\ tree shm' = tree shm
                   /\ forall q, kids shm' q = kids shm q).
      { intros newNode shm1 Hb1 Ht1 Hk1. cbn zeta.
        rewrite !kids_modify_keep by reflexivity.
        rewrite Hk1, insert_spec, Hsub.
        eexists. split; [reflexivity|]. split; [exact Ht1|].
        intros q. rewrite kids_modify_set by (rewrite !valid_modify; exact Hb1).
        rewrite !kids_modify_keep by reflexivity. rewrite Hk1.
        destruct (Nat.eqb_spec q base) as [->|_]; reflexivity. }
      destruct (NodeMap.find (c_str e) (nodes_of (segment shm) (tree shm)))
        as [X|] eqn:HX.
      * rewrite (no_dangling_valid _ _ _ _ Hnd HX). right.
        apply Hfin; auto.
      * destruct (createSubNode e flags data shm) as [newNode shm1|x s| |]
          eqn:Hcr.
        -- right. pose proof Hcr as Hinv.
           apply createSubNode_inv in Hinv
             as (_ & Hext & _ & _ & Hk & _ & _).
           apply Hfin; [apply Hext; exact Hbase | apply Hext | exact Hk].
        -- left. apply createSubNode_throws in Hcr as (-> & -> & _).
           reflexivity.
        -- exfalso. eapply (proj2 (createSubNode_defined _ _ _ _)); exact Hcr.
        -- exfalso. eapply (proj1 (createSubNode_defined _ _ _ _)); exact Hcr.
    + rewrite (addNode_step _ _ _ _ _ _ _ _ _ _ _ Hnext).
      rewrite Hroot, Hbase. cbn [andb negb]. rewrite Hsub.
      apply (IH sub (e' :: r') shm n); try assumption.
      * eapply no_dangling_valid; eassumption.
      * assert (Hl : (length (Path.nextIter (e :: r)) <= length r)%nat)
          by apply skip_separators_length.
        rewrite Hnext in Hl. simpl in *. lia.
      * discriminate.
Qed.

(** X12.  Without [overwrite] an insertion at a path that leads to a node
    replaces nothing: in a segment that is not marked outdated [addNode],
    called as [addFile] calls it, returns the null pointer (or throws
    [bad_alloc] with the segment as it was), every children map is as
    before, and the path leads to the node it led to. *)
Theorem insertion_without_overwrite (name : Path.path) (data : NodeDataT)
    (flags : Z) (shm : SharedMemoryT) (n : ptr)
    (Hcurrent : outdated shm = false)
    (Hvalid : no_dangling (segment shm))
    (Hfound : DirectoryTree.findNode (segment shm) (tree shm) name = Some n) :
  addNode createDataEmpty (length name) (tree shm) (Path.path_begin name)
          data false flags shm = Throws bad_alloc shm
  \/ exists shm',
       addNode createDataEmpty (length name) (tree shm) (Path.path_begin name)
               data false flags shm = Returns None shm'
       /\ (forall q, kids shm' q = kids shm q)
       /\ DirectoryTree.findNode (segment shm') (tree shm') name = Some n.
Proof.
  destruct name as [|e r]; [discriminate|].
  rewrite findNode_descend in Hfound by discriminate.
  assert (Hroot : valid (tree shm) shm = true).
  { unfold valid. rewrite visited_next in Hfound. cbn [descend] in Hfound.
    unfold nodes_of in Hfound.
    destruct (segment shm !! tree shm); [reflexivity | discriminate]. }
  destruct (addNode_present data flags (length (e :: r)) (tree shm)
              (Path.path_begin (e :: r)) shm n Hvalid Hroot Hroot)
    as [Hthrow | (shm' & Hret & Htree & Hk)];
    [unfold Path.path_begin; lia | discriminate | exact Hfound | auto |].
  right. exists shm'. split; [exact Hret|]. split; [exact Hk|].
  rewrite findNode_descend by discriminate. rewrite Htree.
  rewrite (descend_ext _ _ Hk). exact Hfound.
Qed.

Lemma no_dangling_check_sound (h : store NodeDataT) :
  no_dangling_check h = true -> no_dangling h.
Proof.
  unfold no_dangling_check. rewrite forallb_forall. intros Hall q k c Hf.
  unfold nodes_of in Hf. destruct (h !! q) as [nq|] eqn:Hq; [|discriminate].
  assert (Hin : In nq h) by (eapply lookup_In; exact Hq).
  specialize (Hall _ Hin). rewrite forallb_forall in Hall.
  apply find_target in Hf. apply in_map_iff in Hf as ([k' c'] & Heq & Hin').
  simpl in Heq. subst c'. specialize (Hall _ Hin'). simpl in Hall.
  destruct (h !! c); [discriminate | discriminate].
Qed.

Lemma to_TreeFlags_idem f : to_TreeFlags (to_TreeFlags f) = to_TreeFlags f.
Proof. unfold to_TreeFlags. apply Z.mod_mod. lia. Qed.

Lemma to_TreeFlags_lor f g :
  to_TreeFlags (Z.lor (to_TreeFlags f) (to_TreeFlags g))
  = Z.lor (to_TreeFlags f) (to_TreeFlags g).
Proof.
  rewrite !to_TreeFlags_land. rewrite <- Z.land_lor_distr_l.
  rewrite <- Z.land_assoc. reflexivity.
Qed.

(** [addDirectory] is [addFile] with the directory flag. *)
Lemma addDirectory_as_addFile retries name data flags ov :
  forall c,
    addDirectory createDataEmpty retries name data flags ov c
    = addFile createDataEmpty retries name data
              (Z.lor (to_TreeFlags flags) FLAG_DIRECTORY) ov c.
Proof.
  assert (Hfl : to_TreeFlags (Z.lor (to_TreeFlags flags) FLAG_DIRECTORY)
                = Z.lor (to_TreeFlags flags) FLAG_DIRECTORY)
    by apply (to_TreeFlags_lor flags 1).
  induction retries as [|retries IH]; intros c;
    cbn [addDirectory addFile]; rewrite Hfl;
    destruct (addNode _ _ _ _ _ _ _ _) as [r shm|x shm| |]; try reflexivity.
  destruct x; try reflexivity.
  destruct (reassign _ _) as [u c1|y c1| |]; try reflexivity. apply IH.
Qed.

(** The node that an insertion with [overwrite] returns is found at the
    path, through a migration as well. *)
Lemma addFile_found name data flags es el :
  names_only name ->
  visited name = es ++ [el] ->
  Forall (fun e => ci_equiv (c_str el) (c_str e) = false) es ->
  forall retries c res c',
    tree_linked (segment (m_SHM c)) (tree (m_SHM c)) ->
    NodeMap.find (c_str el) (kids (m_SHM c) (tree (m_SHM c))) = None ->
    addFile createDataEmpty retries name data flags true c = Returns res c' ->
    exists n nd,
      res = Some n
      /\ DirectoryTree.findNode (segment (m_SHM c')) (tree (m_SHM c')) name
         = Some n
      /\ segment (m_SHM c') !! n = Some nd
      /\ m_Data nd = data
      /\ m_Flags nd = to_TreeFlags flags.
Proof.
  intros Hnames Hvis Hdiff.
  assert (Hne : name <> []).
  { intros ->. destruct es; discriminate. }
  assert (Hreturns : forall c r shm,
             NodeMap.find (c_str el) (kids (m_SHM c) (tree (m_SHM c))) = None ->
             addNode createDataEmpty (length name) (tree (m_SHM c))
                     (Path.path_begin name) data true (to_TreeFlags flags)
                     (m_SHM c) = Returns r shm ->
             exists n nd,
               r = Some n
               /\ DirectoryTree.findNode (segment shm) (tree shm) name = Some n
               /\ segment shm !! n = Some nd
               /\ m_Data nd = data
               /\ m_Flags nd = to_TreeFlags flags).
  { intros c r shm Hfresh Hadd.
    destruct (addNode_found createDataEmpty _ _ _ _ _ _ _ _ _ es el Hadd Hvis
                Hdiff) as (n & Hdesc & Hres & Hdata).
    destruct (addNode_keeps createDataEmpty _ _ _ _ _ _ _ _ _ es el Hadd Hvis)
      as [(Htree & _) _].
    destruct Hres as [[-> _]|[_ ?]]; [|discriminate].
    destruct (Hdata Hfresh eq_refl) as (nd & Hn & Hd & Hf).
    exists n, nd. split; [reflexivity|].
    split; [rewrite findNode_descend by exact Hne; rewrite Htree; exact Hdesc|].
    split; [exact Hn|]. split; [exact Hd|].
    rewrite Hf. apply to_TreeFlags_idem. }
  assert (Hthrows : forall c x shm,
             tree_linked (segment (m_SHM c)) (tree (m_SHM c)) ->
             NodeMap.find (c_str el) (kids (m_SHM c) (tree (m_SHM c))) = None ->
             addNode createDataEmpty (length name) (tree (m_SHM c))
                     (Path.path_begin name) data true (to_TreeFlags flags)
                     (m_SHM c) = Throws x shm ->
             tree_linked (segment shm) (tree shm)
             /\ NodeMap.find (c_str el) (kids shm (tree shm)) = None).
  { intros c x shm HT Hfresh Hadd.
    destruct (addNode_tree_linked createDataEmpty data true
                (to_TreeFlags flags) (length name) (tree (m_SHM c))
                (Path.path_begin name) (m_SHM c) shm es el)
      as (Htree & HT' & Hthrow); try assumption.
    - unfold self_of. destruct HT as ((nr & Hnr & Hsr) & _).
      rewrite Hnr, Nat.eqb_refl. exact Hsr.
    - intros _. left. reflexivity.
    - intros e1 es' ->. split; [exact Hfresh|]. intros _.
      apply Forall_cons in Hdiff as [H _]. exact H.
    - rewrite Hadd. reflexivity.
    - split; [exact HT'|]. rewrite Htree. apply (Hthrow x Hadd). exact Hfresh. }
  induction retries as [|retries IH]; intros c res c' HT Hfresh;
    cbn [addFile];
    destruct (addNode createDataEmpty (length name) (tree (m_SHM c))
                (Path.path_begin name) data true (to_TreeFlags flags)
                (m_SHM c)) as [r shm|x shm| |] eqn:Hadd; try discriminate.
  - intros H. injection H as <- <-. cbn [m_SHM with_SHM].
    eapply Hreturns; eassumption.
  - destruct x; discriminate.
  - intros H. injection H as <- <-. cbn [m_SHM with_SHM].
    eapply Hreturns; eassumption.
  - destruct (Hthrows c x shm HT Hfresh Hadd) as [HT' Hfresh'].
    destruct x; try discriminate.
    destruct (reassign createDataEmpty (with_SHM shm c)) as [u c2|y c2| |]
      eqn:Hre; try discriminate.
    intros H.
    destruct (reassign_linked createDataEmpty (with_SHM shm c) c2 HT')
      as [Hempty|[HT2 Hf2]]; [rewrite Hre; reflexivity | |].
    + pose proof (addFile_no_segment createDataEmpty retries name data flags
                    true c2 Hempty) as Hno.
      rewrite H in Hno. discriminate.
    + eapply IH; [exact HT2 | | exact H]. apply Hf2. exact Hfresh'.
Qed.

(** X13.  Insertion and lookup: when [addFile] with [overwrite] returns for
    a path of names whose last name is the name of no top-level node and
    of no other component of the path, it returns a node, [findNode] of the
    root finds this node at the path, and the node has the payload and the
    flags that were passed, also when the tree moved to a larger segment on
    the way. *)
Theorem addFile_then_findNode (retries : nat) (name : Path.path)
    (data : NodeDataT) (flags : Z) (c c' : @TreeContainer NodeDataT)
    (res : option ptr) (es : list string) (el : string)
    (Hlinked : tree_linked (segment (m_SHM c)) (tree (m_SHM c)))
    (Hnames : names_only name)
    (Hvis : visited name = es ++ [el])
    (Hdiff : Forall (fun e => ci_equiv (c_str el) (c_str e) = false) es)
    (Hfresh : NodeMap.find (c_str el) (kids (m_SHM c) (tree (m_SHM c))) = None)
    (Hret : addFile createDataEmpty retries name data flags true c
            = Returns res c') :
  exists n nd,
    res = Some n
    /\ DirectoryTree.findNode (segment (m_SHM c')) (tree (m_SHM c')) name
       = Some n
    /\ segment (m_SHM c') !! n = Some nd
    /\ m_Data nd = data
    /\ m_Flags nd = to_TreeFlags flags.
Proof. eapply addFile_found; eassumption. Qed.

(** X14.  Under the same conditions the node that [addDirectory] returns is
    a directory, whatever flags were passed, with the payload passed, and
    is found at the path. *)
Theorem addDirectory_makes_directory (retries : nat) (name : Path.path)
    (data : NodeDataT) (flags : Z) (c c' : @TreeContainer NodeDataT)
    (res : option ptr) (es : list string) (el : string)
    (Hlinked : tree_linked (segment (m_SHM c)) (tree (m_SHM c)))
    (Hnames : names_only name)
    (Hvis : visited name = es ++ [el])
    (Hdiff : Forall (fun e => ci_equiv (c_str el) (c_str e) = false) es)
    (Hfresh : NodeMap.find (c_str el) (kids (m_SHM c) (tree (m_SHM c))) = None)
    (Hret : addDirectory createDataEmpty retries name data flags true c
            = Returns res c') :
  exists n nd,
    res = Some n
    /\ DirectoryTree.findNode (segment (m_SHM c')) (tree (m_SHM c')) name
       = Some n
    /\ segment (m_SHM c') !! n = Some nd
    /\ DirectoryTree.isDirectory nd = true
    /\ m_Data nd = data
    /\ m_Flags nd = Z.lor (to_TreeFlags flags) FLAG_DIRECTORY.
Proof.
  rewrite addDirectory_as_addFile in Hret.
  destruct (addFile_found name data _ es el Hnames Hvis Hdiff retries c res c'
              Hlinked Hfresh Hret) as (n & nd & Hres & Hfind & Hn & Hd & Hf).
  assert (Hfl : to_TreeFlags (Z.lor (to_TreeFlags flags) FLAG_DIRECTORY)
                = Z.lor (to_TreeFlags flags) FLAG_DIRECTORY)
    by apply (to_TreeFlags_lor flags 1).
  rewrite Hfl in Hf.
  exists n, nd. split; [exact Hres|]. split; [exact Hfind|].
  split; [exact Hn|]. split; [|split; [exact Hd | exact Hf]].
  unfold DirectoryTree.isDirectory, DirectoryTree.hasFlag. rewrite Hf.
  unfold FLAG_DIRECTORY. rewrite Z.land_lor_distr_l. change (Z.land 1 1) with 1.
  destruct (Z.lor (Z.land (to_TreeFlags flags) 1) 1 =? 0) eqn:Hz;
    [|reflexivity].
  apply Z.eqb_eq in Hz. apply Z.lor_eq_0_iff in Hz as [_ Hz]. discriminate.
Qed.

End Insert.

Lemma insertion_keeps_nodes_witness :
  exists shm' nd',
    addNode "" 1 0%nat (Path.of_string "f") "Y" true 0
            (m_SHM one_file_container) = Returns (Some 1%nat) shm'
    /\ DirectoryTree.findNode (segment shm') (tree shm') (Path.of_string "f")
       = Some 1%nat
    /\ segment shm' !! 1%nat = Some nd'
    /\ m_Flags nd' = 0 /\ m_Name nd' = "f" /\ m_Data nd' = "X".
Proof.
  eexists.
  assert (Hkeep : forall shm',
            addNode "" 1 0%nat (Path.of_string "f") "Y" true 0
                    (m_SHM one_file_container) = Returns (Some 1%nat) shm' ->
            descend (segment shm') (tree shm') ["f"] = Some 1%nat ->
            exists nd', segment shm' !! 1%nat = Some nd'
                        /\ m_Flags nd' = 0 /\ m_Name nd' = "f"
                        /\ m_Data nd' = "X").
  { intros shm' Hrun Hreach.
    apply (insertion_keeps_nodes "" 1 0%nat (Path.of_string "f") "Y" true 0
             (m_SHM one_file_container) shm' ["f"] 1%nat
             (mkNode 0 None (Some 1%nat) "f" "X" [])).
    - reflexivity.
    - rewrite Hrun. reflexivity.
    - exact Hreach.
    - reflexivity. }
  destruct (Hkeep _ eq_refl eq_refl) as (nd' & Hnd & Hf & Hn & Hd).
  exists nd'. split; [reflexivity|]. split; [reflexivity|].
  split; [exact Hnd|]. split; [exact Hf|]. split; [exact Hn | exact Hd].
Defined.

Lemma insertion_keeps_other_paths_witness :
  exists c,
    Scenario.add "a/b/c3.txt" "X4" three_files_container
    = Returns (Some 7%nat) c
    /\ Scenario.findByPath c "a/d/e.txt" = Some 6%nat.
Proof.
  eexists. split; [vm_compute; reflexivity|].
  apply (insertion_keeps_other_paths "" 3 0%nat (Path.of_string "a/b/c3.txt")
           "X4" true 0 (m_SHM three_files_container) _ "c3.txt").
  - vm_compute. reflexivity.
  - reflexivity.
  - repeat constructor.
  - vm_compute. reflexivity.
Defined.

Lemma insertion_without_overwrite_witness :
  exists shm',
    addNode "" 3 0%nat (Path.of_string "a/b/c1.txt") "Y" false 0
            (m_SHM three_files_container) = Returns None shm'
    /\ DirectoryTree.findNode (segment shm') (tree shm')
         (Path.of_string "a/b/c1.txt") = Some 3%nat.
Proof.
  destruct (insertion_without_overwrite "" (Path.of_string "a/b/c1.txt") "Y" 0
              (m_SHM three_files_container) 3%nat)
    as [Hthrow | (shm' & Hret & _ & Hf)].
  - vm_compute. reflexivity.
  - apply no_dangling_check_sound. vm_compute. reflexivity.
  - vm_compute. reflexivity.
  - vm_compute in Hthrow. discriminate.
  - exists shm'. split; [exact Hret | exact Hf].
Defined.

Lemma addFile_then_findNode_witness :
  exists c' nd,
    addFile "" 4 (Path.of_string "a/b/c1.txt") "X1" 0 true
      (mkContainer "svc_1" (mkSHM 3 [mkNode 1 None None "" "" []] 0 1 false))
    = Returns (Some 3%nat) c'
    /\ Scenario.findByPath c' "a/b/c1.txt" = Some 3%nat
    /\ Scenario.nodes c' !! 3%nat = Some nd
    /\ m_Data nd = "X1".
Proof.
  assert (Hrun : exists c',
             addFile "" 4 (Path.of_string "a/b/c1.txt") "X1" 0 true
               (mkContainer "svc_1"
                  (mkSHM 3 [mkNode 1 None None "" "" []] 0 1 false))
             = Returns (Some 3%nat) c')
    by (eexists; vm_compute; reflexivity).
  destruct Hrun as [c' Hrun]. exists c'.
  destruct (addFile_then_findNode "" 4 (Path.of_string "a/b/c1.txt") "X1" 0
              (mkContainer "svc_1"
                 (mkSHM 3 [mkNode 1 None None "" "" []] 0 1 false))
              c' (Some 3%nat) ["a"; "b"] "c1.txt")
    as (n & nd & Hres & Hfind & Hn & Hd & _).
  - apply (attach_linked "" "svc" 3%nat). vm_compute. reflexivity.
  - repeat constructor; discriminate.
  - reflexivity.
  - repeat constructor.
  - reflexivity.
  - exact Hrun.
  - injection Hres as <-. exists nd.
    split; [exact Hrun|]. split; [exact Hfind|].
    split; [exact Hn | exact Hd].
Defined.

Lemma addDirectory_makes_directory_witness :
  exists c' nd,
    addDirectory "" 4 (Path.of_string "a/b") "D" 0 true
      (mkContainer "svc_1" (mkSHM 3 [mkNode 1 None None "" "" []] 0 1 false))
    = Returns (Some 2%nat) c'
    /\ segment (m_SHM c') !! 2%nat = Some nd
    /\ DirectoryTree.isDirectory nd = true.
Proof.
  assert (Hrun : exists c',
             addDirectory "" 4 (Path.of_string "a/b") "D" 0 true
               (mkContainer "svc_1"
                  (mkSHM 3 [mkNode 1 None None "" "" []] 0 1 false))
             = Returns (Some 2%nat) c')
    by (eexists; vm_compute; reflexivity).
  destruct Hrun as [c' Hrun]. exists c'.
  destruct (addDirectory_makes_directory "" 4 (Path.of_string "a/b") "D" 0
              (mkContainer "svc_1"
                 (mkSHM 3 [mkNode 1 None None "" "" []] 0 1 false))
              c' (Some 2%nat) ["a"] "b")
    as (n & nd & Hres & Hfind & Hn & Hdir & _).
  - apply (attach_linked "" "svc" 3%nat). vm_compute. reflexivity.
  - repeat constructor; discriminate.
  - reflexivity.
  - repeat constructor.
  - reflexivity.
  - exact Hrun.
  - injection Hres as <-. exists nd.
    split; [exact Hrun|]. split; [exact Hn | exact Hdir].
Defined.

End InsertFacts.

(** ** Parents and the top-level directory of a node *)

Module AncestryFacts.

Import TreeContainer CIOrder NodeMapFacts PathFacts StoreFacts CopyFacts.
Import LinkedFacts NodeFacts.

Section Ancestry.

Context {NodeDataT : Type}.

#[local] Abbreviation store := (store NodeDataT).

(** A key that is found is the key of an entry, up to case. *)
Lemma find_entry k (m : NodeMapT) c :
  NodeMap.find k m = Some c ->
  exists k0, In (k0, c) m /\ ci_equiv k0 k = true.
Proof.
  induction m as [|[k' v] m IH]; simpl; [discriminate|].
  destruct (CILess k' k) eqn:H1.
  - intros H. destruct (IH H) as (k0 & Hin & He). eauto.
  - destruct (CILess k k') eqn:H2; [discriminate|].
    intros H. injection H as ->. exists k'. split; [auto|].
    unfold ci_equiv. rewrite H1, H2. reflexivity.
Qed.

Lemma child_check_sound (h : store) root q k0 c k :
  child_check h root q (k0, c) = true ->
  ci_equiv k0 k = true ->
  child_ok h root q k c.
Proof.
  unfold child_check. cbn [fst snd].
  destruct (h !! c) as [nd|] eqn:Hc; [|discriminate].
  intros H He.
  repeat (apply andb_prop in H as [H ?]).
  exists nd. split; [exact Hc|].
  split; [apply Nat.eqb_neq; apply negb_true_iff; assumption|].
  split.
  { destruct (m_Self nd) as [s|]; [|discriminate].
    f_equal. apply Nat.eqb_eq. assumption. }
  split.
  { destruct (m_Parent nd) as [w|], (Nat.eqb q root); try discriminate;
      [|reflexivity].
    f_equal. apply Nat.eqb_eq. assumption. }
  split.
  { eapply ci_equiv_trans; [apply ci_equiv_sym; exact He | assumption]. }
  split.
  { intros Heq. rewrite Heq in *. discriminate. }
  apply negb_true_iff. assumption.
Qed.

Lemma tree_linked_check_sound (h : store) root :
  tree_linked_check h root = true -> tree_linked h root.
Proof.
  unfold tree_linked_check. intros H. apply andb_prop in H as [Hroot Hall].
  rewrite forallb_forall in Hall.
  assert (Hq : forall q nq, h !! q = Some nq ->
             sorted_check (m_Nodes nq) = true
             /\ forallb (child_check h root q) (m_Nodes nq) = true).
  { intros q nq Hq. specialize (Hall q). rewrite Hq in Hall.
    apply andb_prop. apply Hall. apply in_seq.
    apply lookup_lt_Some in Hq. lia. }
  split; [|split].
  - destruct (h !! root) as [nr|]; [|discriminate]. exists nr.
    split; [reflexivity|]. destruct (m_Self nr); [discriminate | reflexivity].
  - intros q nd Hnd. apply sorted_check_sound. apply (Hq _ _ Hnd).
  - intros q k c Hf. unfold nodes_of in Hf.
    destruct (h !! q) as [nq|] eqn:Hnq; [|discriminate].
    destruct (Hq _ _ Hnq) as [_ Hch]. rewrite forallb_forall in Hch.
    destruct (find_entry _ _ _ Hf) as (k0 & Hin & He).
    eapply child_check_sound; [apply Hch; exact Hin | exact He].
Qed.

(** The parent pointer of a child that a walk from the root reaches. *)
Lemma reach_parent (h : store) root es q e n :
  tree_linked h root ->
  descend h root es = Some q ->
  NodeMap.find (c_str e) (nodes_of h q) = Some n ->
  exists nd,
    h !! n = Some nd /\ m_Self nd = Some n /\ n <> root
    /\ lock h (m_Parent nd) = match es with [] => None | _ => Some q end.
Proof.
  intros (_ & _ & HT) Hq Hf.
  destruct (HT _ _ _ Hf) as (nd & Hnd & Hne & Hself & Hpar & _).
  exists nd. split; [exact Hnd|]. split; [exact Hself|]. split; [exact Hne|].
  rewrite Hpar. destruct es as [|e0 es].
  - simpl in Hq. injection Hq as <-. rewrite Nat.eqb_refl. reflexivity.
  - assert (Hqr : q <> root /\ h !! q <> None).
    { assert (Hsnoc : exists es' e', e0 :: es = es' ++ [e']).
      { destruct (exists_last (l := e0 :: es)) as (es' & e' & Heq);
          [discriminate | eauto]. }
      destruct Hsnoc as (es' & e' & Heq). rewrite Heq, descend_app in Hq.
      destruct (descend h root es') as [q'|]; [|discriminate].
      cbn [descend] in Hq.
      destruct (NodeMap.find (c_str e') (nodes_of h q')) as [s|] eqn:Hs;
        [|discriminate].
      injection Hq as ->.
      destruct (HT _ _ _ Hs) as (nq & Hnq & Hqr & _).
      split; [exact Hqr | congruence]. }
    destruct Hqr as [Hqr Hqex].
    destruct (Nat.eqb_spec q root) as [|_]; [congruence|].
    unfold lock. destruct (h !! q); [reflexivity | congruence].
Qed.

(** X15.  [parent()] in a linked tree: a node directly below the root has
    no parent (the root's [m_Self] is never set, so no node points to the
    root), and a node deeper down has the node as parent whose map it is
    found in. *)
Theorem parent_of_reached (h : store) (root : ptr) (es : list string)
    (e : string) (n : ptr)
    (Hlinked : tree_linked h root)
    (Hreach : descend h root (es ++ [e]) = Some n) :
  DirectoryTree.parent h n
  = match es with [] => None | _ => descend h root es end.
Proof.
  rewrite descend_app in Hreach.
  destruct (descend h root es) as [q|] eqn:Hq; [|discriminate].
  cbn [descend] in Hreach.
  destruct (NodeMap.find (c_str e) (nodes_of h q)) as [s|] eqn:Hs;
    [|discriminate].
  injection Hreach as ->.
  destruct (reach_parent h root es q e n Hlinked Hq Hs)
    as (nd & Hnd & _ & _ & Hlock).
  unfold DirectoryTree.parent. rewrite Hnd, Hlock.
  destruct es; reflexivity.
Qed.

Lemma findRoot_reached (h : store) root :
  tree_linked h root ->
  forall es e1 t n,
    NodeMap.find (c_str e1) (nodes_of h root) = Some t ->
    descend h t es = Some n ->
    DirectoryTree.findRoot h (S (length es)) n = Some (Some t).
Proof.
  intros HT es. induction es as [|e es IH] using rev_ind;
    intros e1 t n Ht Hn.
  - simpl in Hn. injection Hn as <-.
    destruct (reach_parent h root [] root e1 t HT eq_refl Ht)
      as (nd & Hnd & Hself & _ & Hlock).
    cbn [length DirectoryTree.findRoot]. rewrite Hnd, Hlock, Hself.
    reflexivity.
  - rewrite descend_app in Hn.
    destruct (descend h t es) as [q|] eqn:Hq; [|discriminate].
    cbn [descend] in Hn.
    destruct (NodeMap.find (c_str e) (nodes_of h q)) as [s|] eqn:Hs;
      [|discriminate].
    injection Hn as ->.
    assert (Hq' : descend h root (e1 :: es) = Some q).
    { cbn [descend]. rewrite Ht. exact Hq. }
    destruct (reach_parent h root (e1 :: es) q e n HT Hq' Hs)
      as (nd & Hnd & _ & _ & Hlock).
    rewrite length_app. cbn [length]. rewrite Nat.add_1_r.
    cbn [DirectoryTree.findRoot]. rewrite Hnd, Hlock.
    eapply IH; eassumption.
Qed.

(** X16.  [findRoot()] in a linked tree does not give the root of the tree:
    for a node that names lead to from the root it returns the node
    directly below the root that the walk went through, the top-level
    directory the node lies in. *)
Theorem findRoot_is_top_level (h : store) (root : ptr) (e1 : string)
    (es : list string) (n : ptr)
    (Hlinked : tree_linked h root)
    (Hreach : descend h root (e1 :: es) = Some n) :
  exists t,
    DirectoryTree.node h root e1 = Some t
    /\ t <> root
    /\ DirectoryTree.findRoot h (length (e1 :: es)) n = Some (Some t).
Proof.
  cbn [descend] in Hreach.
  destruct (NodeMap.find (c_str e1) (nodes_of h root)) as [t|] eqn:Ht;
    [|discriminate].
  exists t. split; [exact Ht|].
  destruct (reach_parent h root [] root e1 t Hlinked eq_refl Ht)
    as (_ & _ & _ & Hne & _).
  split; [exact Hne|].
  eapply findRoot_reached; eassumption.
Qed.

End Ancestry.

Lemma source_linked : tree_linked Migration.source 0%nat.
Proof. apply tree_linked_check_sound. vm_compute. reflexivity. Qed.

Lemma parent_of_reached_witness :
  DirectoryTree.parent Migration.source 1%nat = None
  /\ DirectoryTree.parent Migration.source 3%nat = Some 2%nat.
Proof.
  split.
  - apply (parent_of_reached Migration.source 0%nat [] "a" 1%nat).
    + exact source_linked.
    + reflexivity.
  - apply (parent_of_reached Migration.source 0%nat ["a"; "b"] "c1.txt"
             3%nat).
    + exact source_linked.
    + reflexivity.
Defined.

Lemma findRoot_is_top_level_witness :
  DirectoryTree.findRoot Migration.source 3 3%nat = Some (Some 1%nat).
Proof.
  destruct (findRoot_is_top_level Migration.source 0%nat "a" ["b"; "c1.txt"]
              3%nat source_linked eq_refl) as (t & Ht & _ & Hf).
  vm_compute in Ht. injection Ht as <-. exact Hf.
Defined.

End AncestryFacts.
